(** * Theater lottery: a shallow embedding of [index.js] and its verification

    The development follows the layout of the script:
    - JavaScript numbers and 32-bit integer operators, as far as the script
      uses them;
    - [createSeededRandom] (xorshift), [createShuffledArray], [pickWinners];
    - the object store (the [persons] and [theaters] arrays, the
      [theaterMap]), [groupByAssignedCount], [hasConflict], [assignWinners];
    - [runInitialLottery], [runVacancyLottery];
    - the validation functions and [main].

    Objects are identified with their position in the [persons] and
    [theaters] arrays (one object literal is created per input row, and the
    arrays are never resized), so that an array of person objects is a list
    of indices and reading a field goes through the current store: a bucket
    computed at the start of a round still sees the wins registered later
    in that round, as in the script. *)

From Stdlib Require Import ZArith Lia.
From stdpp Require Import base tactics option list sorting strings gmap.

Local Open Scope Z_scope.

(** ** JavaScript numbers *)

(** The numbers the allocation computes with are array lengths, set sizes
    and the result of [parseInt(_, 10)]: an integer or [NaN].  (Integers
    beyond 2^53, which a double holds only approximately, are not
    distinguished from exact ones.) *)
Inductive num : Type :=
  | NaN
  | Num (z : Z).

Global Instance num_eq_dec : EqDecision num.
Proof. solve_decision. Defined.

(** [a - n] for a set size or array length [n]. *)
Definition num_minus (a : num) (n : nat) : num :=
  match a with
  | NaN => NaN
  | Num z => Num (z - Z.of_nat n)
  end.

(** [a <= 0]; every comparison with [NaN] is false. *)
Definition num_le0 (a : num) : bool :=
  match a with
  | NaN => false
  | Num z => z <=? 0
  end.

(** [n <= a]. *)
Definition len_le (n : nat) (a : num) : bool :=
  match a with
  | NaN => false
  | Num z => Z.of_nat n <=? z
  end.

(** [n >= a]. *)
Definition len_ge (n : nat) (a : num) : bool :=
  match a with
  | NaN => false
  | Num z => z <=? Z.of_nat n
  end.

(** [array.slice(0, end)]: a [NaN] end counts as 0, a negative end is
    relative to the end of the array. *)
Definition slice0 {A : Type} (l : list A) (end_ : num) : list A :=
  match end_ with
  | NaN => []
  | Num z =>
      if z <? 0 then take (Z.to_nat (Z.max (Z.of_nat (length l) + z) 0)) l
      else take (Z.to_nat z) l
  end.

(** ** 32-bit integer operators *)

Definition two32 : Z := 4294967296.

(** [ToInt32] on an integral number. *)
Definition toInt32 (n : Z) : Z := (n + 2147483648) mod two32 - 2147483648.

(** [a ^ b] *)
Definition js_xor (a b : Z) : Z := Z.lxor (toInt32 a) (toInt32 b).

(** [a << k], for [0 <= k < 32] *)
Definition js_shl (a k : Z) : Z := toInt32 (Z.shiftl (toInt32 a) k).

(** [a >> k] (sign-propagating), for [0 <= k < 32] *)
Definition js_sar (a k : Z) : Z := Z.shiftr (toInt32 a) k.

(** [a >>> 0] *)
Definition toUint32 (a : Z) : Z := a mod two32.

(** ** Random sources *)

(** A [random] function of the script is a closure over its own state:
    here a state type [G] with a step function.  [random g] gives the
    numerator [u] of the float [u / 2^32] that the call returns, and the
    next state.  The law is the contract under which the script calls it:
    the result lies in [0, 1). *)
Class RandomSource (G : Type) : Type := {
  random : G -> Z * G;
  random_range : forall g, 0 <= fst (random g) < two32
}.

(** The double nearest to a non-negative integer [x], ties to the even
    significand: an integer below 2^53 is a double; a larger one keeps
    its 53 leading bits, rounded. *)
Definition round53 (x : Z) : Z :=
  if x <? 2 ^ 53 then x
  else
    let e := Z.log2 x - 52 in
    let q := x / 2 ^ e in
    let r := x mod 2 ^ e in
    let half := 2 ^ (e - 1) in
    if (r <? half) || ((r =? half) && Z.even q) then q * 2 ^ e
    else (q + 1) * 2 ^ e.

(** [Math.floor(random() * n)] for a call that returned [u / 2^32] and an
    array length [n].  Both factors are doubles; their product is the
    double nearest to [u * n / 2^32], which is the double nearest to
    [u * n], scaled; the floor of a double is exact.  Below 2^53 (any
    array of up to 2^21 elements) nothing is rounded and the result is
    the integer quotient. *)
Definition floor_times (u : Z) (n : nat) : nat :=
  Z.to_nat (round53 (u * Z.of_nat n) / two32).

(** *** [createSeededRandom]: xorshift128 *)

Record xorshift : Type := Xorshift { xs_x : Z; xs_y : Z; xs_z : Z; xs_w : Z }.

Definition createSeededRandom (seed : Z) : xorshift :=
  {| xs_x := 123456789; xs_y := 362436069; xs_z := 521288629; xs_w := seed |}.

(** One call of the closure returned by [createSeededRandom]. *)
Definition xorshift_next (g : xorshift) : Z * xorshift :=
  let x := xs_x g in
  let w := xs_w g in
  let t := js_xor x (js_shl x 11) in
  let w' := js_xor (js_xor w (js_sar w 19)) (js_xor t (js_sar t 8)) in
  (toUint32 w',
   {| xs_x := xs_y g; xs_y := xs_z g; xs_z := w; xs_w := w' |}).

Global Instance xorshift_source : RandomSource xorshift :=
  {| random := xorshift_next;
     random_range := fun g => Z.mod_pos_bound _ two32 eq_refl |}.

(** ** Arrays as values: [createShuffledArray] and [pickWinners] *)

(** The engines build their candidate arrays afresh with [filter] and never
    write to an array after building it, except for the shuffle, which
    writes to its own copy (see [Ref] below).  An array is therefore a
    list, passed by value. *)
Section Selection.
Context {A G : Type} `{RandomSource G}.

(** [[newArr[i], newArr[j]] = [newArr[j], newArr[i]]].  Both indices are
    within the array whenever [random] keeps its contract
    ([shuffle_index_bound]); the script would otherwise grow the array
    with holes, which a list does not represent. *)
Definition swap (newArr : list A) (i j : nat) : list A :=
  match newArr !! j, newArr !! i with
  | Some aj, Some ai => <[j := ai]> (<[i := aj]> newArr)
  | _, _ => newArr
  end.

(** [for (let i = ...; i > 0; i--)], entered with the current [i]. *)
Fixpoint shuffleLoop (i : nat) (newArr : list A) (g : G) : list A * G :=
  match i with
  | O => (newArr, g)
  | S i' =>
      let (u, g') := random g in
      let j := floor_times u (i + 1) in
      shuffleLoop i' (swap newArr i j) g'
  end.

Definition createShuffledArray (array : list A) (g : G) : list A * G :=
  shuffleLoop (length array - 1) array g.

Definition pickWinners (candidates : list A) (seats : num) (g : G)
  : list A * G :=
  if len_le (length candidates) seats then (candidates, g)
  else
    let (shuffled, g') := createShuffledArray candidates g in
    (slice0 shuffled seats, g').
End Selection.

(** ** Arrays as objects: the same two functions on a heap of arrays *)

(** Here an array is a reference into a heap, so that copying, writing in
    place and returning the argument itself are told apart. *)
Module Ref.
Section Ref.
Context {A G : Type} `{RandomSource G}.

(** The heap is the list of the arrays allocated so far; a reference is an
    index into it. *)
Local Abbreviation heap := (list (list A)).

(** [[...array]]: a new array with the same elements.  [None] stands for
    a reference that is not in the heap. *)
Definition spread (array : nat) (h : heap) : option (nat * heap) :=
  l ← h !! array; Some (length h, h ++ [l]).

Fixpoint shuffleLoop (newArr : nat) (i : nat) (g : G) (h : heap)
  : option (G * heap) :=
  match i with
  | O => Some (g, h)
  | S i' =>
      let (u, g') := random g in
      let j := floor_times u (i + 1) in
      arr ← h !! newArr;
      aj ← arr !! j;
      ai ← arr !! i;
      shuffleLoop newArr i' g' (<[newArr := <[j := ai]> (<[i := aj]> arr)]> h)
  end.

Definition createShuffledArray (array : nat) (g : G) (h : heap)
  : option (nat * G * heap) :=
  '(newArr, h1) ← spread array h;
  l ← h1 !! newArr;
  '(g', h2) ← shuffleLoop newArr (length l - 1) g h1;
  Some (newArr, g', h2).

(** [array.slice(0, end)]: a new array. *)
Definition slice (array : nat) (end_ : num) (h : heap) : option (nat * heap) :=
  l ← h !! array; Some (length h, h ++ [slice0 l end_]).

Definition pickWinners (candidates : nat) (seats : num) (g : G) (h : heap)
  : option (nat * G * heap) :=
  l ← h !! candidates;
  if len_le (length l) seats then Some (candidates, g, h)
  else
    '(shuffled, g', h1) ← createShuffledArray candidates g h;
    '(winners, h2) ← slice shuffled seats h1;
    Some (winners, g', h2).
End Ref.
End Ref.

(** ** Outcomes *)

(** A run ends normally, with a [TypeError] (a field of [undefined] is
    read), or with [process.exit(1)] after an error message. *)
Inductive exit_reason : Type :=
  | DuplicateTheaterIds (duplicates : list string)
  | DuplicatePersonIds (duplicates : list string)
  | UnknownTheaterId (personId theaterId : string)
  | ReadFailure.

Inductive abort : Type :=
  | TypeError
  | Exit (r : exit_reason).

Inductive result (A : Type) : Type :=
  | Ok (a : A)
  | Abort (e : abort).
Arguments Ok {A} a.
Arguments Abort {A} e.

Global Instance exit_reason_eq_dec : EqDecision exit_reason.
Proof. solve_decision. Defined.

Global Instance abort_eq_dec : EqDecision abort.
Proof. solve_decision. Defined.

Global Instance result_eq_dec {A : Type} `{EqDecision A} : EqDecision (result A).
Proof. solve_decision. Defined.

Definition result_bind {A B : Type} (r : result A) (k : A -> result B)
  : result B :=
  match r with
  | Ok a => k a
  | Abort e => Abort e
  end.

Notation "'let*' x ':=' r 'in' k" := (result_bind r (fun x => k))
  (at level 10, x name, r at level 100, k at level 200).

(** Reading a field of [o]: a [TypeError] when [o] is [undefined]. *)
Definition deref {A : Type} (o : option A) : result A :=
  match o with
  | Some a => Ok a
  | None => Abort TypeError
  end.

(** ** The object store *)

(** A [Set] of strings in insertion order. *)
Definition set_add (x : string) (s : list string) : list string :=
  if decide (x ∈ s) then s else s ++ [x].

Definition set_has (s : list string) (x : string) : bool := bool_decide (x ∈ s).

(** [new Set(array)] *)
Definition set_from (l : list string) : list string :=
  fold_left (fun s x => set_add x s) l [].

(** A field read from a TSV column is a string, or [undefined] when the
    row is too short: [option string]. *)
Record person : Type := Person {
  person_id : string;
  prefs : list (option string);      (* [null] is [None] *)
  person_assigned : list string
}.

Record theater : Type := Theater {
  theater_id : string;
  timeSlot : option string;
  play : option string;
  capacity : num;
  theater_assigned : list string
}.

Record Store : Type := MkStore {
  persons : list person;
  theaters : list theater
}.

(** A registration: the person, the theater, and the store it found. *)
Definition event : Type := nat * nat * Store.

(** The state of a run: the objects, the state of [random], and (for the
    statements about every point of a run) the registrations made so far,
    latest first. *)
Record machine (G : Type) : Type := Machine {
  store : Store;
  gen : G;
  trace : list event
}.
Arguments Machine {G} store gen trace.
Arguments store {G} m.
Arguments gen {G} m.
Arguments trace {G} m.

(** ** [groupByAssignedCount] *)

(** The [Map] from a win count to its bucket, in insertion order of the
    keys.  [push_group] is the body of the loop: create the bucket if the
    key is new, then push the person onto it. *)
Fixpoint push_group (count : nat) (p : nat) (groups : list (nat * list nat))
  : list (nat * list nat) :=
  match groups with
  | [] => [(count, [p])]
  | (c, bucket) :: rest =>
      if decide (c = count) then (c, bucket ++ [p]) :: rest
      else (c, bucket) :: push_group count p rest
  end.

Fixpoint groupLoop (ps : list nat) (st : Store) (groups : list (nat * list nat))
  : result (list (nat * list nat)) :=
  match ps with
  | [] => Ok groups
  | p :: rest =>
      let* P := deref (persons st !! p) in
      groupLoop rest st (push_group (length (person_assigned P)) p groups)
  end.

Definition groupByAssignedCount (ps : list nat) (st : Store)
  : result (list (nat * list nat)) :=
  groupLoop ps st [].

(** [groups.get(count)] *)
Fixpoint groups_get (groups : list (nat * list nat)) (count : nat)
  : option (list nat) :=
  match groups with
  | [] => None
  | (c, bucket) :: rest =>
      if decide (c = count) then Some bucket else groups_get rest count
  end.

(** [[...groups.keys()].sort((a, b) => a - b)]: the keys are distinct, so
    every sorting algorithm gives the same array. *)
Definition sorted_counts (groups : list (nat * list nat)) : list nat :=
  merge_sort Nat.le (map fst groups).

(** ** [hasConflict] *)

(** [theaterMap] maps a theater id to the theater object, that is, to its
    index. *)
Fixpoint hasConflictLoop (tids : list string) (T : theater)
    (theaterMap : gmap string nat) (ths : list theater) : result bool :=
  match tids with
  | [] => Ok false
  | tid :: rest =>
      let* assignedTh := deref (ai ← theaterMap !! tid; ths !! ai) in
      if bool_decide (timeSlot assignedTh = timeSlot T)
         || bool_decide (play assignedTh = play T)
      then Ok true
      else hasConflictLoop rest T theaterMap ths
  end.

Definition hasConflict (P : person) (T : theater)
    (theaterMap : gmap string nat) (ths : list theater) : result bool :=
  hasConflictLoop (person_assigned P) T theaterMap ths.

(** ** [assignWinners] *)

(** One turn of the loop of [assignWinners]:
    [theater.assigned.add(p.id); p.assigned.add(theater.id)]. *)
Definition grant (p ti : nat) (st : Store) : result Store :=
  let* P := deref (persons st !! p) in
  let* T := deref (theaters st !! ti) in
  let T' := Theater (theater_id T) (timeSlot T) (play T) (capacity T)
              (set_add (person_id P) (theater_assigned T)) in
  let P' := Person (person_id P) (prefs P)
              (set_add (theater_id T) (person_assigned P)) in
  Ok (MkStore (<[p := P']> (persons st)) (<[ti := T']> (theaters st))).

Section Engine.
Context {G : Type} `{RandomSource G}.

Fixpoint assignWinners (winners : list nat) (ti : nat) (m : machine G)
  : result (machine G) :=
  match winners with
  | [] => Ok m
  | p :: rest =>
      let* st' := grant p ti (store m) in
      assignWinners rest ti (Machine st' (gen m) ((p, ti, store m) :: trace m))
  end.

(** [array.filter(f)] for a callback that may throw. *)
Fixpoint filterR (f : nat -> result bool) (l : list nat) : result (list nat) :=
  match l with
  | [] => Ok []
  | x :: rest =>
      let* b := f x in
      let* rest' := filterR f rest in
      Ok (if b then x :: rest' else rest')
  end.

(** The loop [for (const count of counts)] that both lotteries run for a
    theater with [seats] free seats; they differ in the callback [keep] of
    their [filter]. *)
Fixpoint countsLoop (keep : Store -> nat -> nat -> result bool)
    (groups : list (nat * list nat)) (counts : list nat) (ti : nat)
    (seats : num) (m : machine G) : result (machine G) :=
  match counts with
  | [] => Ok m
  | count :: rest =>
      if num_le0 seats then Ok m
      else
        let* bucket := deref (groups_get groups count) in
        let* candidates := filterR (keep (store m) ti) bucket in
        match candidates with
        | [] => countsLoop keep groups rest ti seats m
        | _ :: _ =>
            let (winners, g') := pickWinners candidates seats (gen m) in
            let* m' := assignWinners winners ti (Machine (store m) g' (trace m)) in
            countsLoop keep groups rest ti (num_minus seats (length winners)) m'
        end
  end.

(** *** [runInitialLottery] *)

(** The callback of the [filter] at rank [rank]. *)
Definition wantsTheater (rank : nat) (theaterMap : gmap string nat)
    (st : Store) (ti p : nat) : result bool :=
  let* P := deref (persons st !! p) in
  let* T := deref (theaters st !! ti) in
  if bool_decide (prefs P !! rank = Some (Some (theater_id T))) then
    if set_has (person_assigned P) (theater_id T) then Ok false
    else
      let* c := hasConflict P T theaterMap (theaters st) in
      Ok (negb c)
  else Ok false.

(** [for (const theater of theaters)], over the indices of the theaters. *)
Fixpoint initialTheaters (rank : nat) (theaterMap : gmap string nat)
    (groups : list (nat * list nat)) (counts : list nat) (tis : list nat)
    (m : machine G) : result (machine G) :=
  match tis with
  | [] => Ok m
  | ti :: rest =>
      let* T := deref (theaters (store m) !! ti) in
      let seats := num_minus (capacity T) (length (theater_assigned T)) in
      if num_le0 seats then initialTheaters rank theaterMap groups counts rest m
      else
        let* m' := countsLoop (wantsTheater rank theaterMap) groups counts ti seats m in
        initialTheaters rank theaterMap groups counts rest m'
  end.

(** [theaters.every((theater) => theater.assigned.size >= theater.capacity)] *)
Definition allFull (st : Store) : bool :=
  forallb (fun T => len_ge (length (theater_assigned T)) (capacity T))
    (theaters st).

(** One round: the body of the loop over the ranks, after the test for
    full theaters. *)
Definition initialRound (rank : nat) (theaterMap : gmap string nat)
    (m : machine G) : result (machine G) :=
  let* groups := groupByAssignedCount (seq 0 (length (persons (store m)))) (store m) in
  let counts := sorted_counts groups in
  initialTheaters rank theaterMap groups counts
    (seq 0 (length (theaters (store m)))) m.

Fixpoint initialRanks (ranks : list nat) (theaterMap : gmap string nat)
    (m : machine G) : result (machine G) :=
  match ranks with
  | [] => Ok m
  | rank :: rest =>
      if allFull (store m) then Ok m
      else
        let* m' := initialRound rank theaterMap m in
        initialRanks rest theaterMap m'
  end.

(** The arrays [persons] and [theaters] are the store of [m]. *)
Definition runInitialLottery (theaterMap : gmap string nat) (maxOrders : nat)
    (m : machine G) : result (machine G) :=
  initialRanks (seq 0 maxOrders) theaterMap m.

(** *** [runVacancyLottery] *)

(** What reading [vacancy_candidates.txt] gives: its non-empty lines, or
    no such file, or another failure. *)
Inductive file : Type :=
  | FileLines (lines : list string)
  | FileMissing
  | FileUnreadable.

Global Instance file_eq_dec : EqDecision file.
Proof. solve_decision. Defined.

(** [readLines(filePath, isOptional)] on the outcome of the read. *)
Definition readLines (f : file) (isOptional : bool) : result (list string) :=
  match f with
  | FileLines lines => Ok lines
  | FileMissing => if isOptional then Ok [] else Abort (Exit ReadFailure)
  | FileUnreadable => Abort (Exit ReadFailure)
  end.

(** The callback of the [filter] of the vacancy lottery. *)
Definition noConflict (theaterMap : gmap string nat)
    (st : Store) (ti p : nat) : result bool :=
  let* P := deref (persons st !! p) in
  let* T := deref (theaters st !! ti) in
  let* c := hasConflict P T theaterMap (theaters st) in
  Ok (negb c).

Fixpoint vacancyTheaters (theaterMap : gmap string nat)
    (candidates : list nat) (tis : list nat) (m : machine G)
  : result (machine G) :=
  match tis with
  | [] => Ok m
  | ti :: rest =>
      let* T := deref (theaters (store m) !! ti) in
      let seats := num_minus (capacity T) (length (theater_assigned T)) in
      if num_le0 seats then vacancyTheaters theaterMap candidates rest m
      else
        let* groups := groupByAssignedCount candidates (store m) in
        let counts := sorted_counts groups in
        let* m' := countsLoop (noConflict theaterMap) groups counts ti seats m in
        vacancyTheaters theaterMap candidates rest m'
  end.

(** [persons.filter((person) => vacancyIds.has(person.id))] *)
Definition optedIn (vacancyIds : list string) (st : Store) (p : nat) : bool :=
  match persons st !! p with
  | Some P => set_has vacancyIds (person_id P)
  | None => false
  end.

Definition vacancyCandidates (vacancyIds : list string) (st : Store) : list nat :=
  filter (fun p => optedIn vacancyIds st p) (seq 0 (length (persons st))).

Definition runVacancyLottery (vacancyFile : file)
    (theaterMap : gmap string nat) (m : machine G) : result (machine G) :=
  let* lines := readLines vacancyFile true in
  let vacancyIds := set_from lines in
  if decide (length vacancyIds = 0%nat) then Ok m
  else
    let candidates := vacancyCandidates vacancyIds (store m) in
    vacancyTheaters theaterMap candidates
      (seq 0 (length (theaters (store m)))) m.

End Engine.

(** ** Validation of the input tables *)

(** A row of a TSV file as [readTSV] returns it: [split] gives at least one
    column.  [col r i] is [cols[i]], [None] for [undefined]. *)
Record row : Type := Row { col0 : string; cols_rest : list string }.

Definition col (r : row) (i : nat) : option string :=
  match i with
  | O => Some (col0 r)
  | S k => cols_rest r !! k
  end.

(** [array.indexOf(item)], for an item of the array. *)
Fixpoint indexOf (l : list string) (item : string) : nat :=
  match l with
  | [] => 0
  | x :: rest => if decide (x = item) then 0%nat else S (indexOf rest item)
  end.

(** [ids.filter((item, index) => ids.indexOf(item) !== index)] *)
Definition duplicates (ids : list string) : list string :=
  (filter (fun ix => indexOf ids ix.2 <> ix.1) (imap pair ids)).*2.

Definition loadAndValidateTheaters (theatersData : list row)
  : result (list row) :=
  let theaterIds := map col0 theatersData in
  if decide (length (set_from theaterIds) <> length theaterIds) then
    Abort (Exit (DuplicateTheaterIds (set_from (duplicates theaterIds))))
  else Ok theatersData.

(** Truthiness of a string or [undefined]. *)
Definition truthy (v : option string) : bool :=
  match v with
  | Some s => negb (bool_decide (s = EmptyString))
  | None => false
  end.

(** [theaterIdSet.has(v)] *)
Definition set_has_value (s : list string) (v : option string) : bool :=
  match v with
  | Some x => set_has s x
  | None => false
  end.

(** The guard of the check of a preference against the theater ids:
    [theaterId && theaterId === "" && !theaterIdSet.has(theaterId)]. *)
Definition unknownTheaterGuard (theaterId : option string)
    (theaterIdSet : list string) : bool :=
  truthy theaterId
  && bool_decide (theaterId = Some EmptyString)
  && negb (set_has_value theaterIdSet theaterId).

(** [for (let i = 1; i <= maxOrders; i++)] over the columns of one row. *)
Fixpoint checkColumns (order : row) (indices : list nat) (theaterIdSet : list string)
  : result unit :=
  match indices with
  | [] => Ok tt
  | i :: rest =>
      let theaterId := col order i in
      if unknownTheaterGuard theaterId theaterIdSet then
        Abort (Exit (UnknownTheaterId (col0 order) (default EmptyString theaterId)))
      else checkColumns order rest theaterIdSet
  end.

Fixpoint checkOrders (orders : list row) (maxOrders : nat)
    (theaterIdSet : list string) : result unit :=
  match orders with
  | [] => Ok tt
  | order :: rest =>
      let* _ := checkColumns order (seq 1 maxOrders) theaterIdSet in
      checkOrders rest maxOrders theaterIdSet
  end.

Definition loadAndValidateOrders (orders : list row) (maxOrders : nat)
    (theaterIdSet : list string) : result (list row) :=
  let personIds := map col0 orders in
  if decide (length (set_from personIds) <> length personIds) then
    Abort (Exit (DuplicatePersonIds (set_from (duplicates personIds))))
  else
    let* _ := checkOrders orders maxOrders theaterIdSet in
    Ok orders.

(** ** [main] *)

(** [settings.json], for values of the documented types: [maxOrders] a
    non-negative integer, [enableVacancy] a boolean (the script tests its
    truthiness), [seed] an integer, or [None] when the file has no seed. *)
Record settings : Type := Settings {
  maxOrders : nat;
  enableVacancy : bool;
  seed : option Z
}.

(** [seed || (console.log(...), defaultSeed)]: the seed given to
    [createSeededRandom], and the seed printed by [console.log], if any.
    The numbers 0 and [undefined] are falsy. *)
Definition resolveSeed (seed : option Z) (defaultSeed : Z) : Z * option Z :=
  match seed with
  | Some s => if decide (s = 0) then (defaultSeed, Some defaultSeed) else (s, None)
  | None => (defaultSeed, Some defaultSeed)
  end.

(** [cols[i + 1] || null] *)
Definition orNull (v : option string) : option string :=
  if truthy v then v else None.

Definition makePerson (maxOrders : nat) (cols : row) : person :=
  {| person_id := col0 cols;
     prefs := map (fun i => orNull (col cols (i + 1))) (seq 0 maxOrders);
     person_assigned := [] |}.

(** [new Map(theaters.map((theater) => [theater.id, theater]))]: a later
    theater replaces an earlier one with the same id. *)
Definition makeTheaterMap (ths : list theater) : gmap string nat :=
  fold_left (fun tm it => <[theater_id it.2 := it.1]> tm) (imap pair ths) ∅.

(** The two lotteries as [main] runs them. *)
Definition runLotteries {G : Type} `{RandomSource G} (cfg : settings)
    (vacancyFile : file) (theaterMap : gmap string nat) (m : machine G)
  : result (machine G) :=
  let* m1 := runInitialLottery theaterMap (maxOrders cfg) m in
  if enableVacancy cfg then runVacancyLottery vacancyFile theaterMap m1
  else Ok m1.

(** *** [writeResults] *)

(** [writeResults] turns every person, and then every theater, into a
    line, the id and the sorted wins (holders) joined with tabs, and
    sorts the lines with the callback
    [(a, b) => a[0].localeCompare(b[0])].  A line is empty when the id is
    empty and nothing is assigned.  [emptyLines rows] are the positions
    of the empty lines in the array made of the objects [rows], each
    given by its id and what is assigned to it. *)
Definition emptyLines (rows : list (string * list string)) : list nat :=
  filter (fun i => rows !! i = Some (EmptyString, [])) (seq 0 (length rows)).

Section Main.
(** [parseInt(_, 10)] on a column, a built-in of the language. *)
Variable parseInt10 : option string -> num.

(** [Array.prototype.sort] of the engine.  Which elements it compares,
    and in which order, is the engine's choice; it depends on the array
    only.  [passedFirst rows i] tells whether, when the array of the
    lines of [rows] is sorted, the line at position [i] is passed to the
    callback as its first argument [a]. *)
Variable passedFirst : list (string * list string) -> nat -> bool.

(** [lines.sort((a, b) => a[0].localeCompare(b[0]))].  For an empty line
    [a] the callback reads [localeCompare] of [undefined]; an empty
    second argument is compared as the string of [undefined] and does no
    harm. *)
Definition sortLines (rows : list (string * list string)) : result unit :=
  if existsb (passedFirst rows) (emptyLines rows) then Abort TypeError
  else Ok tt.

(** [writeResults(persons, theaters)], as far as it decides how the run
    ends.  The order of the lines written depends on the collation of
    the locale and is not part of the model; the file system is taken to
    accept the two files. *)
Definition writeResults (st : Store) : result unit :=
  let* _ := sortLines (map (fun P => (person_id P, person_assigned P))
                         (persons st)) in
  sortLines (map (fun T => (theater_id T, theater_assigned T)) (theaters st)).

Definition makeTheater (cols : row) : theater :=
  {| theater_id := col0 cols;
     timeSlot := col cols 1;
     play := col cols 2;
     capacity := parseInt10 (col cols 3);
     theater_assigned := [] |}.

(** What a run leaves behind: the seed printed on the console, if any, and
    the persons and theaters as they are when [main] returns (or the way
    the run ended before). *)
Record run : Type := Run {
  reportedSeed : option Z;
  outcome : result (machine xorshift)
}.

(** [main], from the parsed settings, the value [now] of [Date.now()], and
    the contents of the three input files. *)
Definition main (cfg : settings) (now : Z) (theatersFile ordersFile : list row)
    (vacancyFile : file) : run :=
  let defaultSeed := now in
  let (usedSeed, reported) := resolveSeed (seed cfg) defaultSeed in
  let random := createSeededRandom usedSeed in
  Run reported
    (let* theatersData := loadAndValidateTheaters theatersFile in
     let theaterIds := map col0 theatersData in
     let theaterIdSet := set_from theaterIds in
     let* orders := loadAndValidateOrders ordersFile (maxOrders cfg) theaterIdSet in
     let persons := map (makePerson (maxOrders cfg)) orders in
     let theaters := map makeTheater theatersData in
     let theaterMap := makeTheaterMap theaters in
     let* m := runLotteries cfg vacancyFile theaterMap
                 (Machine (MkStore persons theaters) random []) in
     let* _ := writeResults (store m) in
     Ok m).
End Main.

(** A [parseInt10] for the examples: a string of decimal digits is read as
    its number, everything else as [NaN].  (The built-in also accepts a
    sign, leading white space and trailing garbage.) *)
Definition digit_value (c : Ascii.ascii) : option Z :=
  let n := Z.of_N (Ascii.N_of_ascii c) in
  if (48 <=? n) && (n <=? 57) then Some (n - 48) else None.

Fixpoint digits_value (s : string) (acc : Z) : option Z :=
  match s with
  | EmptyString => Some acc
  | String c rest =>
      match digit_value c with
      | Some d => digits_value rest (10 * acc + d)
      | None => None
      end
  end.

Definition parseDigits (v : option string) : num :=
  match v with
  | Some (String c rest) =>
      match digits_value (String c rest) 0 with
      | Some z => Num z
      | None => NaN
      end
  | _ => NaN
  end.

(** * Specification vocabulary *)

(** The fields of an object that no function assigns after [main] has
    built it. *)
Definition pstatic (P : person) : string * list (option string) :=
  (person_id P, prefs P).

Definition tstatic (T : theater) : string * option string * option string * num :=
  (theater_id T, timeSlot T, play T, capacity T).

Definition same_static (s s' : Store) : Prop :=
  pstatic <$> persons s = pstatic <$> persons s'
  /\ tstatic <$> theaters s = tstatic <$> theaters s'.

(** [chain s0 tr s]: the registrations [tr] (latest first) lead from the
    store [s0] to the store [s], each one made in the store recorded with
    it. *)
Inductive chain (s0 : Store) : list event -> Store -> Prop :=
  | chain_nil : chain s0 [] s0
  | chain_cons tr s p ti s' :
      chain s0 tr s -> grant p ti s = Ok s' -> chain s0 ((p, ti, s) :: tr) s'.

(** [steps Gd m m']: from [m] to [m'] the trace grew by a chain of
    registrations that all satisfy [Gd]. *)
Definition steps {G : Type} (Gd : event -> Prop) (m m' : machine G) : Prop :=
  exists new,
    trace m' = new ++ trace m
    /\ chain (store m) new (store m')
    /\ Forall Gd new.

(** The stores a run went through: those recorded in the trace, and the
    current one. *)
Definition visited {G : Type} (m : machine G) : list Store :=
  store m :: (trace m).*2.

(** Every id in a set of wins, and the id of every theater, is a key of
    [theaterMap] that leads to a theater. *)
Definition closed (theaterMap : gmap string nat) (s : Store) : Prop :=
  (forall P tid, P ∈ persons s -> tid ∈ person_assigned P ->
     exists ai, theaterMap !! tid = Some ai /\ (ai < length (theaters s))%nat)
  /\ (forall T, T ∈ theaters s ->
     exists ai, theaterMap !! theater_id T = Some ai
                /\ (ai < length (theaters s))%nat).

(** [theaterMap] leads from the id of each theater to that very theater
    (which makes the ids distinct). *)
Definition exact (theaterMap : gmap string nat) (s : Store) : Prop :=
  forall ti T, theaters s !! ti = Some T -> theaterMap !! theater_id T = Some ti.

(** Capacity: no theater holds more persons than it has seats. *)
Definition capacity_ok (s : Store) : Prop :=
  forall T, T ∈ theaters s ->
    exists c, capacity T = Num c /\ Z.of_nat (length (theater_assigned T)) <= c.

(** Conflict: no person has won two different theaters with the same time
    slot or the same play. *)
Definition conflict_free (s : Store) : Prop :=
  forall P Ta Tb, P ∈ persons s -> Ta ∈ theaters s -> Tb ∈ theaters s ->
    theater_id Ta ∈ person_assigned P -> theater_id Tb ∈ person_assigned P ->
    theater_id Ta <> theater_id Tb ->
    timeSlot Ta <> timeSlot Tb /\ play Ta <> play Tb.

(** Consistency of the two sides of an assignment. *)
Definition consistent (s : Store) : Prop :=
  forall P T, P ∈ persons s -> T ∈ theaters s ->
    (theater_id T ∈ person_assigned P <-> person_id P ∈ theater_assigned T).

(** A theater with a free seat. *)
Definition has_room (s : Store) (ti : nat) : Prop :=
  exists T c, theaters s !! ti = Some T /\ capacity T = Num c
    /\ Z.of_nat (length (theater_assigned T)) < c.

(** What holds of every registration [(p, ti, s)] that a lottery makes: the
    person is among those the lottery draws from, the callback of its
    filter accepts the person in the store [s] of the registration itself,
    and the theater has a free seat in [s]. *)
Definition guard (keep : Store -> nat -> nat -> result bool)
    (allowed : nat -> Prop) (e : event) : Prop :=
  allowed e.1.1 /\ keep e.2 e.1.2 e.1.1 = Ok true /\ has_room e.2 e.1.2.

(** The free seats that a loop still counts for theater [ti] are free. *)
Definition seats_room (s : Store) (ti : nat) (seats : num) : Prop :=
  match seats with
  | NaN => True
  | Num z =>
      exists T c, theaters s !! ti = Some T /\ capacity T = Num c
        /\ Z.of_nat (length (theater_assigned T)) + z <= c
  end.

(** What the loops assume of the buckets of [counts]: each count has its
    bucket, which holds persons of the store, each once, all among those
    the lottery draws from. *)
Definition buckets_ok (allowed : nat -> Prop) (groups : list (nat * list nat))
    (counts : list nat) (s : Store) : Prop :=
  forall c, c ∈ counts ->
    exists b, groups_get groups c = Some b /\ NoDup b
      /\ forall p, p ∈ b -> (p < length (persons s))%nat /\ allowed p.

(** The guards of the two lotteries. *)
Definition everyone : nat -> Prop := fun _ => True.

Definition initial_guard (tm : gmap string nat) (rank : nat) : event -> Prop :=
  guard (wantsTheater rank tm) everyone.

Definition vacancy_guard (tm : gmap string nat) (candidates : list nat)
  : event -> Prop :=
  guard (noConflict tm) (fun p => p ∈ candidates).

(** What holds of every registration of either lottery: the theater has a
    free seat, and the person has no conflict with it, both in the store
    of the registration. *)
Definition lottery_guard (tm : gmap string nat) (e : event) : Prop :=
  has_room e.2 e.1.2
  /\ exists P T, persons e.2 !! e.1.1 = Some P /\ theaters e.2 !! e.1.2 = Some T
       /\ hasConflict P T tm (theaters e.2) = Ok false.

(** Nothing is removed between [s] and [s']: every person keeps their
    wins and every theater its holders. *)
Definition grows (s s' : Store) : Prop :=
  (forall p P, persons s !! p = Some P ->
     exists P', persons s' !! p = Some P'
                /\ person_assigned P ⊆ person_assigned P')
  /\ (forall ti T, theaters s !! ti = Some T ->
     exists T', theaters s' !! ti = Some T'
                /\ theater_assigned T ⊆ theater_assigned T').

(** The ids of the persons, and of the theaters, are distinct. *)
Definition unique_ids (s : Store) : Prop :=
  NoDup (person_id <$> persons s) /\ NoDup (theater_id <$> theaters s).

(** A store as [main] builds it: nobody has won anything yet. *)
Definition fresh (s : Store) : Prop :=
  Forall (fun P => person_assigned P = []) (persons s)
  /\ Forall (fun T => theater_assigned T = []) (theaters s).

(** The person of a registration does not hold the theater yet, on either
    side. *)
Definition not_holding (e : event) : Prop :=
  exists P T, persons e.2 !! e.1.1 = Some P /\ theaters e.2 !! e.1.2 = Some T
    /\ (theater_id T ∉ person_assigned P)
    /\ (person_id P ∉ theater_assigned T).

(** Person [p] and theater [ti] are registered with each other in [s]. *)
Definition registered (s : Store) (p ti : nat) : Prop :=
  exists P T, persons s !! p = Some P /\ theaters s !! ti = Some T
    /\ (theater_id T ∈ person_assigned P)
    /\ (person_id P ∈ theater_assigned T).

(** ** Scenario A of the specification *)

Definition theatersA : list row :=
  [Row "R1" ["morning"; "playX"; "1"]; Row "R2" ["afternoon"; "playY"; "1"]]%string.

Definition ordersA : list row :=
  [Row "P1" ["R1"; "R2"]; Row "P2" ["R1"; "R2"]]%string.

Definition storeA : Store :=
  MkStore (map (makePerson 2) ordersA) (map (makeTheater parseDigits) theatersA).

Definition theaterMapA : gmap string nat := makeTheaterMap (theaters storeA).

Definition machineA : machine xorshift :=
  Machine storeA (createSeededRandom 1) [].

(** ** An oversubscribed theater *)

(** Three persons who all want the one seat of the one theater, and a
    configuration with the seed 0. *)
Definition theatersC : list row :=
  [Row "R1" ["morning"; "playX"; "1"]]%string.

Definition ordersC : list row :=
  [Row "P1" ["R1"]; Row "P2" ["R1"]; Row "P3" ["R1"]]%string.

Definition settingsC : settings := Settings 1 false (Some 0).

(** The holders of each theater at the end of a run. *)
Definition final_holders (r : run) : option (list (string * list string)) :=
  match outcome r with
  | Ok m => Some (map (fun T => (theater_id T, theater_assigned T))
                    (theaters (store m)))
  | Abort _ => None
  end.

(** ** Vocabulary of the further properties *)

(** The number of wins of person [p] ([p.assigned.size]). *)
Definition win_count (st : Store) (p : nat) : nat :=
  from_option (fun P => length (person_assigned P)) 0%nat (persons st !! p).

(** The buckets after the persons [seen] have been pushed: the bucket of
    a count holds the persons with that count, in the order of [seen], and
    there is no empty bucket. *)
Definition buckets_of (st : Store) (seen : list nat)
    (groups : list (nat * list nat)) : Prop :=
  NoDup groups.*1
  /\ forall c,
       groups_get groups c
       = match filter (fun p => win_count st p = c) seen with
         | [] => None
         | b => Some b
         end.

(** A store in good order for [theaterMap]: the wins and the theater ids
    are keys of the map, the map leads from an id to its theater, the ids
    are distinct, and wins and holders agree. *)
Definition wf (tm : gmap string nat) (s : Store) : Prop :=
  closed tm s /\ exact tm s /\ unique_ids s /\ consistent s.

(** Every capacity is a number. *)
Definition capacities_known (s : Store) : Prop :=
  forall T, T ∈ theaters s -> capacity T <> NaN.

(** Theater [ti] is full: [theater.assigned.size >= theater.capacity]. *)
Definition full (s : Store) (ti : nat) : Prop :=
  exists T, theaters s !! ti = Some T
    /\ len_ge (length (theater_assigned T)) (capacity T) = true.

(** The free seats that a loop counts for theater [ti] are all its free
    seats. *)
Definition seats_exact (s : Store) (ti : nat) (seats : num) : Prop :=
  exists T c z, theaters s !! ti = Some T /\ capacity T = Num c
    /\ seats = Num z /\ Z.of_nat (length (theater_assigned T)) + z = c.

(** What the loops need of a callback to serve everybody they can: a
    rejection stays a rejection after any registration; a person who has
    just been registered with the theater is rejected from then on; and
    the callback accepts only persons who do not hold the theater. *)
Record keep_served (tm : gmap string nat)
    (keep : Store -> nat -> nat -> result bool) : Prop := {
  served_mono s s' ti p q tj :
    closed tm s -> keep s ti p = Ok false -> grant q tj s = Ok s' ->
    keep s' ti p = Ok false;
  served_after s s' ti p :
    wf tm s -> keep s ti p = Ok true -> grant p ti s = Ok s' ->
    keep s' ti p = Ok false;
  served_new s ti p :
    wf tm s -> keep s ti p = Ok true -> not_holding (p, ti, s)
}.

(** The outcome of a lottery for theater [ti] and the persons [ps]: the
    theater is full, or the callback of the filter rejects them all. *)
Definition done_with (keep : Store -> nat -> nat -> result bool)
    (ps : list nat) (s : Store) (ti : nat) : Prop :=
  full s ti \/ forall p, p ∈ ps -> keep s ti p = Ok false.

(** The numerators of the first [n] numbers that a source returns. *)
Fixpoint draws {G : Type} `{RandomSource G} (n : nat) (g : G) : list Z :=
  match n with
  | O => []
  | S n' => let (u, g') := random g in u :: draws n' g'
  end.

(** The state of a source after [n] calls. *)
Fixpoint after_draws {G : Type} `{RandomSource G} (n : nat) (g : G) : G :=
  match n with
  | O => g
  | S n' => after_draws n' (random g).2
  end.

(** Two states of the generator with the same 32-bit integers. *)
Definition same_int32 (g g' : xorshift) : Prop :=
  toInt32 (xs_x g) = toInt32 (xs_x g') /\ toInt32 (xs_y g) = toInt32 (xs_y g')
  /\ toInt32 (xs_z g) = toInt32 (xs_z g') /\ toInt32 (xs_w g) = toInt32 (xs_w g').

(** ** A store with unequal wins *)

(** P1 holds R2 already, P2 holds nothing; R1 has two free seats. *)
Definition storeP : Store :=
  MkStore
    [Person "P1" [] ["R2"]; Person "P2" [] []]%string
    [Theater "R1" (Some "morning") (Some "playX") (Num 2) [];
     Theater "R2" (Some "afternoon") (Some "playY") (Num 1) ["P1"]]%string.

Definition machineP : machine xorshift :=
  Machine storeP (createSeededRandom 1) [].

(** The loop over the counts of the vacancy lottery for R1 in that store. *)
Definition machineP_after : machine xorshift :=
  Eval vm_compute in
    match countsLoop (noConflict (makeTheaterMap (theaters storeP)))
            [(1, [0]); (0, [1])]%nat [0; 1]%nat 0 (Num 2) machineP with
    | Ok m => m
    | Abort _ => machineP
    end.

(** ** The text of the input files *)

(** [readTSV] and [readLines] take the content of a file apart with
    [trim], [split] and [filter(Boolean)]; [writeResults] puts its lines
    together with [join].  A text is the list of its UTF-16 code units.
    (The identifiers of the engine above are the cells that these
    functions produce, kept there as opaque names.) *)
Definition TAB : Z := 9.
Definition LF : Z := 10.
Definition CR : Z := 13.

(** The code units that [trim] removes: the white space and the line
    terminators of the language (all within the basic plane). *)
Definition is_white_space (c : Z) : bool :=
  bool_decide (c ∈ [9; 10; 11; 12; 13; 32; 160; 5760;
                    8192; 8193; 8194; 8195; 8196; 8197; 8198; 8199; 8200;
                    8201; 8202; 8232; 8233; 8239; 8287; 12288; 65279]).

Fixpoint trimStart (s : list Z) : list Z :=
  match s with
  | [] => []
  | c :: rest => if is_white_space c then trimStart rest else s
  end.

Definition trimEnd (s : list Z) : list Z := reverse (trimStart (reverse s)).

(** [content.trim()] *)
Definition trim (s : list Z) : list Z := trimEnd (trimStart s).

(** Puts a code unit in front of the first piece of a split. *)
Definition add_char (c : Z) (pieces : list (list Z)) : list (list Z) :=
  match pieces with
  | [] => [[c]]
  | piece :: rest => (c :: piece) :: rest
  end.

(** [s.split(/\r\n|\n/)]: the text is cut at every line feed and at every
    carriage return that a line feed follows; the empty text gives one
    empty piece. *)
Fixpoint split_lines (s : list Z) : list (list Z) :=
  match s with
  | [] => [[]]
  | c :: rest =>
      if decide (c = LF) then [] :: split_lines rest
      else
        match rest with
        | c' :: rest' =>
            if decide (c = CR /\ c' = LF) then [] :: split_lines rest'
            else add_char c (split_lines rest)
        | [] => add_char c (split_lines rest)
        end
  end.

(** [s.split(sep)] for a separator of one code unit. *)
Fixpoint split (sep : Z) (s : list Z) : list (list Z) :=
  match s with
  | [] => [[]]
  | c :: rest =>
      if decide (c = sep) then [] :: split sep rest
      else add_char c (split sep rest)
  end.

(** [array.join(sep)] *)
Fixpoint join (sep : list Z) (pieces : list (list Z)) : list Z :=
  match pieces with
  | [] => []
  | piece :: rest =>
      match rest with
      | [] => piece
      | _ :: _ => piece ++ sep ++ join sep rest
      end
  end.

(** The lines that [readLines] returns for the content of a file that
    could be read: [content.trim().split(/\r\n|\n/).filter(Boolean)]. *)
Definition contentLines (content : list Z) : list (list Z) :=
  filter (fun line => line <> []) (split_lines (trim content)).

(** [readTSV] on the content of a file that could be read. *)
Definition readTSV (content : list Z) : list (list (list Z)) :=
  map (split TAB) (contentLines content).

(** ** Runs with two generators *)

(** [R] relates states of two sources that return the same numbers from
    then on: related states give the same number and related states. *)
Definition simulation {G1 G2 : Type} `{RandomSource G1} `{RandomSource G2}
    (R : G1 -> G2 -> Prop) : Prop :=
  forall g1 g2, R g1 g2 ->
    (random g1).1 = (random g2).1 /\ R (random g1).2 (random g2).2.

(** Two machines, and two runs, that differ in the state of the generator
    at most. *)
Definition same_machine {G1 G2 : Type} (R : G1 -> G2 -> Prop)
    (m1 : machine G1) (m2 : machine G2) : Prop :=
  store m1 = store m2 /\ trace m1 = trace m2 /\ R (gen m1) (gen m2).

Definition same_run {G1 G2 : Type} (R : G1 -> G2 -> Prop)
    (r1 : result (machine G1)) (r2 : result (machine G2)) : Prop :=
  match r1, r2 with
  | Ok m1, Ok m2 => same_machine R m1 m2
  | Abort e1, Abort e2 => e1 = e2
  | _, _ => False
  end.

(** The number of wins of all persons, and of holders of all theaters. *)
Definition total_wins (s : Store) : nat :=
  sum_list ((fun P => length (person_assigned P)) <$> persons s).

Definition total_holders (s : Store) : nat :=
  sum_list ((fun T => length (theater_assigned T)) <$> theaters s).

(** Person [P] holds a theater with the time slot or the play of [T]. *)
Definition clashes (s : Store) (P : person) (T : theater) : Prop :=
  exists Ta, Ta ∈ theaters s /\ theater_id Ta ∈ person_assigned P
    /\ (timeSlot Ta = timeSlot T \/ play Ta = play T).

(** Every win is the id of a theater. *)
Definition wins_are_ids (s : Store) : Prop :=
  forall P tid, P ∈ persons s -> tid ∈ person_assigned P ->
    exists T, T ∈ theaters s /\ theater_id T = tid.

(** ** The shuffle of the specification *)

(** The list [l] with the elements at the positions [i] and [j]
    exchanged. *)
Definition exchange {A : Type} (l : list A) (i j : nat) : list A :=
  imap (fun k x =>
          if decide (k = i) then default x (l !! j)
          else if decide (k = j) then default x (l !! i)
          else x) l.

(** Fisher-Yates on the numbers [us] that the source returns, as
    numerators over 2^32: for [i] from the last position down to 1, the
    element at [i] is exchanged with the element at
    [j = floor (u / 2^32 * (i + 1))], in exact arithmetic. *)
Fixpoint fisherYates {A : Type} (i : nat) (l : list A) (us : list Z) : list A :=
  match i, us with
  | S i', u :: us' =>
      fisherYates i' (exchange l i (Z.to_nat (u * (Z.of_nat i + 1) / 4294967296))) us'
  | _, _ => l
  end.

(** ** Scenarios with conflicts, vacancies and theaters without seats *)

(** Scenario D: R1 and R3 share the time slot.  P1 wins R1 in the first
    round, is refused R3 in the second, where R3 still has a seat,
    because of R1, and wins R2 in the third; P2 likewise with R3 and
    R1. *)
Definition theatersD : list row :=
  [Row "R1" ["morning"; "playX"; "2"]; Row "R2" ["afternoon"; "playY"; "2"];
   Row "R3" ["morning"; "playZ"; "2"]]%string.

Definition ordersD : list row :=
  [Row "P1" ["R1"; "R3"; "R2"]; Row "P2" ["R3"; "R1"; "R2"]]%string.

Definition machineD : machine xorshift :=
  Machine (MkStore (map (makePerson 3) ordersD) (map (makeTheater parseDigits) theatersD))
    (createSeededRandom 1) [].

(** Scenario V: after the initial lottery each theater has one seat
    left; in the vacancy lottery P2 wins R1 and P1 wins R2, and each
    holder is refused the theater already held. *)
Definition theatersV : list row :=
  [Row "R1" ["morning"; "playX"; "2"]; Row "R2" ["afternoon"; "playY"; "2"]]%string.

Definition ordersV : list row := [Row "P1" ["R1"]; Row "P2" ["R2"]]%string.

Definition machineV : machine xorshift :=
  Machine (MkStore (map (makePerson 1) ordersV) (map (makeTheater parseDigits) theatersV))
    (createSeededRandom 1) [].

(** Scenario N: the row of R1 has no capacity column, which [parseInt]
    reads as [NaN]; R2 has the capacity 0; R3 has one seat. *)
Definition theatersN : list row :=
  [Row "R1" ["morning"; "playX"]; Row "R2" ["afternoon"; "playY"; "0"];
   Row "R3" ["evening"; "playZ"; "1"]]%string.

Definition ordersN : list row :=
  [Row "P1" ["R1"; "R2"; "R3"]; Row "P2" ["R3"; "R1"; "R2"]]%string.

Definition machineN : machine xorshift :=
  Machine (MkStore (map (makePerson 3) ordersN) (map (makeTheater parseDigits) theatersN))
    (createSeededRandom 1) [].

(** * Properties *)

(** ** Selection *)

Section SelectionFacts.
Context {A G : Type} `{RandomSource G}.
Implicit Types (l : list A) (g : G).

Lemma round53_small (x : Z) : x < 2 ^ 53 -> round53 x = x.
Proof. intros Hx. unfold round53. by destruct (Z.ltb_spec x (2 ^ 53)); [|lia]. Qed.

(** Rounding moves an integer by at most half a unit of its last place. *)
Lemma round53_near (x : Z) :
  2 ^ 53 <= x ->
  let e := Z.log2 x - 52 in
  1 <= e /\ 2 ^ (52 + e) <= x
  /\ x - 2 ^ (e - 1) <= round53 x <= x + 2 ^ (e - 1).
Proof.
  intros Hx e. unfold round53. destruct (Z.ltb_spec x (2 ^ 53)); [lia|].
  fold e.
  assert (53 <= Z.log2 x) as Hlog by (apply Z.log2_le_pow2; lia).
  destruct (Z.log2_spec x ltac:(lia)) as [Hlo _].
  assert (1 <= e) as He by (unfold e; lia).
  replace (52 + e) with (Z.log2 x) by (unfold e; lia).
  split; [done|]. split; [done|].
  assert (0 < 2 ^ (e - 1)) as Hhalf by (apply Z.pow_pos_nonneg; lia).
  assert (2 ^ e = 2 * 2 ^ (e - 1)) as Hpow.
  { replace e with (Z.succ (e - 1)) at 1 by lia. apply Z.pow_succ_r. lia. }
  pose proof (Z.div_mod x (2 ^ e) ltac:(lia)) as Hdm.
  pose proof (Z.mod_pos_bound x (2 ^ e) ltac:(lia)) as Hr.
  destruct (Z.ltb_spec (x mod 2 ^ e) (2 ^ (e - 1))); simpl; [lia|].
  destruct (Z.eqb_spec (x mod 2 ^ e) (2 ^ (e - 1))); simpl;
    [destruct (Z.even (x / 2 ^ e))|]; lia.
Qed.

Lemma round53_nonneg (x : Z) : 0 <= x -> 0 <= round53 x.
Proof.
  intros Hx. destruct (Z.lt_ge_cases x (2 ^ 53)) as [?|Hge];
    [by rewrite round53_small|].
  pose proof (round53_near x Hge) as (He & Hlo & Hnear & _).
  assert (2 ^ (Z.log2 x - 52 - 1) <= 2 ^ (52 + (Z.log2 x - 52)))
    by (apply Z.pow_le_mono_r; lia).
  lia.
Qed.

(** The index stays below [n], also where the product is rounded. *)
Lemma floor_times_bound (u : Z) (n : nat) :
  0 <= u < two32 -> (0 < n)%nat -> (floor_times u n < n)%nat.
Proof.
  intros Hu Hn. unfold floor_times.
  set (x := u * Z.of_nat n).
  assert (0 <= x <= two32 * Z.of_nat n - Z.of_nat n) as Hx by (unfold x; nia).
  assert (0 <= round53 x < two32 * Z.of_nat n) as Hr.
  { split; [apply round53_nonneg; lia|].
    destruct (Z.lt_ge_cases x (2 ^ 53)) as [?|Hge];
      [rewrite round53_small by done; lia|].
    pose proof (round53_near x Hge) as (He & Hlo & _ & Hup).
    set (e := Z.log2 x - 52) in *.
    assert (2 ^ (52 + e) = 2 ^ 32 * (2 ^ 21 * 2 ^ (e - 1))) as Hsplit.
    { rewrite <- !Z.pow_add_r by lia. f_equal. lia. }
    assert (0 < 2 ^ (e - 1)) by (apply Z.pow_pos_nonneg; lia).
    change two32 with (2 ^ 32) in *.
    assert (2 ^ 21 * 2 ^ (e - 1) < Z.of_nat n) by nia.
    nia. }
  assert (0 <= round53 x / two32 < Z.of_nat n); [|lia].
  split.
  - apply Z.div_pos; [lia | reflexivity].
  - apply Z.div_lt_upper_bound; [reflexivity | lia].
Qed.

(** Without rounding the index is the integer quotient. *)
Lemma floor_times_exact (u : Z) (n : nat) :
  u * Z.of_nat n < 2 ^ 53 ->
  floor_times u n = Z.to_nat (u * Z.of_nat n / two32).
Proof. intros Hx. unfold floor_times. by rewrite round53_small. Qed.

(** The index drawn at step [i] of the shuffle lies in [0 .. i]. *)
Lemma shuffle_index_bound g (i : nat) :
  (floor_times (random g).1 (i + 1) <= i)%nat.
Proof.
  pose proof (floor_times_bound (random g).1 (i + 1) (random_range g)). lia.
Qed.

Lemma insert_cons_perm l (j : nat) (a b : A) :
  l !! j = Some b -> b :: <[j := a]> l ≡ₚ a :: l.
Proof.
  revert j; induction l as [|x l IH]; intros [|j] Hj; simplify_eq/=.
  - apply perm_swap.
  - rewrite perm_swap, (IH _ Hj). apply perm_swap.
Qed.

Lemma swap_perm l (i j : nat) : swap l i j ≡ₚ l.
Proof.
  unfold swap.
  destruct (l !! j) as [aj|] eqn:Hj; [|done].
  destruct (l !! i) as [ai|] eqn:Hi; [|done].
  destruct (decide (i = j)) as [->|Hne].
  - simplify_eq. by rewrite list_insert_insert_eq, list_insert_id by done.
  - apply (inj (cons aj)).
    rewrite insert_cons_perm by (by rewrite list_lookup_insert_ne).
    by rewrite insert_cons_perm.
Qed.

Lemma swap_length l (i j : nat) : length (swap l i j) = length l.
Proof. apply Permutation_length, swap_perm. Qed.

Lemma shuffleLoop_perm (i : nat) l g : (shuffleLoop i l g).1 ≡ₚ l.
Proof.
  revert l g; induction i as [|i IH]; intros l g; simpl; [done|].
  destruct (random g) as [u g']. by rewrite IH, swap_perm.
Qed.

Lemma createShuffledArray_perm l g : (createShuffledArray l g).1 ≡ₚ l.
Proof. apply shuffleLoop_perm. Qed.

Lemma slice0_prefix l (e : num) : exists rest, l = slice0 l e ++ rest.
Proof.
  destruct e as [|z]; simpl; [by exists l|].
  destruct (z <? 0); eexists; symmetry; apply take_drop.
Qed.

(** The winners are drawn from the candidates, without repetition. *)
Lemma pickWinners_perm l (seats : num) g :
  exists rest, (pickWinners l seats g).1 ++ rest ≡ₚ l.
Proof.
  unfold pickWinners. destruct (len_le _ _); simpl.
  - exists []. by rewrite app_nil_r.
  - pose proof (createShuffledArray_perm l g) as Hp.
    destruct (createShuffledArray l g) as [sh g']; simpl in *.
    destruct (slice0_prefix sh seats) as [rest Hr].
    exists rest. by rewrite <- Hr.
Qed.

Lemma pickWinners_elem_of l (seats : num) g (x : A) :
  x ∈ (pickWinners l seats g).1 -> x ∈ l.
Proof.
  destruct (pickWinners_perm l seats g) as [rest Hp].
  generalize dependent (pickWinners l seats g).1. intros w Hp Hx.
  rewrite <- Hp. apply elem_of_app. by left.
Qed.

Lemma pickWinners_NoDup l (seats : num) g :
  NoDup l -> NoDup (pickWinners l seats g).1.
Proof.
  destruct (pickWinners_perm l seats g) as [rest Hp].
  generalize dependent (pickWinners l seats g).1. intros w Hp Hn.
  rewrite <- Hp in Hn. by apply NoDup_app in Hn as [? _].
Qed.

(** Never more winners than seats. *)
Lemma pickWinners_length l (seats : num) g :
  match seats with
  | NaN => (pickWinners l seats g).1 = []
  | Num z => 0 <= z -> Z.of_nat (length (pickWinners l seats g).1) <= z
  end.
Proof.
  unfold pickWinners. destruct seats as [|z]; simpl.
  - by destruct (createShuffledArray l g).
  - intros Hz. destruct (Z.leb_spec (Z.of_nat (length l)) z); simpl; [done|].
    destruct (createShuffledArray l g) as [sh g']; simpl.
    destruct (Z.ltb_spec z 0); [lia|]. rewrite length_take. lia.
Qed.

(** The shuffle on the heap writes to the new array only, and computes
    what the shuffle on values computes. *)
Lemma Ref_shuffleLoop_spec (r : nat) (i : nat) g (h : list (list A)) arr :
  h !! r = Some arr -> (i < length arr)%nat ->
  Ref.shuffleLoop r i g h
  = Some ((shuffleLoop i arr g).2, <[r := (shuffleLoop i arr g).1]> h).
Proof.
  revert g h arr; induction i as [|i IH]; intros g h arr Hr Hi; simpl.
  - by rewrite list_insert_id.
  - pose proof (shuffle_index_bound g (S i)) as Hj.
    destruct (random g) as [u g']; simpl in Hj |- *.
    rewrite Hr; simpl.
    destruct (lookup_lt_is_Some_2 arr (floor_times u (S (i + 1)))) as [aj Haj]; [lia|].
    destruct (lookup_lt_is_Some_2 arr (S i)) as [ai Hai]; [lia|].
    rewrite Haj, Hai; simpl.
    rewrite (IH g' _ (swap arr (S i) (floor_times u (S (i + 1))))).
    + unfold swap. rewrite Haj, Hai. by rewrite list_insert_insert_eq.
    + unfold swap. rewrite Haj, Hai. apply list_lookup_insert_eq.
      by apply lookup_lt_Some in Hr.
    + rewrite swap_length. lia.
Qed.

Lemma Ref_createShuffledArray_spec (array : nat) g (h : list (list A)) l :
  h !! array = Some l ->
  Ref.createShuffledArray array g h
  = Some (length h, (createShuffledArray l g).2,
          h ++ [(createShuffledArray l g).1]).
Proof.
  intros Hl. unfold Ref.createShuffledArray, Ref.spread. rewrite Hl; simpl.
  rewrite lookup_app_r, Nat.sub_diag by lia; simpl.
  destruct l as [|a l]; [done|].
  rewrite (Ref_shuffleLoop_spec _ _ _ _ (a :: l)); simpl.
  - rewrite insert_app_r_alt, Nat.sub_diag by lia. done.
  - rewrite lookup_app_r, Nat.sub_diag by lia. done.
  - lia.
Qed.
End SelectionFacts.

(** ** Results *)

Lemma bind_Ok {A B : Type} (r : result A) (k : A -> result B) (b : B) :
  result_bind r k = Ok b <-> exists a, r = Ok a /\ k a = Ok b.
Proof.
  destruct r as [a|e]; simpl; split.
  - eauto.
  - by intros (? & [= <-] & ?).
  - done.
  - by intros (? & ? & ?).
Qed.

Global Instance Ok_inj {A : Type} : Inj (=) (=) (@Ok A).
Proof. by intros a b [= ->]. Qed.

Lemma deref_Ok {A : Type} (o : option A) (a : A) : deref o = Ok a <-> o = Some a.
Proof. destruct o; simpl; split; congruence. Qed.

(** Takes a hypothesis [_ = Ok _] about a sequence of binds apart. *)
Ltac inv_ok H :=
  repeat match type of H with
  | result_bind _ _ = Ok _ =>
      let a := fresh "a" in let Ha := fresh "Ha" in
      apply bind_Ok in H as (a & Ha & H);
      try (apply deref_Ok in Ha)
  | Ok _ = Ok _ => apply (inj Ok) in H
  end.

(** ** Sets *)

Lemma set_add_elem_of (x y : string) (s : list string) :
  y ∈ set_add x s <-> y = x \/ y ∈ s.
Proof.
  unfold set_add. destruct (decide (x ∈ s)).
  - split; [auto|]. by intros [->|?].
  - rewrite elem_of_app, list_elem_of_singleton. tauto.
Qed.

Lemma set_add_length (x : string) (s : list string) :
  (length (set_add x s) <= S (length s))%nat.
Proof.
  unfold set_add. destruct (decide (x ∈ s)); [lia|].
  rewrite length_app; simpl; lia.
Qed.

Lemma set_add_new (x : string) (s : list string) :
  x ∉ s -> set_add x s = s ++ [x].
Proof. unfold set_add. by destruct (decide (x ∈ s)). Qed.

(** ** Registrations *)

Lemma grant_Ok (p ti : nat) (s s' : Store) :
  grant p ti s = Ok s' <->
  exists P T,
    persons s !! p = Some P /\ theaters s !! ti = Some T
    /\ s' = MkStore
         (<[p := Person (person_id P) (prefs P)
                   (set_add (theater_id T) (person_assigned P))]> (persons s))
         (<[ti := Theater (theater_id T) (timeSlot T) (play T) (capacity T)
                    (set_add (person_id P) (theater_assigned T))]> (theaters s)).
Proof.
  unfold grant. split.
  - intros Hg. inv_ok Hg. eauto.
  - intros (P & T & -> & -> & ->). done.
Qed.

Lemma grant_total (p ti : nat) (s : Store) :
  (p < length (persons s))%nat -> (ti < length (theaters s))%nat ->
  exists s', grant p ti s = Ok s'.
Proof.
  intros [P HP]%lookup_lt_is_Some_2 [T HT]%lookup_lt_is_Some_2.
  eexists. apply grant_Ok. eauto.
Qed.

Lemma map_insert_static {A B : Type} (f : A -> B) (l : list A) (i : nat) (x y : A) :
  l !! i = Some x -> f y = f x -> f <$> <[i := y]> l = f <$> l.
Proof.
  intros Hi Hf. rewrite list_fmap_insert, Hf.
  apply list_insert_id. by rewrite list_lookup_fmap, Hi.
Qed.

Lemma grant_static (p ti : nat) (s s' : Store) :
  grant p ti s = Ok s' -> same_static s s'.
Proof.
  intros (P & T & HP & HT & ->)%grant_Ok. split; simpl; symmetry.
  - by apply (map_insert_static _ _ _ P).
  - by apply (map_insert_static _ _ _ T).
Qed.

Global Instance same_static_equiv : Equivalence same_static.
Proof.
  split.
  - by split.
  - by intros s s' [??].
  - intros s1 s2 s3 [??] [??]. split; congruence.
Qed.

Lemma same_static_persons_length (s s' : Store) :
  same_static s s' -> length (persons s') = length (persons s).
Proof. intros [Hp _]. by rewrite <- (length_fmap pstatic), <- Hp, length_fmap. Qed.

Lemma same_static_theaters_length (s s' : Store) :
  same_static s s' -> length (theaters s') = length (theaters s).
Proof. intros [_ Ht]. by rewrite <- (length_fmap tstatic), <- Ht, length_fmap. Qed.

Lemma same_static_person (s s' : Store) (p : nat) (P : person) :
  same_static s s' -> persons s !! p = Some P ->
  exists P', persons s' !! p = Some P' /\ pstatic P' = pstatic P.
Proof.
  intros [Hp _] HP.
  assert (pstatic <$> persons s' !! p = Some (pstatic P)) as HP'
    by (by rewrite <- list_lookup_fmap, <- Hp, list_lookup_fmap, HP).
  destruct (persons s' !! p) as [P'|]; [|done].
  exists P'. split; [done|]. simpl in HP'. congruence.
Qed.

Lemma same_static_theater (s s' : Store) (ti : nat) (T : theater) :
  same_static s s' -> theaters s !! ti = Some T ->
  exists T', theaters s' !! ti = Some T' /\ tstatic T' = tstatic T.
Proof.
  intros [_ Ht] HT.
  assert (tstatic <$> theaters s' !! ti = Some (tstatic T)) as HT'
    by (by rewrite <- list_lookup_fmap, <- Ht, list_lookup_fmap, HT).
  destruct (theaters s' !! ti) as [T'|]; [|done].
  exists T'. split; [done|]. simpl in HT'. congruence.
Qed.

Lemma grant_person_other (p q ti : nat) (s s' : Store) :
  grant q ti s = Ok s' -> p <> q -> persons s' !! p = persons s !! p.
Proof.
  intros (P & T & HP & HT & ->)%grant_Ok Hne; simpl.
  by apply list_lookup_insert_ne.
Qed.

(** ** Chains of registrations *)

Lemma chain_app (s0 s1 s2 : Store) (a b : list event) :
  chain s0 a s1 -> chain s1 b s2 -> chain s0 (b ++ a) s2.
Proof.
  intros Ha Hb. induction Hb; simpl; [done|].
  econstructor; eauto.
Qed.

Lemma chain_static (s0 s : Store) (tr : list event) :
  chain s0 tr s -> same_static s0 s.
Proof.
  induction 1 as [|tr s p ti s' _ IH Hg]; [done|].
  etrans; [exact IH|]. by eapply grant_static.
Qed.

(** An invariant of the registrations that satisfy [Gd] holds in every
    store of a chain of such registrations. *)
Lemma chain_invariant (Gd : event -> Prop) (I : Store -> Prop)
    (s0 s : Store) (tr : list event) :
  (forall p ti s1 s2, I s1 -> Gd (p, ti, s1) -> grant p ti s1 = Ok s2 -> I s2) ->
  chain s0 tr s -> Forall Gd tr -> I s0 ->
  I s /\ Forall I tr.*2.
Proof.
  intros Hstep Hc. induction Hc as [|tr s p ti s' _ IH Hg]; intros HG HI.
  - by split.
  - apply Forall_cons in HG as [Hgd HG].
    destruct (IH HG HI) as [Hs Htr]. split.
    + by eapply Hstep.
    + simpl. by constructor.
Qed.

Lemma chain_person_other (s0 s : Store) (tr : list event) (p : nat) :
  chain s0 tr s -> p ∉ tr.*1.*1 -> persons s !! p = persons s0 !! p.
Proof.
  induction 1 as [|tr s q ti s' _ IH Hg]; [done|].
  simpl. intros [Hne Hp]%not_elem_of_cons.
  rewrite <- IH by done. by eapply grant_person_other.
Qed.

(** The number of holders grows by at most one with each registration. *)
Lemma chain_holders_length (s0 s : Store) (tr : list event) (ti : nat) (T0 : theater) :
  chain s0 tr s -> theaters s0 !! ti = Some T0 ->
  exists T, theaters s !! ti = Some T /\ tstatic T = tstatic T0
    /\ (length (theater_assigned T)
        <= length (theater_assigned T0) + length tr)%nat.
Proof.
  intros Hc HT0. induction Hc as [|tr s p tj s' _ IH Hg].
  - exists T0. split_and!; [done..|lia].
  - destruct IH as (T & HT & Hst & Hlen).
    apply grant_Ok in Hg as (P & Tj & HP & HTj & ->); simpl.
    destruct (decide (ti = tj)) as [->|Hne].
    + assert (Tj = T) as -> by congruence.
      eexists. split; [apply list_lookup_insert_eq; by eapply lookup_lt_Some|].
      split; [done|]. simpl.
      pose proof (set_add_length (person_id P) (theater_assigned T)). lia.
    + exists T. rewrite list_lookup_insert_ne by done. split_and!; [done..|lia].
Qed.

Lemma elem_of_insert_inv {A : Type} (l : list A) (i : nat) (x y : A) :
  x ∈ <[i := y]> l -> x = y \/ x ∈ l.
Proof.
  intros (j & Hj)%list_elem_of_lookup.
  destruct (decide (i = j)) as [->|Hne].
  - destruct (decide (j < length l)%nat).
    + rewrite list_lookup_insert_eq in Hj by done. left. congruence.
    + rewrite list_insert_ge in Hj by lia. right. by eapply list_elem_of_lookup_2.
  - rewrite list_lookup_insert_ne in Hj by done.
    right. by eapply list_elem_of_lookup_2.
Qed.

Lemma grant_closed (tm : gmap string nat) (p ti : nat) (s s' : Store) :
  closed tm s -> grant p ti s = Ok s' -> closed tm s'.
Proof.
  intros [Hw Ht] Hg.
  pose proof (same_static_theaters_length _ _ (grant_static _ _ _ _ Hg)) as Hlen.
  apply grant_Ok in Hg as (P & T & HP & HT & ->); simpl in *.
  apply list_elem_of_lookup_2 in HP, HT.
  split; simpl; rewrite Hlen.
  - intros P' tid [->|HP']%elem_of_insert_inv; simpl; [|by eauto].
    intros [->|Htid]%set_add_elem_of; eauto.
  - intros T' [->|HT']%elem_of_insert_inv; simpl; eauto.
Qed.

Lemma chain_closed (tm : gmap string nat) (s0 s : Store) (tr : list event) :
  closed tm s0 -> chain s0 tr s -> closed tm s.
Proof.
  intros Hc. induction 1; [done|]. eapply grant_closed; eauto.
Qed.

(** ** [hasConflict] *)

Lemma tstatic_eq (T T' : theater) :
  tstatic T = tstatic T' ->
  theater_id T = theater_id T' /\ timeSlot T = timeSlot T'
  /\ play T = play T' /\ capacity T = capacity T'.
Proof. by intros [= -> -> -> ->]. Qed.

Lemma hasConflictLoop_total (tids : list string) (T : theater)
    (tm : gmap string nat) (ths : list theater) :
  (forall tid, tid ∈ tids ->
     exists ai, tm !! tid = Some ai /\ (ai < length ths)%nat) ->
  exists b, hasConflictLoop tids T tm ths = Ok b.
Proof.
  induction tids as [|tid tids IH]; intros Hk; simpl; [by eexists|].
  destruct (Hk tid) as (ai & -> & [Ta HTa]%lookup_lt_is_Some_2);
    [by left|]; simpl.
  rewrite HTa; simpl.
  destruct (_ || _); [by eexists|].
  apply IH. intros ? ?. apply Hk. by right.
Qed.

(** No conflict: every theater already won differs from [T] in time slot
    and in play. *)
Lemma hasConflictLoop_false (tids : list string) (T : theater)
    (tm : gmap string nat) (ths : list theater) :
  hasConflictLoop tids T tm ths = Ok false <->
  forall tid, tid ∈ tids ->
    exists ai Ta, tm !! tid = Some ai /\ ths !! ai = Some Ta
      /\ timeSlot Ta <> timeSlot T /\ play Ta <> play T.
Proof.
  induction tids as [|tid tids IH]; simpl.
  - split; [|done]. intros _ ? []%elem_of_nil.
  - split.
    + intros Hc. inv_ok Hc.
      destruct (tm !! tid) as [ai|] eqn:Hai; [|done]. simpl in Ha.
      destruct (bool_decide (timeSlot a = timeSlot T)) eqn:E1; [done|].
      destruct (bool_decide (play a = play T)) eqn:E2; [done|].
      apply bool_decide_eq_false in E1, E2. simpl in Hc.
      intros tid' [->|Hin]%elem_of_cons.
      * exists ai, a. by rewrite Hai.
      * by apply IH.
    + intros Hall.
      destruct (Hall tid) as (ai & Ta & -> & HTa & H1 & H2); [by left|].
      simpl. rewrite HTa. simpl.
      rewrite !bool_decide_eq_false_2 by done. simpl.
      apply IH. intros ? ?. apply Hall. by right.
Qed.

Lemma hasConflictLoop_static (tids : list string) (T T' : theater)
    (tm : gmap string nat) (ths ths' : list theater) :
  tstatic <$> ths = tstatic <$> ths' -> tstatic T = tstatic T' ->
  hasConflictLoop tids T tm ths = hasConflictLoop tids T' tm ths'.
Proof.
  intros Hths HT. induction tids as [|tid tids IH]; simpl; [done|].
  destruct (tm !! tid) as [ai|]; simpl; [|done].
  assert (tstatic <$> ths !! ai = tstatic <$> ths' !! ai) as Hai
    by (by rewrite <- !list_lookup_fmap, Hths).
  destruct (ths !! ai) as [Ta|], (ths' !! ai) as [Ta'|]; simpl in *; try done.
  apply (inj Some), tstatic_eq in Hai as (_ & -> & -> & _).
  apply tstatic_eq in HT as (_ & -> & -> & _).
  by rewrite IH.
Qed.

(** ** The callbacks of the two filters *)

(** What the loops need of a callback: its verdict on a person depends on
    that person's object and on the fixed fields of the theaters only, and
    it returns on a closed store. *)
Record keep_ok (tm : gmap string nat)
    (keep : Store -> nat -> nat -> result bool) : Prop := {
  keep_frame s s' ti p :
    persons s' !! p = persons s !! p ->
    tstatic <$> theaters s = tstatic <$> theaters s' ->
    keep s' ti p = keep s ti p;
  keep_total s ti p :
    closed tm s -> (p < length (persons s))%nat ->
    (ti < length (theaters s))%nat ->
    exists b, keep s ti p = Ok b
}.

Lemma static_lookup (ths ths' : list theater) (ti : nat) :
  tstatic <$> ths = tstatic <$> ths' ->
  match ths !! ti, ths' !! ti with
  | Some T, Some T' => tstatic T = tstatic T'
  | None, None => True
  | _, _ => False
  end.
Proof.
  intros Hs.
  assert (tstatic <$> ths !! ti = tstatic <$> ths' !! ti) as Hti
    by (by rewrite <- !list_lookup_fmap, Hs).
  destruct (ths !! ti), (ths' !! ti); simpl in Hti; try done.
  by apply (inj Some).
Qed.

Lemma noConflict_ok (tm : gmap string nat) : keep_ok tm (noConflict tm).
Proof.
  split.
  - intros s s' ti p HP Hst. unfold noConflict. rewrite HP.
    destruct (persons s !! p) as [P|]; simpl; [|done].
    pose proof (static_lookup _ _ ti Hst) as Hti.
    destruct (theaters s !! ti) as [T|], (theaters s' !! ti) as [T'|];
      simpl; try done.
    unfold hasConflict.
    by rewrite (hasConflictLoop_static _ T' T tm (theaters s') (theaters s)).
  - intros s ti p [Hw _] [P HP]%lookup_lt_is_Some_2 [T HT]%lookup_lt_is_Some_2.
    unfold noConflict. rewrite HP, HT; simpl.
    destruct (hasConflictLoop_total (person_assigned P) T tm (theaters s)) as [b Hb].
    + intros tid Htid. eapply Hw; [|done]. by eapply list_elem_of_lookup_2.
    + unfold hasConflict. rewrite Hb. simpl. by eexists.
Qed.

Lemma wantsTheater_ok (rank : nat) (tm : gmap string nat) :
  keep_ok tm (wantsTheater rank tm).
Proof.
  split.
  - intros s s' ti p HP Hst. unfold wantsTheater. rewrite HP.
    destruct (persons s !! p) as [P|]; simpl; [|done].
    pose proof (static_lookup _ _ ti Hst) as Hti.
    destruct (theaters s !! ti) as [T|], (theaters s' !! ti) as [T'|];
      simpl; try done.
    assert (theater_id T' = theater_id T) as ->
      by (symmetry; by apply tstatic_eq in Hti as (? & _)).
    unfold hasConflict.
    by rewrite (hasConflictLoop_static _ T' T tm (theaters s') (theaters s)).
  - intros s ti p [Hw _] [P HP]%lookup_lt_is_Some_2 [T HT]%lookup_lt_is_Some_2.
    unfold wantsTheater. rewrite HP, HT; simpl.
    destruct (bool_decide _); [|by eexists].
    destruct (set_has _ _); [by eexists|].
    destruct (hasConflictLoop_total (person_assigned P) T tm (theaters s)) as [b Hb].
    + intros tid Htid. eapply Hw; [|done]. by eapply list_elem_of_lookup_2.
    + unfold hasConflict. rewrite Hb. simpl. by eexists.
Qed.

(** ** [groupByAssignedCount] *)

Lemma groups_get_elem_of (groups : list (nat * list nat)) (c : nat) (b : list nat) :
  groups_get groups c = Some b -> (c, b) ∈ groups.
Proof.
  induction groups as [|[c' b'] groups IH]; simpl; [done|].
  destruct (decide (c' = c)) as [->|]; intros Hg.
  - injection Hg as ->. by left.
  - right. by apply IH.
Qed.

Lemma groups_get_is_Some (groups : list (nat * list nat)) (c : nat) :
  c ∈ groups.*1 -> is_Some (groups_get groups c).
Proof.
  induction groups as [|[c' b'] groups IH]; simpl; [by intros ?%elem_of_nil|].
  destruct (decide (c' = c)) as [->|]; [by eexists|].
  intros [?|?]%elem_of_cons; [done|]. by apply IH.
Qed.

Lemma push_group_buckets (seen : list nat) (count p : nat)
    (groups : list (nat * list nat)) :
  p ∉ seen ->
  Forall (fun cb => NoDup cb.2 /\ cb.2 ⊆ seen) groups ->
  Forall (fun cb => NoDup cb.2 /\ cb.2 ⊆ p :: seen) (push_group count p groups).
Proof.
  intros Hp. induction 1 as [|[c b] groups [Hnd Hsub] Hrest IH]; simpl in *.
  - constructor; [|done]. simpl. split; [apply NoDup_singleton|].
    intros ? ->%list_elem_of_singleton. by left.
  - destruct (decide (c = count)) as [->|].
    + constructor; simpl.
      * split.
        -- apply NoDup_app. split_and!; [done| |apply NoDup_singleton].
           intros x Hx ->%list_elem_of_singleton. by apply Hp, Hsub.
        -- intros x [Hx| ->%list_elem_of_singleton]%elem_of_app;
             [right; by apply Hsub|by left].
      * eapply Forall_impl; [done|]. intros cb [? Hs]. split; [done|].
        intros x Hx. right. by apply Hs.
    + constructor; [|done]. simpl. split; [done|].
      intros x Hx. right. by apply Hsub.
Qed.

Lemma groupLoop_spec (ps : list nat) (st : Store) (groups : list (nat * list nat))
    (seen : list nat) :
  NoDup ps -> (forall p, p ∈ ps -> p ∉ seen) ->
  (forall p, p ∈ ps -> (p < length (persons st))%nat) ->
  Forall (fun cb => NoDup cb.2 /\ cb.2 ⊆ seen) groups ->
  exists groups',
    groupLoop ps st groups = Ok groups'
    /\ Forall (fun cb => NoDup cb.2 /\ cb.2 ⊆ ps ++ seen) groups'.
Proof.
  revert groups seen.
  induction ps as [|p ps IH]; intros groups seen Hnd Hseen Hlt Hg; simpl.
  - by exists groups.
  - apply NoDup_cons in Hnd as [Hp Hnd].
    destruct (lookup_lt_is_Some_2 (persons st) p) as [P HP]; [apply Hlt; by left|].
    rewrite HP; simpl.
    destruct (IH (push_group (length (person_assigned P)) p groups) (p :: seen))
      as (groups' & -> & Hg'); try done.
    + intros q Hq [->|?]%elem_of_cons; [done|].
      by apply (Hseen q); [right|].
    + intros q Hq. apply Hlt. by right.
    + apply push_group_buckets; [|done]. apply Hseen. by left.
    + exists groups'. split; [done|].
      eapply Forall_impl; [done|]. intros cb [? Hs]. split; [done|].
      intros x Hx. apply Hs in Hx.
      rewrite elem_of_app, elem_of_cons in Hx. simpl.
      rewrite elem_of_cons, elem_of_app. tauto.
Qed.

(** Every count of the sorted array has its bucket, and a bucket holds
    persons of the grouped array, each once. *)
Lemma groupByAssignedCount_spec (ps : list nat) (st : Store) :
  NoDup ps -> (forall p, p ∈ ps -> (p < length (persons st))%nat) ->
  exists groups,
    groupByAssignedCount ps st = Ok groups
    /\ forall c, c ∈ sorted_counts groups ->
         exists b, groups_get groups c = Some b /\ NoDup b /\ b ⊆ ps.
Proof.
  intros Hnd Hlt.
  destruct (groupLoop_spec ps st [] []) as (groups & Hg & Hall); try done.
  { intros ? _ ?%elem_of_nil. done. }
  exists groups. split; [done|].
  intros c Hc. unfold sorted_counts in Hc.
  rewrite merge_sort_Permutation in Hc.
  destruct (groups_get_is_Some _ _ Hc) as [b Hb].
  exists b. split; [done|].
  apply groups_get_elem_of in Hb.
  rewrite Forall_forall in Hall. destruct (Hall _ Hb) as [? Hs]; simpl in *.
  split; [done|]. by rewrite app_nil_r in Hs.
Qed.

(** ** [filter] with a callback that may throw *)

Section FilterFacts.
Context {G : Type} `{RandomSource G}.

Lemma filterR_spec (f : nat -> result bool) (l : list nat) :
  (forall x, x ∈ l -> exists b, f x = Ok b) ->
  exists l',
    filterR f l = Ok l'
    /\ (forall x, x ∈ l' <-> x ∈ l /\ f x = Ok true)
    /\ (NoDup l -> NoDup l').
Proof.
  induction l as [|x l IH]; intros Hf; simpl.
  - exists []. split_and!; [done| |done]. intros x. split; [|by intros [??]].
    by intros ?%elem_of_nil.
  - destruct (Hf x) as [b Hb]; [by left|]. rewrite Hb; simpl.
    destruct IH as (l' & -> & Hl' & Hnd); [intros; apply Hf; by right|]; simpl.
    eexists. split; [done|]. destruct b.
    + split.
      * intros y. rewrite !elem_of_cons, Hl'. split; [|intros [[->|?] ?]; auto].
        intros [->|[??]]; auto.
      * intros [Hx Hn]%NoDup_cons. apply NoDup_cons. split; [|by apply Hnd].
        rewrite Hl'. tauto.
    + split.
      * intros y. rewrite elem_of_cons, Hl'. split; [tauto|].
        intros [[->|?] Hy]; [congruence|done].
      * intros [_ Hn]%NoDup_cons. by apply Hnd.
Qed.
End FilterFacts.

(** ** Runs as chains of guarded registrations *)

Section StepsFacts.
Context {G : Type}.
Implicit Types (m : machine G) (Gd : event -> Prop).

Lemma steps_same Gd m m' :
  store m' = store m -> trace m' = trace m -> steps Gd m m'.
Proof. intros Hs Ht. exists []. rewrite Hs, Ht. split_and!; [done|constructor|done]. Qed.

Lemma steps_trans Gd m1 m2 m3 : steps Gd m1 m2 -> steps Gd m2 m3 -> steps Gd m1 m3.
Proof.
  intros (a & Ha & Hca & HGa) (b & Hb & Hcb & HGb).
  exists (b ++ a). split_and!.
  - by rewrite Hb, Ha, app_assoc.
  - by eapply chain_app.
  - by apply Forall_app.
Qed.

Lemma steps_mono Gd Gd' m m' :
  (forall e, Gd e -> Gd' e) -> steps Gd m m' -> steps Gd' m m'.
Proof.
  intros Himp (new & ? & ? & HG). exists new. split_and!; [done..|].
  by eapply Forall_impl.
Qed.

Lemma steps_static Gd m m' : steps Gd m m' -> same_static (store m) (store m').
Proof. intros (new & _ & Hc & _). by eapply chain_static. Qed.

Lemma steps_closed Gd (tm : gmap string nat) m m' :
  closed tm (store m) -> steps Gd m m' -> closed tm (store m').
Proof. intros Hcl (new & _ & Hc & _). by eapply chain_closed. Qed.
End StepsFacts.

Section LoopFacts.
Context {G : Type} `{RandomSource G}.
Variable tm : gmap string nat.
Variable keep : Store -> nat -> nat -> result bool.
Variable allowed : nat -> Prop.
Hypothesis Hkeep : keep_ok tm keep.

Lemma assignWinners_spec (ti : nat) (winners : list nat) (m : machine G) :
  NoDup winners ->
  (forall p, p ∈ winners ->
     (p < length (persons (store m)))%nat /\ allowed p
     /\ keep (store m) ti p = Ok true) ->
  (ti < length (theaters (store m)))%nat ->
  (winners = [] \/ seats_room (store m) ti (Num (Z.of_nat (length winners)))) ->
  exists m',
    assignWinners winners ti m = Ok m' /\ gen m' = gen m
    /\ exists new,
         trace m' = new ++ trace m
         /\ chain (store m) new (store m')
         /\ Forall (guard keep allowed) new
         /\ length new = length winners.
Proof.
  revert m. induction winners as [|p rest IH]; intros m Hnd Hw Hti Hroom; simpl.
  - exists m. split_and!; [done..|]. exists []. split_and!; [done|constructor|done..].
  - apply NoDup_cons in Hnd as [Hp Hnd].
    destruct (Hw p) as (Hlt & Hal & Hk); [by left|].
    destruct Hroom as [?|(T & c & HT & Hc & Hsz)]; [done|].
    destruct (grant_total p ti (store m)) as [st' Hg]; [done..|].
    rewrite Hg; simpl.
    pose proof (grant_static _ _ _ _ Hg) as Hst.
    destruct (IH (Machine st' (gen m) ((p, ti, store m) :: trace m)))
      as (m' & -> & Hgen & new & Htr & Hch & HG & Hlen); simpl in *; try done.
    + intros q Hq. destruct (Hw q) as (? & ? & Hkq); [by right|].
      split_and!; [by rewrite (same_static_persons_length _ _ Hst)|done|].
      rewrite <- Hkq. apply (keep_frame _ _ Hkeep); [|apply Hst].
      eapply grant_person_other; [done|]. by intros ->.
    + by rewrite (same_static_theaters_length _ _ Hst).
    + destruct rest as [|q rest]; [by left|right].
      destruct (chain_holders_length (store m) st' [(p, ti, store m)] ti T)
        as (T' & HT' & HsT & Hlen'); [by repeat econstructor|done|].
      exists T', c. split_and!; [done| |].
      * apply tstatic_eq in HsT as (_ & _ & _ & ->). done.
      * simpl in *. lia.
    + exists m'. split_and!; [done..|].
      exists (new ++ [(p, ti, store m)]). split_and!.
      * by rewrite Htr, <- app_assoc.
      * eapply chain_app; [|done]. by repeat econstructor.
      * apply Forall_app. split; [done|]. constructor; [|done].
        split_and!; simpl; [done..|]. exists T, c. split_and!; [done..|lia].
      * rewrite length_app; simpl. lia.
Qed.

Lemma buckets_ok_static groups counts (s s' : Store) :
  same_static s s' ->
  buckets_ok allowed groups counts s -> buckets_ok allowed groups counts s'.
Proof.
  intros Hst Hb c Hc. destruct (Hb c Hc) as (b & ? & ? & Hp).
  exists b. split_and!; [done..|]. intros p Hpb.
  rewrite (same_static_persons_length _ _ Hst). by apply Hp.
Qed.

Lemma countsLoop_spec (groups : list (nat * list nat)) (ti : nat)
    (counts : list nat) (seats : num) (m : machine G) :
  closed tm (store m) ->
  (ti < length (theaters (store m)))%nat ->
  buckets_ok allowed groups counts (store m) ->
  seats_room (store m) ti seats ->
  exists m',
    countsLoop keep groups counts ti seats m = Ok m'
    /\ steps (guard keep allowed) m m'.
Proof.
  revert seats m.
  induction counts as [|count rest IH]; intros seats m Hcl Hti Hb Hroom; simpl.
  { exists m. split; [done|]. by apply steps_same. }
  destruct (num_le0 seats) eqn:Hle.
  { exists m. split; [done|]. by apply steps_same. }
  destruct (Hb count) as (bucket & -> & Hnd & Hbk); [by left|]; simpl.
  assert (buckets_ok allowed groups rest (store m)) as Hb'
    by (intros c Hc; apply Hb; by right).
  destruct (filterR_spec (keep (store m) ti) bucket)
    as (candidates & -> & Hcand & Hndc); simpl.
  { intros p Hp. apply (keep_total _ _ Hkeep); [done| |done]. by apply Hbk. }
  destruct candidates as [|c0 cands]; [by apply IH|].
  set (candidates := c0 :: cands) in *.
  pose proof (pickWinners_NoDup candidates seats (gen m) (Hndc Hnd)) as Hwnd.
  pose proof (pickWinners_elem_of candidates seats (gen m)) as Hwin.
  pose proof (pickWinners_length candidates seats (gen m)) as Hwlen.
  destruct (pickWinners candidates seats (gen m)) as [winners g']; simpl in *.
  destruct (assignWinners_spec ti winners (Machine (store m) g' (trace m)))
    as (m1 & -> & _ & new & Htr & Hch & HG & Hlen); simpl in *; try done.
  { intros p Hp. apply Hwin, Hcand in Hp as [Hp Hk].
    destruct (Hbk p Hp). done. }
  { destruct seats as [|z]; [by left|right]. simpl in Hle.
    destruct Hroom as (T & c & HT & Hc & Hsz).
    exists T, c. split_and!; [done..|].
    apply Z.leb_gt in Hle. specialize (Hwlen ltac:(lia)). lia. }
  assert (steps (guard keep allowed) m m1) as Hs1 by (by exists new).
  pose proof (steps_static _ _ _ Hs1) as Hst.
  destruct (IH (num_minus seats (length winners)) m1) as (m' & -> & Hs2).
  - by eapply steps_closed.
  - by rewrite (same_static_theaters_length _ _ Hst).
  - by eapply buckets_ok_static.
  - destruct seats as [|z]; [done|]. simpl.
    destruct Hroom as (T & c & HT & Hc & Hsz).
    destruct (chain_holders_length _ _ _ ti T Hch HT) as (T' & HT' & HsT & Hlen').
    exists T', c. split_and!; [done| |].
    + apply tstatic_eq in HsT as (_ & _ & _ & ->). done.
    + lia.
  - exists m'. split; [done|]. by eapply steps_trans.
Qed.

(** The free seats computed at the start of the loop for a theater. *)
Lemma seats_room_start (s : Store) (ti : nat) (T : theater) :
  theaters s !! ti = Some T ->
  seats_room s ti (num_minus (capacity T) (length (theater_assigned T))).
Proof.
  intros HT. unfold seats_room, num_minus.
  destruct (capacity T) as [|c] eqn:Hc; [done|].
  exists T, c. split_and!; [done..|lia].
Qed.
End LoopFacts.

(** ** The two lotteries *)

Section LotteryFacts.
Context {G : Type} `{RandomSource G}.
Variable tm : gmap string nat.
Implicit Types (m : machine G).

Lemma theaterLoop_step (keep : Store -> nat -> nat -> result bool)
    (allowed : nat -> Prop) (groups : list (nat * list nat)) (counts : list nat)
    (ti : nat) (T : theater) m :
  keep_ok tm keep ->
  closed tm (store m) -> theaters (store m) !! ti = Some T ->
  buckets_ok allowed groups counts (store m) ->
  exists m',
    countsLoop keep groups counts ti
      (num_minus (capacity T) (length (theater_assigned T))) m = Ok m'
    /\ steps (guard keep allowed) m m'.
Proof.
  intros Hk Hcl HT Hb. apply (countsLoop_spec tm); try done.
  - by eapply lookup_lt_Some.
  - by apply seats_room_start.
Qed.

Lemma initialTheaters_spec (rank : nat) (groups : list (nat * list nat))
    (counts tis : list nat) m :
  closed tm (store m) ->
  (forall ti, ti ∈ tis -> (ti < length (theaters (store m)))%nat) ->
  buckets_ok everyone groups counts (store m) ->
  exists m',
    initialTheaters rank tm groups counts tis m = Ok m'
    /\ steps (initial_guard tm rank) m m'.
Proof.
  revert m. induction tis as [|ti tis IH]; intros m Hcl Htis Hb; simpl.
  { exists m. split; [done|]. by apply steps_same. }
  destruct (lookup_lt_is_Some_2 (theaters (store m)) ti) as [T HT];
    [apply Htis; by left|].
  rewrite HT; simpl.
  assert (forall ti', ti' ∈ tis -> (ti' < length (theaters (store m)))%nat)
    as Htis' by (intros; apply Htis; by right).
  destruct (num_le0 _); [by apply IH|].
  destruct (theaterLoop_step (wantsTheater rank tm) everyone groups counts ti T m)
    as (m1 & -> & Hs1); try done; [apply wantsTheater_ok|]; simpl.
  pose proof (steps_static _ _ _ Hs1) as Hst.
  destruct (IH m1) as (m' & -> & Hs2).
  - by eapply steps_closed.
  - intros ti' Hti'. rewrite (same_static_theaters_length _ _ Hst). by apply Htis'.
  - by eapply buckets_ok_static.
  - exists m'. split; [done|]. by eapply steps_trans.
Qed.

Lemma initialRound_spec (rank : nat) m :
  closed tm (store m) ->
  exists m',
    initialRound rank tm m = Ok m' /\ steps (initial_guard tm rank) m m'.
Proof.
  intros Hcl. unfold initialRound.
  destruct (groupByAssignedCount_spec (seq 0 (length (persons (store m)))) (store m))
    as (groups & -> & Hg); simpl.
  { apply NoDup_seq. }
  { intros p Hp%elem_of_seq. lia. }
  apply initialTheaters_spec; [done| |].
  - intros ti Hti%elem_of_seq. lia.
  - intros c Hc. destruct (Hg c Hc) as (b & ? & ? & Hsub).
    exists b. split_and!; [done..|]. intros p Hp%Hsub%elem_of_seq.
    split; [lia|done].
Qed.

Lemma initialRanks_spec (ranks : list nat) m :
  closed tm (store m) ->
  exists m',
    initialRanks ranks tm m = Ok m'
    /\ steps (fun e => exists rank, rank ∈ ranks /\ initial_guard tm rank e) m m'.
Proof.
  revert m. induction ranks as [|rank ranks IH]; intros m Hcl; simpl.
  { exists m. split; [done|]. by apply steps_same. }
  destruct (allFull (store m)).
  { exists m. split; [done|]. by apply steps_same. }
  destruct (initialRound_spec rank m Hcl) as (m1 & -> & Hs1); simpl.
  destruct (IH m1) as (m' & -> & Hs2); [by eapply steps_closed|].
  exists m'. split; [done|].
  eapply steps_trans; (eapply steps_mono; [|done]).
  - intros e He. exists rank. split; [by left|done].
  - intros e (r & Hr & He). exists r. split; [by right|done].
Qed.

Lemma runInitialLottery_spec (maxOrders : nat) m :
  closed tm (store m) ->
  exists m',
    runInitialLottery tm maxOrders m = Ok m'
    /\ steps (fun e => exists rank, (rank < maxOrders)%nat
                        /\ initial_guard tm rank e) m m'.
Proof.
  intros Hcl. destruct (initialRanks_spec (seq 0 maxOrders) m Hcl) as (m' & Hr & Hs).
  exists m'. split; [done|]. eapply steps_mono; [|done].
  intros e (r & Hr'%elem_of_seq & He). exists r. split; [lia|done].
Qed.

Lemma vacancyTheaters_spec (candidates tis : list nat) m :
  closed tm (store m) -> NoDup candidates ->
  (forall p, p ∈ candidates -> (p < length (persons (store m)))%nat) ->
  (forall ti, ti ∈ tis -> (ti < length (theaters (store m)))%nat) ->
  exists m',
    vacancyTheaters tm candidates tis m = Ok m'
    /\ steps (vacancy_guard tm candidates) m m'.
Proof.
  revert m. induction tis as [|ti tis IH]; intros m Hcl Hnd Hcs Htis; simpl.
  { exists m. split; [done|]. by apply steps_same. }
  destruct (lookup_lt_is_Some_2 (theaters (store m)) ti) as [T HT];
    [apply Htis; by left|].
  rewrite HT; simpl.
  assert (forall ti', ti' ∈ tis -> (ti' < length (theaters (store m)))%nat)
    as Htis' by (intros; apply Htis; by right).
  destruct (num_le0 _); [by apply IH|].
  destruct (groupByAssignedCount_spec candidates (store m))
    as (groups & -> & Hg); [done..|]; simpl.
  destruct (theaterLoop_step (noConflict tm) (fun p => p ∈ candidates)
              groups (sorted_counts groups) ti T m)
    as (m1 & -> & Hs1); try done; [apply noConflict_ok| |]; simpl.
  { intros c Hc. destruct (Hg c Hc) as (b & ? & ? & Hsub).
    exists b. split_and!; [done..|]. intros p Hp%Hsub. split; [by apply Hcs|done]. }
  pose proof (steps_static _ _ _ Hs1) as Hst.
  destruct (IH m1) as (m' & -> & Hs2).
  - by eapply steps_closed.
  - done.
  - intros p Hp. rewrite (same_static_persons_length _ _ Hst). by apply Hcs.
  - intros ti' Hti'. rewrite (same_static_theaters_length _ _ Hst). by apply Htis'.
  - exists m'. split; [done|]. by eapply steps_trans.
Qed.

Lemma vacancyCandidates_spec (ids : list string) (s : Store) :
  NoDup (vacancyCandidates ids s)
  /\ forall p, p ∈ vacancyCandidates ids s <->
       exists P, persons s !! p = Some P /\ person_id P ∈ ids.
Proof.
  unfold vacancyCandidates. split.
  - apply NoDup_filter, NoDup_seq.
  - intros p. rewrite list_elem_of_filter, elem_of_seq. unfold optedIn, set_has.
    split.
    + intros [Hp _]. destruct (persons s !! p) as [P|]; [|done].
      apply bool_decide_unpack in Hp. eauto.
    + intros (P & HP & Hid). rewrite HP. split.
      * by apply bool_decide_pack.
      * apply lookup_lt_Some in HP. lia.
Qed.

(** The vacancy lottery on a file that could be read, or is missing. *)
Lemma runVacancyLottery_spec (vacancyFile : file) m :
  closed tm (store m) -> vacancyFile <> FileUnreadable ->
  exists m',
    runVacancyLottery vacancyFile tm m = Ok m'
    /\ steps (vacancy_guard tm
                (vacancyCandidates
                   (set_from (match vacancyFile with
                              | FileLines lines => lines
                              | _ => []
                              end)) (store m))) m m'.
Proof.
  intros Hcl Hf. unfold runVacancyLottery.
  destruct vacancyFile as [lines| |]; [| |done]; simpl.
  - destruct (decide _).
    { exists m. split; [done|]. by apply steps_same. }
    destruct (vacancyCandidates_spec (set_from lines) (store m)) as [Hnd Hc].
    apply vacancyTheaters_spec; [done..| |].
    + intros p (P & HP & _)%Hc. by eapply lookup_lt_Some.
    + intros ti Hti%elem_of_seq. lia.
  - exists m. split; [done|]. by apply steps_same.
Qed.
End LotteryFacts.

(** ** What the callbacks accept *)

Lemma wantsTheater_true (rank : nat) (tm : gmap string nat) (s : Store) (ti p : nat) :
  wantsTheater rank tm s ti p = Ok true <->
  exists P T,
    persons s !! p = Some P /\ theaters s !! ti = Some T
    /\ prefs P !! rank = Some (Some (theater_id T))
    /\ (theater_id T ∉ person_assigned P)
    /\ hasConflict P T tm (theaters s) = Ok false.
Proof.
  unfold wantsTheater, set_has. split.
  - intros Hw. inv_ok Hw. exists a, a0.
    destruct (bool_decide_reflect (prefs a !! rank = Some (Some (theater_id a0))));
      [|done].
    destruct (bool_decide_reflect (theater_id a0 ∈ person_assigned a)); [done|].
    inv_ok Hw. by destruct a1.
  - intros (P & T & -> & -> & Hpref & Hnot & Hc); simpl.
    rewrite bool_decide_eq_true_2, bool_decide_eq_false_2 by done.
    by rewrite Hc.
Qed.

Lemma noConflict_true (tm : gmap string nat) (s : Store) (ti p : nat) :
  noConflict tm s ti p = Ok true <->
  exists P T,
    persons s !! p = Some P /\ theaters s !! ti = Some T
    /\ hasConflict P T tm (theaters s) = Ok false.
Proof.
  unfold noConflict. split.
  - intros Hw. inv_ok Hw. exists a, a0. by destruct a1.
  - intros (P & T & -> & -> & Hc); simpl. by rewrite Hc.
Qed.

(** A theater that is already won conflicts with itself. *)
Lemma hasConflict_own (tm : gmap string nat) (s : Store) (ti : nat)
    (P : person) (T : theater) :
  exact tm s -> theaters s !! ti = Some T ->
  hasConflict P T tm (theaters s) = Ok false ->
  theater_id T ∉ person_assigned P.
Proof.
  intros Hex HT Hc Hin.
  pose proof (proj1 (hasConflictLoop_false _ _ _ _) Hc) as Hall.
  destruct (Hall _ Hin) as (ai & Ta & Hai & HTa & Hts & _).
  rewrite (Hex _ _ HT) in Hai. by simplify_eq.
Qed.

(** ** Capacity *)

Lemma grant_capacity_ok (p ti : nat) (s s' : Store) :
  capacity_ok s -> has_room s ti -> grant p ti s = Ok s' -> capacity_ok s'.
Proof.
  intros Hcap (T & c & HT & Hc & Hlt) (P & T' & HP & HT' & ->)%grant_Ok.
  assert (T' = T) as -> by congruence.
  intros T1 [->|HT1]%elem_of_insert_inv; simpl in *; [|by apply Hcap].
  exists c. split; [done|].
  pose proof (set_add_length (person_id P) (theater_assigned T)). lia.
Qed.

Lemma exact_static (tm : gmap string nat) (s s' : Store) :
  same_static s s' -> exact tm s -> exact tm s'.
Proof.
  intros Hst Hex ti T' HT'.
  destruct (same_static_theater s' s ti T') as (T & HT & HsT); [done..|].
  apply tstatic_eq in HsT as (Hid & _). rewrite <- Hid. by apply Hex.
Qed.

Lemma exact_ids (tm : gmap string nat) (s : Store) (i j : nat) (Ti Tj : theater) :
  exact tm s -> theaters s !! i = Some Ti -> theaters s !! j = Some Tj ->
  theater_id Ti = theater_id Tj -> i = j.
Proof.
  intros Hex Hi Hj Hid. apply Hex in Hi, Hj. rewrite Hid in Hi. congruence.
Qed.

(** ** The stores that [main] builds *)

Lemma makeTheaterMap_snoc (ths : list theater) (T : theater) :
  makeTheaterMap (ths ++ [T])
  = <[theater_id T := length ths]> (makeTheaterMap ths).
Proof.
  unfold makeTheaterMap. rewrite imap_app, fold_left_app. simpl.
  by rewrite Nat.add_0_r.
Qed.

Lemma makeTheaterMap_lookup (ths : list theater) (T : theater) :
  T ∈ ths ->
  exists ai, makeTheaterMap ths !! theater_id T = Some ai
             /\ (ai < length ths)%nat.
Proof.
  induction ths as [|T' ths IH] using rev_ind; [by intros ?%elem_of_nil|].
  rewrite makeTheaterMap_snoc, length_app; simpl. intros HT.
  destruct (decide (theater_id T' = theater_id T)) as [->|Hne].
  - exists (length ths). rewrite lookup_insert_eq. split; [done|lia].
  - rewrite lookup_insert_ne by done.
    apply elem_of_app in HT as [HT|HT%list_elem_of_singleton]; [|by subst].
    destruct (IH HT) as (ai & ? & ?). exists ai. split; [done|lia].
Qed.

Lemma makeTheaterMap_exact (ps : list person) (ths : list theater) :
  NoDup (theater_id <$> ths) -> exact (makeTheaterMap ths) (MkStore ps ths).
Proof.
  unfold exact; simpl.
  induction ths as [|T' ths IH] using rev_ind; [done|].
  rewrite fmap_app. intros (Hnd & Hdisj & _)%NoDup_app ti T HT.
  rewrite makeTheaterMap_snoc.
  apply lookup_app_Some in HT as [HT|[Hlen HT]].
  - rewrite lookup_insert_ne; [by apply IH|].
    intros Hid. apply (Hdisj (theater_id T)).
    + apply list_elem_of_fmap. exists T. split; [done|].
      by eapply list_elem_of_lookup_2.
    + simpl. rewrite Hid. by left.
  - destruct (ti - length ths)%nat as [|k] eqn:Hk; simpl in HT; [|done].
    simplify_eq. rewrite lookup_insert_eq. f_equal. lia.
Qed.

Lemma fresh_closed (ps : list person) (ths : list theater) :
  Forall (fun P => person_assigned P = []) ps ->
  closed (makeTheaterMap ths) (MkStore ps ths).
Proof.
  rewrite Forall_forall. intros Hfresh. split; simpl.
  - intros P tid HP. rewrite (Hfresh P HP). by intros ?%elem_of_nil.
  - apply makeTheaterMap_lookup.
Qed.

Lemma fresh_capacity_ok (ps : list person) (ths : list theater) :
  Forall (fun T => theater_assigned T = []
                   /\ exists c, capacity T = Num c /\ 0 <= c) ths ->
  capacity_ok (MkStore ps ths).
Proof.
  rewrite Forall_forall. intros Hfresh T HT; simpl in *.
  destruct (Hfresh T HT) as (-> & c & ? & ?). by exists c.
Qed.

Lemma fresh_conflict_free (ps : list person) (ths : list theater) :
  Forall (fun P => person_assigned P = []) ps ->
  conflict_free (MkStore ps ths).
Proof.
  rewrite Forall_forall. intros Hfresh P Ta Tb HP; simpl in *.
  rewrite (Hfresh P HP). by intros _ _ ?%elem_of_nil.
Qed.

Lemma fresh_consistent (ps : list person) (ths : list theater) :
  Forall (fun P => person_assigned P = []) ps ->
  Forall (fun T => theater_assigned T = []) ths ->
  consistent (MkStore ps ths).
Proof.
  rewrite !Forall_forall. intros Hp Ht P T HP HT; simpl in *.
  rewrite (Hp P HP), (Ht T HT). split; by intros ?%elem_of_nil.
Qed.

(** ** Both lotteries *)

Section Lotteries.
Context {G : Type} `{RandomSource G}.
Implicit Types (m : machine G).

Lemma guard_lottery_initial (tm : gmap string nat) (rank : nat) (e : event) :
  initial_guard tm rank e -> lottery_guard tm e.
Proof.
  intros (_ & (P & T & ? & ? & _ & _ & ?)%wantsTheater_true & ?).
  split; [done|]. by exists P, T.
Qed.

Lemma guard_lottery_vacancy (tm : gmap string nat) (cands : list nat) (e : event) :
  vacancy_guard tm cands e -> lottery_guard tm e.
Proof.
  intros (_ & (P & T & ? & ? & ?)%noConflict_true & ?).
  split; [done|]. by exists P, T.
Qed.

Lemma runLotteries_spec (cfg : settings) (vacancyFile : file)
    (tm : gmap string nat) m :
  closed tm (store m) ->
  (enableVacancy cfg = true -> vacancyFile <> FileUnreadable) ->
  exists m',
    runLotteries cfg vacancyFile tm m = Ok m' /\ steps (lottery_guard tm) m m'.
Proof.
  intros Hcl Hf. unfold runLotteries.
  destruct (runInitialLottery_spec tm (maxOrders cfg) m Hcl) as (m1 & -> & Hs1).
  simpl.
  assert (steps (lottery_guard tm) m m1) as Hs1'.
  { eapply steps_mono; [|done]. intros e (r & _ & He).
    by eapply guard_lottery_initial. }
  destruct (enableVacancy cfg); [|by exists m1].
  destruct (runVacancyLottery_spec tm vacancyFile m1) as (m' & -> & Hs2);
    [by eapply steps_closed|by apply Hf|].
  exists m'. split; [done|]. eapply steps_trans; [done|].
  eapply steps_mono; [|done]. intros e. apply guard_lottery_vacancy.
Qed.

(** The run stops when the vacancy lottery is enabled and its file cannot
    be read. *)
Lemma runLotteries_unreadable (cfg : settings) (tm : gmap string nat) m :
  closed tm (store m) -> enableVacancy cfg = true ->
  runLotteries cfg FileUnreadable tm m = Abort (Exit ReadFailure).
Proof.
  intros Hcl Hev. unfold runLotteries.
  destruct (runInitialLottery_spec tm (maxOrders cfg) m Hcl) as (m1 & -> & _).
  simpl. by rewrite Hev.
Qed.

(** From an empty trace, the trace of a run is the whole chain. *)
Lemma steps_from_start (Gd : event -> Prop) m m' :
  trace m = [] -> steps Gd m m' ->
  chain (store m) (trace m') (store m') /\ Forall Gd (trace m').
Proof.
  intros Ht (new & Hnew & Hch & HG). rewrite Ht, app_nil_r in Hnew.
  by rewrite Hnew.
Qed.

Lemma run_capacity_ok (tm : gmap string nat) m m' :
  capacity_ok (store m) -> trace m = [] -> steps (lottery_guard tm) m m' ->
  Forall (fun e => has_room e.2 e.1.2) (trace m')
  /\ Forall capacity_ok (visited m').
Proof.
  intros Hcap Ht Hs.
  apply (steps_mono _ (fun e => has_room e.2 e.1.2)) in Hs; [|by intros e [? _]].
  apply steps_from_start in Hs as [Hch HG]; [|done]. split; [done|].
  destruct (chain_invariant (fun e => has_room e.2 e.1.2) capacity_ok
              (store m) (store m') (trace m')) as [Hfin Hall]; try done.
  - intros p ti s1 s2 ? ? ?. by eapply grant_capacity_ok.
  - by constructor.
Qed.

(** C1. Capacity invariant.  Run the two lotteries, as [main] does, from a
    store in which every theater has an integer capacity and no more
    holders than that (as in the store that [main] builds from theaters
    with a non-negative integer capacity).  Then the run returns, every
    registration it made went to a theater that had a free seat at that
    moment, and in every store of the run (the one before each
    registration and the final one) every theater has at most as many
    holders as its capacity. *)
Theorem capacity_invariant (cfg : settings) (vacancyFile : file)
    (tm : gmap string nat) m :
  closed tm (store m) -> capacity_ok (store m) -> trace m = [] ->
  (enableVacancy cfg = true -> vacancyFile <> FileUnreadable) ->
  exists m',
    runLotteries cfg vacancyFile tm m = Ok m'
    /\ chain (store m) (trace m') (store m')
    /\ Forall (fun e => has_room e.2 e.1.2) (trace m')
    /\ Forall capacity_ok (visited m').
Proof.
  intros Hcl Hcap Ht Hf.
  destruct (runLotteries_spec cfg vacancyFile tm m Hcl Hf) as (m' & Hrun & Hs).
  destruct (run_capacity_ok tm m m') as [HG Hall]; [done..|].
  apply steps_from_start in Hs as [Hch _]; [|done].
  by exists m'.
Qed.
End Lotteries.

Lemma capacity_invariant_witness :
  exists m',
    runLotteries (Settings 2 true (Some 1)) FileMissing theaterMapA machineA = Ok m'
    /\ chain (store machineA) (trace m') (store m')
    /\ Forall (fun e => has_room e.2 e.1.2) (trace m')
    /\ Forall capacity_ok (visited m').
Proof.
  apply capacity_invariant.
  - apply fresh_closed. by repeat constructor.
  - apply fresh_capacity_ok. repeat constructor; by eexists.
  - reflexivity.
  - intros _. discriminate.
Defined.

(** ** Conflicts *)

Lemma insert_static_elem_of (ths : list theater) (ti : nat) (T Tnew Tx : theater) :
  ths !! ti = Some T -> tstatic Tnew = tstatic T -> Tx ∈ <[ti := Tnew]> ths ->
  exists Tx0, Tx0 ∈ ths /\ tstatic Tx0 = tstatic Tx.
Proof.
  intros HT Hst [->|Hx]%elem_of_insert_inv.
  - exists T. split; [by eapply list_elem_of_lookup_2|done].
  - by exists Tx.
Qed.

Lemma grant_conflict_free (tm : gmap string nat) (p ti : nat) (s s' : Store) :
  exact tm s -> conflict_free s -> lottery_guard tm (p, ti, s) ->
  grant p ti s = Ok s' -> conflict_free s'.
Proof.
  intros Hex Hcf (_ & P & T & HP & HT & Hc) (P0 & T0 & HP0 & HT0 & ->)%grant_Ok.
  simpl in *. assert (P0 = P) as -> by congruence.
  assert (T0 = T) as -> by congruence. clear HP0 HT0.
  pose proof (proj1 (hasConflictLoop_false _ _ _ _) Hc) as Hall.
  (* a theater whose id is among the wins of [P] differs from [T] in both keys *)
  assert (forall Tx, Tx ∈ theaters s -> theater_id Tx ∈ person_assigned P ->
            timeSlot Tx <> timeSlot T /\ play Tx <> play T) as Hold.
  { intros Tx [j Hj]%list_elem_of_lookup Hin.
    destruct (Hall _ Hin) as (ai & Tx' & Hai & HTx' & ? & ?).
    rewrite (Hex _ _ Hj) in Hai. by simplify_eq. }
  (* a theater with the id of [T] is [T] *)
  assert (forall Tx, Tx ∈ theaters s -> theater_id Tx = theater_id T -> Tx = T)
    as Hsame.
  { intros Tx [j Hj]%list_elem_of_lookup Hid.
    assert (j = ti) as -> by (by eapply exact_ids). congruence. }
  intros P' Ta Tb HP' HTa HTb Hina Hinb Hne; simpl in *.
  eapply insert_static_elem_of in HTa as (Ta0 & HTa0 & Hsa); [|done..].
  eapply insert_static_elem_of in HTb as (Tb0 & HTb0 & Hsb); [|done..].
  apply tstatic_eq in Hsa as (Ha1 & Ha2 & Ha3 & _).
  apply tstatic_eq in Hsb as (Hb1 & Hb2 & Hb3 & _).
  rewrite <- Ha1 in Hina, Hne. rewrite <- Hb1 in Hinb, Hne.
  rewrite <- Ha2, <- Ha3, <- Hb2, <- Hb3.
  apply elem_of_insert_inv in HP' as [->|HP']; [|by eapply Hcf].
  simpl in *.
  apply set_add_elem_of in Hina as [Hia|Hia], Hinb as [Hib|Hib].
  - congruence.
  - rewrite (Hsame _ HTa0 Hia). destruct (Hold _ HTb0 Hib). split; congruence.
  - rewrite (Hsame _ HTb0 Hib). by apply Hold.
  - eapply Hcf; [by eapply list_elem_of_lookup_2|done..].
Qed.

Section ConflictInvariant.
Context {G : Type} `{RandomSource G}.
Implicit Types (m : machine G).

Lemma run_conflict_free (tm : gmap string nat) m m' :
  exact tm (store m) -> conflict_free (store m) -> trace m = [] ->
  steps (lottery_guard tm) m m' ->
  Forall conflict_free (visited m').
Proof.
  intros Hex Hcf Ht Hs.
  apply steps_from_start in Hs as [Hch HG]; [|done].
  destruct (chain_invariant (lottery_guard tm)
              (fun s => exact tm s /\ conflict_free s)
              (store m) (store m') (trace m')) as [Hfin Hall]; try done.
  - intros p ti s1 s2 [Hex1 Hcf1] Hgd Hg. split.
    + eapply exact_static; [|done]. by eapply grant_static.
    + by eapply grant_conflict_free.
  - constructor; [apply Hfin|]. eapply Forall_impl; [done|]. by intros ? [_ ?].
Qed.

(** C2. Conflict invariant.  Run the two lotteries from a store in which
    no person has won anything yet and the theater ids are distinct (with
    the [theaterMap] that [main] builds).  Then the run returns, every
    registration it made was for a person whom [hasConflict] cleared in the
    store of that very registration, and in every store of the run no
    person's wins hold two different theaters with the same time slot or
    the same play. *)
Theorem conflict_invariant (cfg : settings) (vacancyFile : file) m :
  Forall (fun P => person_assigned P = []) (persons (store m)) ->
  NoDup (theater_id <$> theaters (store m)) ->
  trace m = [] ->
  (enableVacancy cfg = true -> vacancyFile <> FileUnreadable) ->
  exists m',
    runLotteries cfg vacancyFile (makeTheaterMap (theaters (store m))) m = Ok m'
    /\ chain (store m) (trace m') (store m')
    /\ Forall (lottery_guard (makeTheaterMap (theaters (store m)))) (trace m')
    /\ Forall conflict_free (visited m').
Proof.
  intros Hfresh Hnd Ht Hf.
  set (tm := makeTheaterMap (theaters (store m))).
  assert (closed tm (store m)) as Hcl
    by (destruct m as [[ps ths] g tr]; by apply fresh_closed).
  assert (exact tm (store m)) as Hex
    by (destruct m as [[ps ths] g tr]; by apply makeTheaterMap_exact).
  assert (conflict_free (store m)) as Hcf
    by (destruct m as [[ps ths] g tr]; by apply fresh_conflict_free).
  destruct (runLotteries_spec cfg vacancyFile tm m) as (m' & Hrun & Hs);
    [done..|].
  pose proof (run_conflict_free tm m m' Hex Hcf Ht Hs) as Hall.
  apply steps_from_start in Hs as [Hch HG]; [|done].
  by exists m'.
Qed.
End ConflictInvariant.

Lemma conflict_invariant_witness :
  exists m',
    runLotteries (Settings 3 true (Some 1)) (FileLines ["P1"; "P2"]%string)
      (makeTheaterMap (theaters (store machineD))) machineD = Ok m'
    /\ chain (store machineD) (trace m') (store m')
    /\ Forall (lottery_guard (makeTheaterMap (theaters (store machineD)))) (trace m')
    /\ Forall conflict_free (visited m').
Proof.
  apply conflict_invariant.
  - by repeat constructor.
  - by vm_compute; apply (bool_decide_unpack _).
  - reflexivity.
  - intros _. discriminate.
Defined.

(** ** Consistency of wins and holders *)

Lemma elem_of_insert_cases {A : Type} (l : list A) (i : nat) (x y : A) :
  x ∈ <[i := y]> l -> x = y \/ exists j, j <> i /\ l !! j = Some x.
Proof.
  intros (j & Hj)%list_elem_of_lookup.
  destruct (decide (j = i)) as [->|Hne].
  - destruct (decide (i < length l)%nat).
    + rewrite list_lookup_insert_eq in Hj by done. left. congruence.
    + rewrite list_insert_ge in Hj by lia. apply lookup_lt_Some in Hj. lia.
  - rewrite list_lookup_insert_ne in Hj by done. right. eauto.
Qed.

Lemma NoDup_fmap_lookup {A B : Type} (f : A -> B) (l : list A) (i j : nat) (x y : A) :
  NoDup (f <$> l) -> l !! i = Some x -> l !! j = Some y -> f x = f y -> i = j.
Proof.
  intros Hnd Hi Hj Hf. eapply NoDup_lookup; [done| |].
  - by rewrite list_lookup_fmap, Hi.
  - by rewrite list_lookup_fmap, Hj, Hf.
Qed.

Lemma same_static_ids (s s' : Store) :
  same_static s s' ->
  person_id <$> persons s = person_id <$> persons s'
  /\ theater_id <$> theaters s = theater_id <$> theaters s'.
Proof.
  intros [Hp Ht]. split.
  - change person_id with (fst ∘ pstatic). by rewrite !list_fmap_compose, Hp.
  - change theater_id with ((fun t => t.1.1.1) ∘ tstatic).
    by rewrite !list_fmap_compose, Ht.
Qed.

Lemma unique_ids_static (s s' : Store) :
  same_static s s' -> unique_ids s -> unique_ids s'.
Proof.
  intros [Hp Ht]%same_static_ids [??]. unfold unique_ids. by rewrite <- Hp, <- Ht.
Qed.

Lemma grant_consistent (p ti : nat) (s s' : Store) :
  unique_ids s -> consistent s -> grant p ti s = Ok s' -> consistent s'.
Proof.
  intros [Hnp Hnt] Hco (P & T & HP & HT & ->)%grant_Ok.
  intros P' T' HP' HT'; simpl in *.
  apply elem_of_insert_cases in HP' as [->|(j & Hj & HP')];
    apply elem_of_insert_cases in HT' as [->|(k & Hk & HT')]; simpl.
  - rewrite !set_add_elem_of. tauto.
  - assert (theater_id T' <> theater_id T) as Hne.
    { intros Hid. apply Hk. by eapply (NoDup_fmap_lookup theater_id). }
    rewrite set_add_elem_of.
    rewrite <- (Hco P T') by (by eapply list_elem_of_lookup_2). tauto.
  - assert (person_id P' <> person_id P) as Hne.
    { intros Hid. apply Hj. by eapply (NoDup_fmap_lookup person_id). }
    rewrite set_add_elem_of.
    rewrite (Hco P' T) by (by eapply list_elem_of_lookup_2). tauto.
  - apply Hco; by eapply list_elem_of_lookup_2.
Qed.

Lemma grant_grows (p ti : nat) (s s' : Store) : grant p ti s = Ok s' -> grows s s'.
Proof.
  intros (P & T & HP & HT & ->)%grant_Ok. split; simpl.
  - intros q Q HQ. destruct (decide (q = p)) as [->|Hne].
    + eexists. split; [apply list_lookup_insert_eq; by eapply lookup_lt_Some|].
      assert (Q = P) as -> by congruence. simpl.
      intros x Hx. apply set_add_elem_of. by right.
    + exists Q. by rewrite list_lookup_insert_ne.
  - intros tj Q HQ. destruct (decide (tj = ti)) as [->|Hne].
    + eexists. split; [apply list_lookup_insert_eq; by eapply lookup_lt_Some|].
      assert (Q = T) as -> by congruence. simpl.
      intros x Hx. apply set_add_elem_of. by right.
    + exists Q. by rewrite list_lookup_insert_ne.
Qed.

Global Instance grows_preorder : PreOrder grows.
Proof.
  split.
  - split; intros ? X ?; by exists X.
  - intros s1 s2 s3 [Hp1 Ht1] [Hp2 Ht2]. split.
    + intros p P HP. destruct (Hp1 p P HP) as (P2 & HP2 & ?).
      destruct (Hp2 p P2 HP2) as (P3 & ? & ?). exists P3. split; [done|].
      by etrans.
    + intros ti T HT. destruct (Ht1 ti T HT) as (T2 & HT2 & ?).
      destruct (Ht2 ti T2 HT2) as (T3 & ? & ?). exists T3. split; [done|].
      by etrans.
Qed.

(** Every store of a chain is included in its last store. *)
Lemma chain_grows (s0 s : Store) (tr : list event) :
  chain s0 tr s -> grows s0 s /\ Forall (fun s1 => grows s1 s) tr.*2.
Proof.
  induction 1 as [|tr s p ti s' _ [IH0 IH] Hg%grant_grows]; [done|].
  split; [by etrans|]. rewrite fmap_cons. constructor; [exact Hg|].
  eapply Forall_impl; [exact IH|]. intros s1 ?. by transitivity s.
Qed.

Section Consistency.
Context {G : Type} `{RandomSource G}.
Implicit Types (m : machine G).

Lemma run_consistent (Gd : event -> Prop) m m' :
  unique_ids (store m) -> consistent (store m) -> trace m = [] ->
  steps Gd m m' ->
  Forall consistent (visited m').
Proof.
  intros Hu Hco Ht Hs.
  apply steps_from_start in Hs as [Hch _]; [|done].
  destruct (chain_invariant (fun _ => True)
              (fun s => unique_ids s /\ consistent s)
              (store m) (store m') (trace m')) as [Hfin Hall]; try done.
  - intros p ti s1 s2 [Hu1 Hco1] _ Hg. split.
    + eapply unique_ids_static; [|done]. by eapply grant_static.
    + by eapply grant_consistent.
  - by apply Forall_true.
  - constructor; [apply Hfin|]. eapply Forall_impl; [done|]. by intros ? [_ ?].
Qed.

(** C6. Consistency of the two sides.  Run the two lotteries from a store
    in which nobody has won anything yet and the ids of the persons and of
    the theaters are distinct.  Then the run returns, its stores are linked
    by registrations (each one [grant], which adds the person to the
    holders and the theater to the wins), in every store of the run a
    theater is among a person's wins exactly when the person is among the
    theater's holders, and every store of the run is included in the final
    one (nothing is removed). *)
Theorem assignment_consistency (cfg : settings) (vacancyFile : file) m :
  fresh (store m) -> unique_ids (store m) ->
  trace m = [] ->
  (enableVacancy cfg = true -> vacancyFile <> FileUnreadable) ->
  exists m',
    runLotteries cfg vacancyFile (makeTheaterMap (theaters (store m))) m = Ok m'
    /\ chain (store m) (trace m') (store m')
    /\ Forall consistent (visited m')
    /\ Forall (fun s => grows s (store m')) (visited m').
Proof.
  intros [Hfp Hft] Hu Ht Hf.
  set (tm := makeTheaterMap (theaters (store m))).
  assert (closed tm (store m)) as Hcl
    by (destruct m as [[ps ths] g tr]; by apply fresh_closed).
  assert (consistent (store m)) as Hco
    by (destruct m as [[ps ths] g tr]; by apply fresh_consistent).
  destruct (runLotteries_spec cfg vacancyFile tm m) as (m' & Hrun & Hs);
    [done..|].
  pose proof (run_consistent _ m m' Hu Hco Ht Hs) as Hall.
  apply steps_from_start in Hs as [Hch HG]; [|done].
  exists m'. split_and!; [done..|].
  constructor; [done|]. by apply chain_grows in Hch as [_ ?].
Qed.
End Consistency.

Lemma assignment_consistency_witness :
  exists m',
    runLotteries (Settings 2 true (Some 1)) FileMissing
      (makeTheaterMap (theaters (store machineA))) machineA = Ok m'
    /\ chain (store machineA) (trace m') (store m')
    /\ Forall consistent (visited m')
    /\ Forall (fun s => grows s (store m')) (visited m').
Proof.
  apply assignment_consistency.
  - split; by repeat constructor.
  - split; by vm_compute; apply (bool_decide_unpack _).
  - reflexivity.
  - intros _. discriminate.
Defined.

(** ** The vacancy lottery *)

Lemma set_from_fold (l acc : list string) (x : string) :
  x ∈ fold_left (fun s y => set_add y s) l acc <-> x ∈ acc \/ x ∈ l.
Proof.
  revert acc. induction l as [|y l IH]; intros acc; simpl.
  - rewrite elem_of_nil. tauto.
  - rewrite IH, set_add_elem_of, elem_of_cons. tauto.
Qed.

Lemma set_from_elem_of (l : list string) (x : string) : x ∈ set_from l <-> x ∈ l.
Proof. unfold set_from. rewrite set_from_fold, elem_of_nil. tauto. Qed.

Lemma chain_wellformed (tm : gmap string nat) (s0 s : Store) (tr : list event) :
  chain s0 tr s -> exact tm s0 -> unique_ids s0 -> consistent s0 ->
  (exact tm s /\ unique_ids s /\ consistent s)
  /\ Forall (fun s1 => exact tm s1 /\ unique_ids s1 /\ consistent s1) tr.*2.
Proof.
  intros Hch Hex Hu Hco.
  apply (chain_invariant (fun _ => True)
           (fun s1 => exact tm s1 /\ unique_ids s1 /\ consistent s1) s0);
    try done.
  - intros p ti s1 s2 (? & ? & ?) _ Hg.
    pose proof (grant_static _ _ _ _ Hg). split_and!.
    + by eapply exact_static.
    + by eapply unique_ids_static.
    + by eapply grant_consistent.
  - by apply Forall_true.
Qed.

Lemma guarded_not_holding (tm : gmap string nat) (e : event) :
  exact tm e.2 -> consistent e.2 -> lottery_guard tm e -> not_holding e.
Proof.
  intros Hex Hco (_ & P & T & HP & HT & Hc).
  exists P, T. split_and!; [done..| |].
  - by eapply hasConflict_own.
  - intros Hin. apply (Hco P T) in Hin; [|by eapply list_elem_of_lookup_2..].
    by eapply hasConflict_own.
Qed.

(** The ids among the holders of a theater at the end of a chain were
    there at its start, or belong to a person registered on the way. *)
Lemma chain_holders_from (s0 s : Store) (tr : list event) (ti : nat)
    (T' : theater) (x : string) :
  chain s0 tr s -> theaters s !! ti = Some T' -> x ∈ theater_assigned T' ->
  (exists T, theaters s0 !! ti = Some T /\ x ∈ theater_assigned T)
  \/ (exists p P, p ∈ tr.*1.*1 /\ persons s0 !! p = Some P /\ person_id P = x).
Proof.
  intros Hch. revert T'.
  induction Hch as [|tr s p tj s' Hch IH Hg]; intros T' HT' Hx; [left; eauto|].
  pose proof (chain_static _ _ _ Hch) as Hst.
  apply grant_Ok in Hg as (P & T & HP & HT & ->); simpl in *.
  destruct (decide (ti = tj)) as [->|Hne].
  - rewrite list_lookup_insert_eq in HT' by (by eapply lookup_lt_Some).
    injection HT' as <-. simpl in Hx.
    apply set_add_elem_of in Hx as [->|Hx].
    + right. destruct (same_static_person s s0 p P) as (P0 & HP0 & HsP);
        [done..|].
      exists p, P0. split_and!; [by left|done|]. by injection HsP.
    + destruct (IH _ HT Hx) as [?|(q & Q & ? & ? & ?)]; [by left|right].
      exists q, Q. split_and!; [by right|done..].
  - rewrite list_lookup_insert_ne in HT' by done.
    destruct (IH _ HT' Hx) as [?|(q & Q & ? & ? & ?)]; [by left|right].
    exists q, Q. split_and!; [by right|done..].
Qed.

Section Vacancy.
Context {G : Type} `{RandomSource G}.
Implicit Types (m : machine G).

(** C7. No second win of the same theater in the backfill.  Run the
    initial lottery and then the vacancy lottery from a store in which
    nobody has won anything yet and the ids are distinct.  Then both
    return, and every registration of the vacancy lottery is for a person
    whom [hasConflict] cleared, whose wins did not hold the theater and who
    was not among the theater's holders, in the store of that
    registration.  (The filter only calls [hasConflict]; a theater that is
    already won conflicts with itself.) *)
Theorem backfill_never_reselects (maxOrders : nat) (vacancyFile : file) m :
  fresh (store m) -> unique_ids (store m) ->
  trace m = [] -> vacancyFile <> FileUnreadable ->
  exists m1 m' new,
    runInitialLottery (makeTheaterMap (theaters (store m))) maxOrders m = Ok m1
    /\ runVacancyLottery vacancyFile (makeTheaterMap (theaters (store m))) m1
       = Ok m'
    /\ trace m' = new ++ trace m1
    /\ chain (store m1) new (store m')
    /\ Forall (lottery_guard (makeTheaterMap (theaters (store m)))) new
    /\ Forall not_holding new.
Proof.
  intros [Hfp Hft] Hu Ht Hf.
  set (tm := makeTheaterMap (theaters (store m))).
  destruct m as [[ps ths] g tr]; simpl in *.
  pose proof (fresh_closed ps ths Hfp) as Hcl.
  pose proof (makeTheaterMap_exact ps ths (proj2 Hu)) as Hex.
  destruct (runInitialLottery_spec tm maxOrders (Machine (MkStore ps ths) g tr))
    as (m1 & Hrun1 & Hs1); [done|].
  assert (closed tm (store m1)) as Hcl1
    by (eapply (steps_closed _ tm (Machine (MkStore ps ths) g tr));
        [exact Hcl|exact Hs1]).
  destruct Hs1 as (tr1 & _ & Hch1 & _); simpl in *.
  destruct (chain_wellformed tm _ _ _ Hch1) as [(Hex1 & Hu1 & Hco1) _];
    [done..|by apply fresh_consistent|].
  destruct (runVacancyLottery_spec tm vacancyFile m1) as (m' & Hrun2 & Hs2);
    [done..|].
  destruct Hs2 as (new & Hnew & Hch2 & HG).
  exists m1, m', new. split_and!; [done..| |].
  - eapply Forall_impl; [done|]. intros e. apply guard_lottery_vacancy.
  - destruct (chain_wellformed tm _ _ _ Hch2) as [_ Hall]; [done..|].
    rewrite Forall_forall in HG. rewrite Forall_forall in Hall.
    apply Forall_forall. intros e He.
    destruct (Hall e.2) as (? & _ & ?); [by apply list_elem_of_fmap_2|].
    eapply guarded_not_holding; [done..|].
    eapply guard_lottery_vacancy. by apply HG.
Qed.

(** C5. Containment of the backfill.  [main] runs the vacancy lottery only
    if [enableVacancy] is set; without a file, or with an empty one, the
    vacancy lottery leaves the whole state as it is; and on a list of ids
    it returns, registers only persons whose id is on the list, and leaves
    every person whose id is not on the list with the same wins and as a
    holder of exactly the theaters as before. *)
Theorem backfill_containment (cfg : settings) (vacancyFile : file)
    (lines : list string) (tm : gmap string nat) m :
  closed tm (store m) ->
  (enableVacancy cfg = false ->
     runLotteries cfg vacancyFile tm m = runInitialLottery tm (maxOrders cfg) m)
  /\ runVacancyLottery FileMissing tm m = Ok m
  /\ runVacancyLottery (FileLines []) tm m = Ok m
  /\ exists m' new,
       runVacancyLottery (FileLines lines) tm m = Ok m'
       /\ trace m' = new ++ trace m
       /\ chain (store m) new (store m')
       /\ Forall (fun e => exists P, persons e.2 !! e.1.1 = Some P
                                     /\ person_id P ∈ lines) new
       /\ forall p P, persons (store m) !! p = Some P -> person_id P ∉ lines ->
            persons (store m') !! p = Some P
            /\ forall ti T', theaters (store m') !! ti = Some T' ->
                 exists T, theaters (store m) !! ti = Some T
                   /\ (person_id P ∈ theater_assigned T'
                       <-> person_id P ∈ theater_assigned T).
Proof.
  intros Hcl. split_and!; [|done..|].
  { intros Hoff. unfold runLotteries. rewrite Hoff.
    by destruct (runInitialLottery tm (maxOrders cfg) m). }
  destruct (runVacancyLottery_spec tm (FileLines lines) m) as (m' & Hrun & Hs);
    [done..|].
  destruct Hs as (new & Hnew & Hch & HG).
  destruct (vacancyCandidates_spec (set_from lines) (store m)) as [_ Hcands].
  assert (forall p, p ∈ new.*1.*1 ->
            exists P, persons (store m) !! p = Some P /\ person_id P ∈ lines)
    as Hreg.
  { intros p ([p' ti] & -> & Hp)%list_elem_of_fmap_1.
    apply list_elem_of_fmap_1 in Hp as ([[p'' ti'] s] & [= <- <-] & He).
    rewrite Forall_forall in HG. destruct (HG _ He) as (Hal & _).
    apply Hcands in Hal as (P & ? & Hin).
    apply (proj1 (set_from_elem_of _ _)) in Hin. eauto. }
  exists m', new. split_and!; [done..| |].
  - (* the registered persons, in the store of their registration *)
    assert (forall tr s, chain (store m) tr s ->
              (forall p, p ∈ tr.*1.*1 ->
                 exists P, persons (store m) !! p = Some P /\ person_id P ∈ lines) ->
              Forall (fun e => exists P, persons e.2 !! e.1.1 = Some P
                                         /\ person_id P ∈ lines) tr) as Hgen.
    { induction 1 as [|tr s p ti s' Hc IH Hg]; intros Hr; [done|].
      constructor; [|apply IH; intros; apply Hr; by right].
      destruct (Hr p) as (P & HP & Hin); [by left|]. simpl.
      destruct (same_static_person (store m) s p P) as (P' & HP' & HsP);
        [by eapply chain_static|done|].
      exists P'. split; [done|]. injection HsP as -> _. done. }
    by eapply Hgen.
  - intros p P HP Hnot.
    assert (p ∉ new.*1.*1) as Hp.
    { intros (P' & HP' & Hin)%Hreg. congruence. }
    split; [by rewrite (chain_person_other _ _ _ _ Hch Hp)|].
    intros ti T' HT'.
    destruct (same_static_theater (store m') (store m) ti T') as (T & HT & _);
      [symmetry; by eapply chain_static|done|].
    exists T. split; [done|]. split.
    + intros Hx.
      destruct (chain_holders_from _ _ _ _ _ _ Hch HT' Hx)
        as [(T0 & HT0 & ?)|(q & Q & Hq & HQ & Hid)]; [congruence|].
      destruct (Hreg q Hq) as (Q' & HQ' & Hin). congruence.
    + intros Hx. apply chain_grows in Hch as [[_ Hgt] _].
      destruct (Hgt ti T HT) as (T1 & HT1 & Hsub).
      assert (T1 = T') as -> by congruence. by apply Hsub.
Qed.
End Vacancy.

Lemma backfill_never_reselects_witness :
  exists m1 m' new,
    runInitialLottery (makeTheaterMap (theaters (store machineV))) 1 machineV
    = Ok m1
    /\ runVacancyLottery (FileLines ["P1"; "P2"]%string)
         (makeTheaterMap (theaters (store machineV))) m1 = Ok m'
    /\ trace m' = new ++ trace m1
    /\ chain (store m1) new (store m')
    /\ Forall (lottery_guard (makeTheaterMap (theaters (store machineV)))) new
    /\ Forall not_holding new.
Proof.
  apply backfill_never_reselects.
  - split; by repeat constructor.
  - split; by vm_compute; apply (bool_decide_unpack _).
  - reflexivity.
  - discriminate.
Defined.

Lemma backfill_containment_witness :
  (enableVacancy (Settings 2 false (Some 1)) = false ->
     runLotteries (Settings 2 false (Some 1)) FileMissing theaterMapA machineA
     = runInitialLottery theaterMapA (maxOrders (Settings 2 false (Some 1))) machineA)
  /\ runVacancyLottery FileMissing theaterMapA machineA = Ok machineA
  /\ runVacancyLottery (FileLines []) theaterMapA machineA = Ok machineA
  /\ exists m' new,
       runVacancyLottery (FileLines ["P2"]%string) theaterMapA machineA = Ok m'
       /\ trace m' = new ++ trace machineA
       /\ chain (store machineA) new (store m')
       /\ Forall (fun e => exists P, persons e.2 !! e.1.1 = Some P
                                     /\ person_id P ∈ ["P2"]%string) new
       /\ forall p P, persons (store machineA) !! p = Some P ->
            person_id P ∉ ["P2"]%string ->
            persons (store m') !! p = Some P
            /\ forall ti T', theaters (store m') !! ti = Some T' ->
                 exists T, theaters (store machineA) !! ti = Some T
                   /\ (person_id P ∈ theater_assigned T'
                       <-> person_id P ∈ theater_assigned T).
Proof.
  apply backfill_containment.
  apply fresh_closed. by repeat constructor.
Defined.

(** ** Rounds of the initial lottery *)

Lemma round_once (tm : gmap string nat) (rank : nat) (s0 s : Store)
    (tr : list event) :
  chain s0 tr s -> Forall (initial_guard tm rank) tr ->
  NoDup tr.*1.*1
  /\ forall p P0, persons s0 !! p = Some P0 ->
       exists P, persons s !! p = Some P /\ prefs P = prefs P0
         /\ (((p ∉ tr.*1.*1) /\ P = P0)
             \/ (p ∈ tr.*1.*1
                 /\ exists tid, prefs P0 !! rank = Some (Some tid)
                      /\ person_assigned P = person_assigned P0 ++ [tid])).
Proof.
  induction 1 as [|tr s q ti s' Hch IH Hg]; intros HG.
  { split; [constructor|]. intros p P0 HP0. exists P0. split_and!; [done..|].
    left. split; [|done]. by intros ?%elem_of_nil. }
  apply Forall_cons in HG as [(_ & Hk & _) HG]. simpl in Hk.
  apply wantsTheater_true in Hk as (Q & T & HQ & HT & Hpref & Hnot & _).
  destruct (IH HG) as [Hnd Hper]. clear IH.
  apply grant_Ok in Hg as (Q' & T' & HQ' & HT' & ->).
  assert (Q' = Q) as -> by congruence. assert (T' = T) as -> by congruence.
  (* [q] was not registered before in this round *)
  assert (q ∉ tr.*1.*1) as Hq.
  { intros Hin.
    destruct (same_static_person s s0 q Q) as (Q0 & HQ0 & _);
      [symmetry; by eapply chain_static|done|].
    destruct (Hper q Q0 HQ0) as (Q1 & HQ1 & Hpr & [[? _]|(_ & tid & Htid & Has)]);
      [done|].
    assert (Q1 = Q) as -> by congruence.
    apply Hnot. rewrite Has. apply elem_of_app. right.
    rewrite Hpr, Htid in Hpref. injection Hpref as ->. by left. }
  split; [simpl; by apply NoDup_cons|].
  intros p P0 HP0. destruct (Hper p P0 HP0) as (P & HP & Hpr & Hcase). simpl.
  destruct (decide (p = q)) as [->|Hne].
  - assert (P = Q) as -> by congruence.
    destruct Hcase as [[_ ->]|[? _]]; [|done].
    eexists. split; [apply list_lookup_insert_eq; by eapply lookup_lt_Some|].
    simpl. split; [done|]. right. split; [by left|].
    exists (theater_id T). split; [done|]. by apply set_add_new.
  - exists P. rewrite list_lookup_insert_ne by done. split_and!; [done..|].
    destruct Hcase as [[Hp ->]|[Hp Hex]]; [left|right].
    + split; [|done]. by apply not_elem_of_cons.
    + split; [by right|done].
Qed.

Section Rounds.
Context {G : Type} `{RandomSource G}.
Implicit Types (m : machine G).

Lemma initialRound_once (tm : gmap string nat) (rank : nat) m :
  closed tm (store m) ->
  exists m' new,
    initialRound rank tm m = Ok m'
    /\ trace m' = new ++ trace m
    /\ chain (store m) new (store m')
    /\ NoDup new.*1.*1
    /\ forall p P, persons (store m) !! p = Some P ->
         exists P', persons (store m') !! p = Some P'
           /\ (person_assigned P' = person_assigned P
               \/ exists tid, prefs P !! rank = Some (Some tid)
                    /\ person_assigned P' = person_assigned P ++ [tid]).
Proof.
  intros Hcl.
  destruct (initialRound_spec tm rank m Hcl) as (m' & Hrun & new & Hnew & Hch & HG).
  destruct (round_once tm rank _ _ _ Hch HG) as [Hnd Hper].
  exists m', new. split_and!; [done..|].
  intros p P HP. destruct (Hper p P HP) as (P' & HP' & _ & [[_ ->]|(_ & tid & ? & ?)]).
  - exists P. split; [done|by left].
  - exists P'. split; [done|right]. by exists tid.
Qed.

Lemma initialRanks_wins (tm : gmap string nat) (ranks : list nat) m :
  closed tm (store m) ->
  exists m',
    initialRanks ranks tm m = Ok m'
    /\ forall p P, persons (store m) !! p = Some P ->
         exists P', persons (store m') !! p = Some P'
           /\ (length (person_assigned P')
               <= length (person_assigned P) + length ranks)%nat.
Proof.
  revert m. induction ranks as [|rank ranks IH]; intros m Hcl; simpl.
  { exists m. split; [done|]. intros p P HP. exists P. split; [done|lia]. }
  destruct (allFull (store m)).
  { exists m. split; [done|]. intros p P HP. exists P. split; [done|lia]. }
  destruct (initialRound_once tm rank m Hcl)
    as (m1 & new & -> & Hnew & Hch & _ & Hper); simpl.
  destruct (IH m1) as (m' & -> & Hrest); [by eapply chain_closed|].
  exists m'. split; [done|]. intros p P HP.
  destruct (Hper p P HP) as (P1 & HP1 & Hlen1).
  destruct (Hrest p P1 HP1) as (P' & HP' & Hlen').
  exists P'. split; [done|].
  destruct Hlen1 as [Heq|(tid & _ & Heq)]; rewrite Heq in Hlen';
    [|rewrite length_app in Hlen'; simpl in Hlen']; lia.
Qed.

(** C10. One win per round.  A round of the initial lottery, started in any
    store whose wins and theater ids are keys of [theaterMap], returns;
    no person occurs in two of its registrations; each person's wins are
    afterwards what they were, or have grown by the one id that is the
    person's preference at the rank of the round.  Consequently the
    initial lottery, run from a store in which nobody has won anything
    yet, leaves every person with at most [maxOrders] wins. *)
Theorem one_win_per_round (tm : gmap string nat) (maxOrders rank : nat) m :
  closed tm (store m) ->
  (exists m' new,
     initialRound rank tm m = Ok m'
     /\ trace m' = new ++ trace m
     /\ chain (store m) new (store m')
     /\ NoDup new.*1.*1
     /\ forall p P, persons (store m) !! p = Some P ->
          exists P', persons (store m') !! p = Some P'
            /\ (person_assigned P' = person_assigned P
                \/ exists tid, prefs P !! rank = Some (Some tid)
                     /\ person_assigned P' = person_assigned P ++ [tid]))
  /\ (Forall (fun P => person_assigned P = []) (persons (store m)) ->
      exists m',
        runInitialLottery tm maxOrders m = Ok m'
        /\ Forall (fun P => (length (person_assigned P) <= maxOrders)%nat)
             (persons (store m'))).
Proof.
  intros Hcl. split; [by apply initialRound_once|].
  intros Hfresh. unfold runInitialLottery.
  destruct (initialRanks_wins tm (seq 0 maxOrders) m Hcl) as (m' & Hrun & Hwins).
  exists m'. split; [done|].
  assert (same_static (store m) (store m')) as Hst.
  { destruct (initialRanks_spec tm (seq 0 maxOrders) m Hcl) as (m2 & Hrun2 & Hs).
    assert (m2 = m') as -> by congruence. by eapply steps_static. }
  apply Forall_forall. intros P' [p HP']%list_elem_of_lookup.
  destruct (same_static_person (store m') (store m) p P') as (P & HP & _);
    [done..|].
  destruct (Hwins p P HP) as (P'' & HP'' & Hlen).
  assert (P'' = P') as -> by congruence.
  rewrite Forall_forall in Hfresh.
  rewrite (Hfresh P), length_seq in Hlen by (by eapply list_elem_of_lookup_2).
  simpl in Hlen. lia.
Qed.
End Rounds.

Lemma one_win_per_round_witness :
  (exists m' new,
     initialRound 0 theaterMapA machineA = Ok m'
     /\ trace m' = new ++ trace machineA
     /\ chain (store machineA) new (store m')
     /\ NoDup new.*1.*1
     /\ forall p P, persons (store machineA) !! p = Some P ->
          exists P', persons (store m') !! p = Some P'
            /\ (person_assigned P' = person_assigned P
                \/ exists tid, prefs P !! 0%nat = Some (Some tid)
                     /\ person_assigned P' = person_assigned P ++ [tid]))
  /\ (Forall (fun P => person_assigned P = []) (persons (store machineA)) ->
      exists m',
        runInitialLottery theaterMapA 2 machineA = Ok m'
        /\ Forall (fun P => (length (person_assigned P) <= 2)%nat)
             (persons (store m'))).
Proof.
  apply one_win_per_round.
  apply fresh_closed. by repeat constructor.
Defined.

(** ** The selection of winners *)

Lemma grant_registers (p ti : nat) (s s' : Store) :
  grant p ti s = Ok s' -> registered s' p ti.
Proof.
  intros (P & T & HP & HT & ->)%grant_Ok. unfold registered; simpl.
  do 2 eexists.
  rewrite !list_lookup_insert_eq by (by eapply lookup_lt_Some).
  split_and!; [done..| |]; simpl; apply set_add_elem_of; by left.
Qed.

Lemma grant_registered_mono (p ti q tj : nat) (s s' : Store) :
  registered s p ti -> grant q tj s = Ok s' -> registered s' p ti.
Proof.
  intros (P & T & HP & HT & Hw & Hh) Hg.
  pose proof (grant_static _ _ _ _ Hg) as Hst.
  apply grant_grows in Hg as [Hgp Hgt].
  destruct (Hgp p P HP) as (P' & HP' & HsubP).
  destruct (Hgt ti T HT) as (T' & HT' & HsubT).
  destruct (same_static_person s s' p P) as (P2 & HP2 & HsP); [done..|].
  destruct (same_static_theater s s' ti T) as (T2 & HT2 & HsT); [done..|].
  assert (P2 = P') as -> by congruence. assert (T2 = T') as -> by congruence.
  injection HsP as HidP _. apply tstatic_eq in HsT as (HidT & _).
  exists P', T'. rewrite HidP, HidT. split_and!; [done..| |]; auto.
Qed.

Lemma chain_registered (s0 s : Store) (tr : list event) (p ti : nat) :
  chain s0 tr s -> registered s0 p ti -> registered s p ti.
Proof.
  intros Hch Hr. induction Hch as [|tr s q tj s' _ IH Hg]; [done|].
  by eapply grant_registered_mono.
Qed.

Section SelectionStep.
Context {G : Type} `{RandomSource G}.
Implicit Types (m : machine G).

Lemma assignWinners_chain (winners : list nat) (ti : nat) m m' :
  assignWinners winners ti m = Ok m' ->
  exists new, trace m' = new ++ trace m /\ chain (store m) new (store m').
Proof.
  revert m. induction winners as [|p rest IH]; intros m Hrun; simpl in Hrun.
  - injection Hrun as <-. exists []. split; [done|constructor].
  - inv_ok Hrun. destruct (IH _ Hrun) as (new & Hnew & Hch); simpl in *.
    exists (new ++ [(p, ti, store m)]). split; [by rewrite Hnew, <- app_assoc|].
    eapply chain_app; [|done]. by repeat econstructor.
Qed.

Lemma assignWinners_registers (winners : list nat) (ti : nat) m m' :
  assignWinners winners ti m = Ok m' ->
  forall p, p ∈ winners -> registered (store m') p ti.
Proof.
  revert m. induction winners as [|q rest IH]; intros m Hrun p Hp; simpl in Hrun.
  { by apply elem_of_nil in Hp. }
  inv_ok Hrun. apply elem_of_cons in Hp as [->|Hp]; [|by eapply IH].
  apply assignWinners_chain in Hrun as (new & _ & Hch); simpl in *.
  eapply chain_registered; [done|]. by eapply grant_registers.
Qed.

Lemma countsLoop_chain (keep : Store -> nat -> nat -> result bool)
    (groups : list (nat * list nat)) (counts : list nat) (ti : nat)
    (seats : num) m m' :
  countsLoop keep groups counts ti seats m = Ok m' ->
  exists new, trace m' = new ++ trace m /\ chain (store m) new (store m').
Proof.
  revert seats m.
  induction counts as [|count rest IH]; intros seats m Hrun; simpl in Hrun.
  { injection Hrun as <-. exists []. split; [done|constructor]. }
  destruct (num_le0 seats).
  { injection Hrun as <-. exists []. split; [done|constructor]. }
  inv_ok Hrun. destruct a0 as [|c0 cands]; [by eapply IH|].
  destruct (pickWinners _ _ _) as [winners g']. inv_ok Hrun.
  apply assignWinners_chain in Ha1 as (new1 & Hnew1 & Hch1); simpl in *.
  destruct (IH _ _ Hrun) as (new2 & Hnew2 & Hch2).
  exists (new2 ++ new1). split; [by rewrite Hnew2, Hnew1, app_assoc|].
  by eapply chain_app.
Qed.

Lemma filterR_filter (f : nat -> result bool) (l l' : list nat) :
  filterR f l = Ok l' -> l' = filter (fun x => f x = Ok true) l.
Proof.
  revert l'. induction l as [|x l IH]; intros l' Hf; simpl in Hf.
  - by injection Hf as <-.
  - inv_ok Hf. rewrite (IH _ Ha0) in Hf. subst l'. destruct a.
    + by rewrite filter_cons_True.
    + rewrite filter_cons_False; [done|]. congruence.
Qed.

Lemma exchange_length {A : Type} (l : list A) (i j : nat) :
  length (exchange l i j) = length l.
Proof. apply length_imap. Qed.

(** Within the array, the exchange of the script is the exchange of the
    specification. *)
Lemma swap_exchange {A : Type} (l : list A) (i j : nat) :
  (i < length l)%nat -> (j < length l)%nat -> swap l i j = exchange l i j.
Proof.
  intros [ai Hi]%lookup_lt_is_Some_2 [aj Hj]%lookup_lt_is_Some_2.
  unfold swap, exchange. rewrite Hi, Hj. apply list_eq. intros k.
  rewrite list_lookup_imap. simpl.
  destruct (decide (k = j)) as [->|Hkj].
  - rewrite list_lookup_insert_eq
      by (rewrite length_insert; by eapply lookup_lt_Some).
    rewrite Hj. simpl. destruct (decide (j = i)) as [->|]; [|done].
    f_equal. congruence.
  - rewrite list_lookup_insert_ne by done.
    destruct (decide (k = i)) as [->|Hki].
    + rewrite list_lookup_insert_eq by (by eapply lookup_lt_Some).
      by rewrite Hi.
    + rewrite list_lookup_insert_ne by done. by destruct (l !! k).
Qed.

(** The loop of the script draws one number per step; on an array of up
    to 2^21 elements it computes the shuffle of the specification. *)
Lemma shuffleLoop_fisherYates {A : Type} (i : nat) (l : list A) (g : G) :
  (i < length l)%nat ->
  (shuffleLoop i l g).2 = after_draws i g
  /\ (Z.of_nat (length l) <= 2 ^ 21 ->
      (shuffleLoop i l g).1 = fisherYates i l (draws i g)).
Proof.
  revert l g. induction i as [|i IH]; intros l g Hi; [done|].
  cbn [shuffleLoop draws after_draws fisherYates].
  pose proof (random_range g) as Hu.
  pose proof (floor_times_bound (random g).1 (S i + 1) Hu ltac:(lia)) as Hj.
  destruct (random g) as [u g'] eqn:Hr. cbn [fst snd] in *.
  destruct (IH (swap l (S i) (floor_times u (S i + 1))) g') as [Hg Hl];
    [rewrite swap_length; lia|].
  split; [done|]. intros Hlen. rewrite swap_length in Hl.
  rewrite (Hl Hlen). rewrite swap_exchange by lia.
  rewrite floor_times_exact.
  - by replace (Z.of_nat (S i + 1)) with (Z.of_nat (S i) + 1) by lia.
  - unfold two32 in Hu.
    assert (Z.of_nat (S i + 1) <= 2 ^ 21) by lia.
    change (2 ^ 53) with (4294967296 * 2 ^ 21). change (2 ^ 21) with 2097152 in *.
    nia.
Qed.

(** C4. Selection of the winners.  On an array [candidates] of the heap
    with elements [l] and for [seats >= 0], [pickWinners] returns; no
    array that existed is written, so the candidates still read [l]; the
    array returned holds what [pickWinners] on values computes.  If there
    are at most [seats] candidates, it is the array of the candidates
    itself and no random number is drawn.  Otherwise it is a new array
    with the first [seats] elements of the shuffled copy, which is a
    permutation of the candidates.  The shuffle draws one number for
    each position from the last down to the second, and every index it
    computes from a number lies within the part of the array still to be
    shuffled; on an array of up to 2^21 elements, where the product of
    the script is exact, the shuffled copy is the Fisher-Yates shuffle of
    the specification on the numbers drawn.  In a step of a lottery in
    which the callback of the filter accepts at most [seats] persons of
    the bucket, every person of the bucket whom it accepts is registered
    with the theater. *)
Theorem pickWinners_selection {A : Type} (h : list (list A)) (candidates : nat)
    (l : list A) (seats : Z) (g : G) :
  h !! candidates = Some l -> 0 <= seats ->
  (exists winners g' h',
     Ref.pickWinners candidates (Num seats) g h = Some (winners, g', h')
     /\ (forall r, (r < length h)%nat -> h' !! r = h !! r)
     /\ h' !! candidates = Some l
     /\ h' !! winners = Some (pickWinners l (Num seats) g).1
     /\ g' = (pickWinners l (Num seats) g).2
     /\ (Z.of_nat (length l) <= seats ->
         winners = candidates /\ h' = h /\ pickWinners l (Num seats) g = (l, g))
     /\ (seats < Z.of_nat (length l) ->
         h !! winners = None
         /\ (createShuffledArray l g).1 ≡ₚ l
         /\ (pickWinners l (Num seats) g).1
            = take (Z.to_nat seats) (createShuffledArray l g).1
         /\ length (pickWinners l (Num seats) g).1 = Z.to_nat seats))
  /\ (createShuffledArray l g).2 = after_draws (length l - 1) g
  /\ (forall (u : Z) (i : nat),
        0 <= u < two32 ->
        (floor_times u (i + 1) <= i)%nat
        /\ (Z.of_nat i < 2 ^ 21 ->
            Z.of_nat (floor_times u (i + 1)) = u * (Z.of_nat i + 1) / 2 ^ 32))
  /\ (Z.of_nat (length l) <= 2 ^ 21 ->
      (createShuffledArray l g).1
      = fisherYates (length l - 1) l (draws (length l - 1) g))
  /\ (forall keep groups count rest bucket ti m m',
        groups_get groups count = Some bucket ->
        Z.of_nat (length (filter (fun p => keep (store m) ti p = Ok true) bucket))
        <= seats ->
        countsLoop keep groups (count :: rest) ti (Num seats) m = Ok m' ->
        forall p, p ∈ bucket -> keep (store m) ti p = Ok true ->
                  registered (store m') p ti).
Proof.
  intros Hl Hseats. split_and!.
  - unfold Ref.pickWinners, pickWinners. rewrite Hl; simpl.
    destruct (Z.leb_spec (Z.of_nat (length l)) seats) as [Hle|Hgt].
    + exists candidates, g, h. split_and!; try done. intros; lia.
    + rewrite (Ref_createShuffledArray_spec _ _ _ l Hl); simpl.
      unfold Ref.slice. rewrite lookup_app_r, Nat.sub_diag by lia; simpl.
      pose proof (createShuffledArray_perm l g) as Hperm.
      destruct (createShuffledArray l g) as [sh g'] eqn:Hsh; simpl in *.
      destruct (Z.ltb_spec seats 0); [lia|].
      do 3 eexists. split; [done|]. split_and!.
      * intros r Hr. by rewrite <- app_assoc, lookup_app_l.
      * rewrite <- app_assoc, lookup_app_l; [done|by eapply lookup_lt_Some].
      * by rewrite lookup_app_r, Nat.sub_diag.
      * done.
      * intros; lia.
      * intros _. split_and!; [|done..|].
        -- rewrite length_app; simpl. apply lookup_ge_None. lia.
        -- rewrite length_take. apply Permutation_length in Hperm. lia.
  - unfold createShuffledArray. destruct l as [|a l']; [done|].
    apply shuffleLoop_fisherYates. simpl. lia.
  - intros u i Hu. split.
    + pose proof (floor_times_bound u (i + 1) Hu ltac:(lia)). lia.
    + intros Hi. rewrite floor_times_exact.
      * rewrite Z2Nat.id.
        -- by replace (Z.of_nat (i + 1)) with (Z.of_nat i + 1) by lia.
        -- apply Z.div_pos; [nia|reflexivity].
      * unfold two32 in Hu.
        change (2 ^ 53) with (4294967296 * 2 ^ 21).
        change (2 ^ 21) with 2097152 in *. nia.
  - intros Hlen. unfold createShuffledArray. destruct l as [|a l']; [done|].
    apply shuffleLoop_fisherYates; [simpl; lia|done].
  - intros keep groups count rest bucket ti m m' Hb Hlen Hrun p Hp Hk.
    simpl in Hrun.
    rewrite Hb in Hrun; cbn [deref result_bind] in Hrun.
    destruct (Z.leb_spec seats 0) as [H0|H0].
    { assert (filter (fun p => keep (store m) ti p = Ok true) bucket = []) as Hnil
        by (apply length_zero_iff_nil; lia).
      assert (p ∈ filter (fun p => keep (store m) ti p = Ok true) bucket) as Hin
        by (by apply list_elem_of_filter).
      rewrite Hnil in Hin. by apply elem_of_nil in Hin. }
    inv_ok Hrun. rename a into cands.
    pose proof (filterR_filter _ _ _ Ha) as ->.
    set (cands := filter (fun p => keep (store m) ti p = Ok true) bucket) in *.
    assert (p ∈ cands) as Hpc by (by apply list_elem_of_filter).
    assert (pickWinners cands (Num seats) (gen m) = (cands, gen m)) as Hpw.
    { unfold pickWinners; simpl.
      by destruct (Z.leb_spec (Z.of_nat (length cands)) seats); [|lia]. }
    destruct cands as [|c0 cands'] eqn:Hc; [by apply elem_of_nil in Hpc|].
    rewrite Hpw in Hrun. inv_ok Hrun.
    apply countsLoop_chain in Hrun as (new & _ & Hch).
    eapply chain_registered; [done|].
    by eapply assignWinners_registers.
Qed.
End SelectionStep.

Lemma pickWinners_selection_witness :
  (exists winners g' h',
     Ref.pickWinners 0 (Num 2) (createSeededRandom 1) [[10; 20; 30]%nat]
     = Some (winners, g', h')
     /\ (forall r, (r < length [[10; 20; 30]%nat])%nat ->
           h' !! r = [[10; 20; 30]%nat] !! r)
     /\ h' !! 0%nat = Some [10; 20; 30]%nat
     /\ h' !! winners
        = Some (pickWinners [10; 20; 30]%nat (Num 2) (createSeededRandom 1)).1
     /\ g' = (pickWinners [10; 20; 30]%nat (Num 2) (createSeededRandom 1)).2
     /\ (Z.of_nat (length [10; 20; 30]%nat) <= 2 ->
         winners = 0%nat /\ h' = [[10; 20; 30]%nat]
         /\ pickWinners [10; 20; 30]%nat (Num 2) (createSeededRandom 1)
            = ([10; 20; 30]%nat, createSeededRandom 1))
     /\ (2 < Z.of_nat (length [10; 20; 30]%nat) ->
         [[10; 20; 30]%nat] !! winners = None
         /\ (createShuffledArray [10; 20; 30]%nat (createSeededRandom 1)).1
            ≡ₚ [10; 20; 30]%nat
         /\ (pickWinners [10; 20; 30]%nat (Num 2) (createSeededRandom 1)).1
            = take (Z.to_nat 2)
                (createShuffledArray [10; 20; 30]%nat (createSeededRandom 1)).1
         /\ length (pickWinners [10; 20; 30]%nat (Num 2) (createSeededRandom 1)).1
            = Z.to_nat 2))
  /\ (createShuffledArray [10; 20; 30]%nat (createSeededRandom 1)).2
     = after_draws (length [10; 20; 30]%nat - 1) (createSeededRandom 1)
  /\ (forall (u : Z) (i : nat),
        0 <= u < two32 ->
        (floor_times u (i + 1) <= i)%nat
        /\ (Z.of_nat i < 2 ^ 21 ->
            Z.of_nat (floor_times u (i + 1)) = u * (Z.of_nat i + 1) / 2 ^ 32))
  /\ (Z.of_nat (length [10; 20; 30]%nat) <= 2 ^ 21 ->
      (createShuffledArray [10; 20; 30]%nat (createSeededRandom 1)).1
      = fisherYates (length [10; 20; 30]%nat - 1) [10; 20; 30]%nat
          (draws (length [10; 20; 30]%nat - 1) (createSeededRandom 1)))
  /\ (forall keep groups count rest bucket ti (m m' : machine xorshift),
        groups_get groups count = Some bucket ->
        Z.of_nat (length (filter (fun p => keep (store m) ti p = Ok true) bucket))
        <= 2 ->
        countsLoop keep groups (count :: rest) ti (Num 2) m = Ok m' ->
        forall p, p ∈ bucket -> keep (store m) ti p = Ok true ->
                  registered (store m') p ti).
Proof.
  apply (pickWinners_selection [[10; 20; 30]%nat] 0 [10; 20; 30]%nat 2
           (createSeededRandom 1)).
  - reflexivity.
  - lia.
Defined.

(** ** Validation *)

Lemma unknownTheaterGuard_false (theaterId : option string)
    (theaterIdSet : list string) :
  unknownTheaterGuard theaterId theaterIdSet = false.
Proof.
  unfold unknownTheaterGuard, truthy.
  destruct theaterId as [s|]; [|done].
  destruct (bool_decide_reflect (s = EmptyString)) as [->|Hne]; simpl; [done|].
  rewrite bool_decide_eq_false_2; [done|]. congruence.
Qed.

Lemma checkColumns_Ok (order : row) (indices : list nat)
    (theaterIdSet : list string) :
  checkColumns order indices theaterIdSet = Ok tt.
Proof.
  induction indices as [|i indices IH]; simpl; [done|].
  by rewrite unknownTheaterGuard_false.
Qed.

Lemma checkOrders_Ok (orders : list row) (maxOrders : nat)
    (theaterIdSet : list string) :
  checkOrders orders maxOrders theaterIdSet = Ok tt.
Proof.
  induction orders as [|order orders IH]; simpl; [done|].
  by rewrite checkColumns_Ok.
Qed.

(** C8. The check of the preferences against the theater ids is inert.
    When the person ids pass the check for duplicates,
    [loadAndValidateOrders] returns the orders, whatever the preferences
    and the known theater ids are: the guard of the check is false for
    every value, the empty string and [undefined] included. *)
Theorem orders_foreign_key_inert (orders : list row) (maxOrders : nat)
    (theaterIdSet : list string) :
  length (set_from (map col0 orders)) = length (map col0 orders) ->
  loadAndValidateOrders orders maxOrders theaterIdSet = Ok orders
  /\ (forall personId theaterId,
        loadAndValidateOrders orders maxOrders theaterIdSet
        <> Abort (Exit (UnknownTheaterId personId theaterId)))
  /\ forall theaterId : option string,
       unknownTheaterGuard theaterId theaterIdSet = false.
Proof.
  intros Hids. unfold loadAndValidateOrders.
  destruct (decide _) as [Hdup|_]; [done|].
  rewrite checkOrders_Ok; simpl. split_and!; [done..|].
  intros. apply unknownTheaterGuard_false.
Qed.

Lemma orders_foreign_key_inert_witness :
  loadAndValidateOrders ordersA 2 [] = Ok ordersA
  /\ (forall personId theaterId,
        loadAndValidateOrders ordersA 2 []
        <> Abort (Exit (UnknownTheaterId personId theaterId)))
  /\ forall theaterId : option string, unknownTheaterGuard theaterId [] = false.
Proof.
  apply orders_foreign_key_inert. reflexivity.
Defined.

(** ** The seed *)

Lemma resolveSeed_given (s now : Z) :
  s <> 0 -> resolveSeed (Some s) now = (s, None).
Proof. intros Hs. unfold resolveSeed. by destruct (decide (s = 0)). Qed.

Lemma resolveSeed_absent (now : Z) : resolveSeed None now = (now, Some now).
Proof. done. Qed.

(** With a seed other than 0 in the settings, the clock has no influence on
    a run. *)
Lemma main_clock_independent (parseInt10 : option string -> num)
    (passedFirst : list (string * list string) -> nat -> bool)
    (mo : nat) (ev : bool) (s now1 now2 : Z) (thf orf : list row) (vf : file) :
  s <> 0 ->
  main parseInt10 passedFirst (Settings mo ev (Some s)) now1 thf orf vf
  = main parseInt10 passedFirst (Settings mo ev (Some s)) now2 thf orf vf.
Proof. intros Hs. unfold main. cbn [seed]. by rewrite !resolveSeed_given. Qed.

(** C9, as the script behaves: a seed 0 in the settings is replaced.  The
    generator is seeded with the clock value, which is printed with the
    message that no seed was given. *)
Theorem zero_seed_is_replaced (parseInt10 : option string -> num)
    (passedFirst : list (string * list string) -> nat -> bool)
    (mo : nat) (ev : bool) (now : Z) (thf orf : list row) (vf : file) :
  resolveSeed (Some 0) now = (now, Some now)
  /\ reportedSeed
       (main parseInt10 passedFirst (Settings mo ev (Some 0)) now thf orf vf)
     = Some now
  /\ main parseInt10 passedFirst (Settings mo ev (Some 0)) now thf orf vf
     = main parseInt10 passedFirst (Settings mo ev None) now thf orf vf.
Proof. done. Qed.

(** C3, as the script behaves: two runs on the same files and the same
    settings with the seed 0, at two different times, end with different
    holders. *)
Theorem zero_seed_runs_differ
    (passedFirst : list (string * list string) -> nat -> bool) :
  final_holders
    (main parseDigits passedFirst settingsC 1700000000000 theatersC ordersC
       FileMissing)
  = Some [("R1", ["P2"])]%string
  /\ final_holders
       (main parseDigits passedFirst settingsC 1702147483648 theatersC ordersC
          FileMissing)
     = Some [("R1", ["P3"])]%string.
Proof. split; by vm_compute. Qed.

(** ** [main] and the hypotheses of the theorems above *)

Lemma set_add_fold_length (l acc : list string) :
  (length (fold_left (fun s y => set_add y s) l acc) <= length acc + length l)%nat.
Proof.
  revert acc. induction l as [|x l IH]; intros acc; simpl; [lia|].
  pose proof (IH (set_add x acc)). pose proof (set_add_length x acc). lia.
Qed.

Lemma set_add_fold_NoDup (l acc : list string) :
  NoDup acc ->
  length (fold_left (fun s y => set_add y s) l acc) = (length acc + length l)%nat ->
  NoDup (acc ++ l).
Proof.
  revert acc. induction l as [|x l IH]; intros acc Hnd Hlen; simpl in *.
  { by rewrite app_nil_r. }
  destruct (decide (x ∈ acc)) as [Hin|Hnot].
  - assert (set_add x acc = acc) as Heq
      by (unfold set_add; by rewrite decide_True).
    rewrite Heq in Hlen. pose proof (set_add_fold_length l acc). lia.
  - rewrite set_add_new in Hlen by done.
    rewrite (assoc_L (++) acc [x] l : acc ++ x :: l = (acc ++ [x]) ++ l).
    apply IH.
    + apply NoDup_app. split_and!; [done| |apply NoDup_singleton].
      by intros y Hy ->%list_elem_of_singleton.
    + rewrite Hlen, length_app. simpl. lia.
Qed.

(** The check for duplicates of the two validation functions accepts the
    arrays without repetition. *)
Lemma set_from_length_NoDup (l : list string) :
  length (set_from l) = length l -> NoDup l.
Proof. intros Hlen. by apply (set_add_fold_NoDup l []); [constructor|]. Qed.

Lemma makePerson_ids (maxOrders : nat) (orders : list row) :
  person_id <$> map (makePerson maxOrders) orders = map col0 orders.
Proof. induction orders as [|r orders IH]; [done|]. simpl. by f_equal. Qed.

Lemma makeTheater_ids (parseInt10 : option string -> num) (thf : list row) :
  theater_id <$> map (makeTheater parseInt10) thf = map col0 thf.
Proof. induction thf as [|r thf IH]; [done|]. simpl. by f_equal. Qed.

(** When both tables pass their check for duplicates, [main] runs the
    lotteries from a store in which nobody has won anything yet and the
    ids are distinct, with an empty trace, and then writes the results. *)
Lemma main_allocation (parseInt10 : option string -> num)
    (passedFirst : list (string * list string) -> nat -> bool) (cfg : settings)
    (now : Z) (thf orf : list row) (vf : file) :
  length (set_from (map col0 thf)) = length (map col0 thf) ->
  length (set_from (map col0 orf)) = length (map col0 orf) ->
  let s := MkStore (map (makePerson (maxOrders cfg)) orf)
             (map (makeTheater parseInt10) thf) in
  outcome (main parseInt10 passedFirst cfg now thf orf vf)
  = (let* m := runLotteries cfg vf (makeTheaterMap (theaters s))
                 (Machine s (createSeededRandom (resolveSeed (seed cfg) now).1) []) in
     let* _ := writeResults passedFirst (store m) in
     Ok m)
  /\ fresh s /\ unique_ids s.
Proof.
  intros Hth Hor s. split_and!.
  - unfold main. destruct (resolveSeed (seed cfg) now) as [used rep]; simpl.
    unfold loadAndValidateTheaters, loadAndValidateOrders.
    destruct (decide _) as [?|_]; [done|]. simpl.
    destruct (decide _) as [?|_]; [done|]. simpl.
    by rewrite checkOrders_Ok.
  - split; apply Forall_forall; intros x (y & -> & _)%list_elem_of_fmap_1; done.
  - split; simpl.
    + rewrite makePerson_ids. by apply set_from_length_NoDup.
    + rewrite makeTheater_ids. by apply set_from_length_NoDup.
Qed.

(** A run that reaches the end has run the lotteries and written the
    results. *)
Lemma main_Ok (parseInt10 : option string -> num)
    (passedFirst : list (string * list string) -> nat -> bool) (cfg : settings)
    (now : Z) (thf orf : list row) (vf : file) (m' : machine xorshift) :
  length (set_from (map col0 thf)) = length (map col0 thf) ->
  length (set_from (map col0 orf)) = length (map col0 orf) ->
  outcome (main parseInt10 passedFirst cfg now thf orf vf) = Ok m' ->
  let s := MkStore (map (makePerson (maxOrders cfg)) orf)
             (map (makeTheater parseInt10) thf) in
  runLotteries cfg vf (makeTheaterMap (theaters s))
    (Machine s (createSeededRandom (resolveSeed (seed cfg) now).1) []) = Ok m'
  /\ writeResults passedFirst (store m') = Ok tt.
Proof.
  intros Hth Hor Hout s.
  destruct (main_allocation parseInt10 passedFirst cfg now thf orf vf Hth Hor)
    as (Hrun & _).
  rewrite Hrun in Hout. inv_ok Hout. subst a. by destruct a0.
Qed.

(** Otherwise [main] stops before any lottery. *)
Lemma main_rejects_duplicates (parseInt10 : option string -> num)
    (passedFirst : list (string * list string) -> nat -> bool)
    (cfg : settings) (now : Z) (thf orf : list row) (vf : file) :
  length (set_from (map col0 thf)) <> length (map col0 thf)
  \/ length (set_from (map col0 orf)) <> length (map col0 orf) ->
  exists r,
    outcome (main parseInt10 passedFirst cfg now thf orf vf) = Abort (Exit r).
Proof.
  intros Hdup. unfold main.
  destruct (resolveSeed (seed cfg) now) as [used rep]; simpl.
  unfold loadAndValidateTheaters, loadAndValidateOrders.
  destruct (decide _) as [?|Hth]; [by eexists|]. simpl.
  destruct (decide _) as [?|Hor]; [by eexists|].
  destruct Hdup; done.
Qed.


(** The three invariants, for every run of [main] that reaches the end:
    they hold in every store the run went through. *)
Lemma main_invariants (parseInt10 : option string -> num)
    (passedFirst : list (string * list string) -> nat -> bool) (cfg : settings)
    (now : Z) (thf orf : list row) (vf : file) (m' : machine xorshift) :
  outcome (main parseInt10 passedFirst cfg now thf orf vf) = Ok m' ->
  Forall conflict_free (visited m')
  /\ Forall consistent (visited m')
  /\ (Forall (fun r => exists c, parseInt10 (col r 3) = Num c /\ 0 <= c) thf ->
      Forall capacity_ok (visited m')).
Proof.
  intros Hout.
  destruct (decide (length (set_from (map col0 thf)) = length (map col0 thf)))
    as [Hth|Hth];
    [|destruct (main_rejects_duplicates parseInt10 passedFirst cfg now thf orf vf)
        as [r Hr]; [by left|congruence]].
  destruct (decide (length (set_from (map col0 orf)) = length (map col0 orf)))
    as [Hor|Hor];
    [|destruct (main_rejects_duplicates parseInt10 passedFirst cfg now thf orf vf)
        as [r Hr]; [by right|congruence]].
  destruct (main_allocation parseInt10 passedFirst cfg now thf orf vf Hth Hor)
    as (_ & [Hfp Hft] & Hu).
  apply main_Ok in Hout as [Hout _]; [|done..].
  set (ps := map (makePerson (maxOrders cfg)) orf) in *.
  set (ths := map (makeTheater parseInt10) thf) in *.
  set (m := Machine (MkStore ps ths) _ _) in *. simpl in *.
  pose proof (fresh_closed ps ths Hfp) as Hcl.
  assert (steps (lottery_guard (makeTheaterMap ths)) m m') as Hs.
  { destruct (enableVacancy cfg) eqn:Hev;
      [destruct (decide (vf = FileUnreadable)) as [->|Hvf]|].
    - by rewrite (runLotteries_unreadable cfg (makeTheaterMap ths) m) in Hout.
    - destruct (runLotteries_spec cfg vf (makeTheaterMap ths) m)
        as (m2 & Hm2 & Hs); [done..|congruence].
    - destruct (runLotteries_spec cfg vf (makeTheaterMap ths) m)
        as (m2 & Hm2 & Hs); [done|by rewrite Hev|congruence]. }
  split_and!.
  - eapply (run_conflict_free (makeTheaterMap ths) m); [| |done..].
    + by apply makeTheaterMap_exact, Hu.
    + by apply fresh_conflict_free.
  - eapply (run_consistent _ m); [done| |done..]. by apply fresh_consistent.
  - intros Hcap.
    eapply (run_capacity_ok (makeTheaterMap ths) m); [|done..].
    apply fresh_capacity_ok. apply Forall_forall.
    intros T (r & -> & Hr)%list_elem_of_fmap_1. split; [done|].
    rewrite Forall_forall in Hcap. by apply Hcap.
Qed.

(** ** Examples *)

(** The first numerators that the generator seeded with 1 returns. *)
Example xorshift_seed_1 :
  let g0 := createSeededRandom 1 in
  let (u1, g1) := random g0 in
  let (u2, g2) := random g1 in
  let (u3, _) := random g2 in
  [u1; u2; u3] = [652891761; 504896052; 1868121553].
Proof. reflexivity. Qed.

(** Scenario A: each of the two theaters ends with one holder, and each
    person with one win. *)
Example scenarioA_run
    (passedFirst : list (string * list string) -> nat -> bool) :
  final_holders
    (main parseDigits passedFirst (Settings 2 false (Some 1)) 0 theatersA ordersA
       FileMissing)
  = Some [("R1", ["P2"]); ("R2", ["P1"])]%string.
Proof. by vm_compute. Qed.

(** Scenario B: R1 and R3 share the time slot, so the person who wants both
    wins R1 only, with or without the vacancy lottery. *)
Example scenarioB_run
    (passedFirst : list (string * list string) -> nat -> bool) :
  let theatersB := [Row "R1" ["morning"; "playX"; "2"];
                    Row "R3" ["morning"; "playZ"; "2"]]%string in
  let ordersB := [Row "P3" ["R1"; "R3"]]%string in
  final_holders
    (main parseDigits passedFirst (Settings 2 false (Some 1)) 0 theatersB ordersB
       FileMissing)
  = Some [("R1", ["P3"]); ("R3", [])]%string
  /\ final_holders
       (main parseDigits passedFirst (Settings 2 true (Some 1)) 0 theatersB
          ordersB (FileLines ["P3"]%string))
     = Some [("R1", ["P3"]); ("R3", [])]%string.
Proof. split; by vm_compute. Qed.

(** The draws behind [zero_seed_runs_differ].  With the clock at
    1700000000000 the shuffle of the three candidates draws the indices 0
    and 0: P1 P2 P3 becomes P3 P2 P1, then P2 P3 P1.  With the clock at
    1702147483648 it draws 1 and 0: P1 P3 P2, then P3 P1 P2. *)
Example zero_seed_draws :
  let draws (now : Z) :=
    let (u1, g1) := random (createSeededRandom now) in
    let (u2, _) := random g1 in
    (toInt32 now, u1, floor_times u1 3, u2, floor_times u2 2) in
  draws 1700000000000 = (-807049216, 384878476, 0%nat, 771919306, 0%nat)
  /\ draws 1702147483648 = (1340434432, 1762604940, 1%nat, 1375564341, 0%nat).
Proof. split; reflexivity. Qed.

(** The shuffle of five elements with the generator seeded with 1: the
    indices drawn are 0, 0, 1 and 0. *)
Example shuffle_seed_1 :
  (createShuffledArray [10; 20; 30; 40; 50]%nat (createSeededRandom 1)).1
  = [30; 40; 20; 50; 10]%nat
  /\ fisherYates 4 [10; 20; 30; 40; 50]%nat (draws 4 (createSeededRandom 1))
     = [30; 40; 20; 50; 10]%nat.
Proof. split; reflexivity. Qed.

(** Beyond 2^53 the product of the script is rounded: for the numerator
    4294785079 and 2097785 elements it is the next integer above the
    exact quotient. *)
Example floor_times_rounds :
  round53 (4294785079 * 2097785) / two32 = 2097696
  /\ 4294785079 * 2097785 / two32 = 2097695.
Proof. split; reflexivity. Qed.

(** Scenario D: each person is refused, in the second round, the theater
    that shares the time slot of the one they hold, although it has a
    seat, and ends with two wins that differ in time slot and play.  The
    vacancy lottery then finds nobody for the two seats left: everybody
    holds R1 or R3, which share the time slot. *)
Example scenarioD_run :
  match runLotteries (Settings 3 true (Some 1)) (FileLines ["P1"; "P2"]%string)
          (makeTheaterMap (theaters (store machineD))) machineD with
  | Ok m => Some ((trace m).*1, person_assigned <$> persons (store m))
  | Abort _ => None
  end
  = Some ([(1, 1); (0, 1); (1, 2); (0, 0)]%nat,
          [["R1"; "R2"]; ["R3"; "R2"]]%string).
Proof. by vm_compute. Qed.

(** Scenario V: the initial lottery gives R1 to P1 and R2 to P2; the
    vacancy lottery then registers P2 with R1 and P1 with R2. *)
Example scenarioV_run :
  match runInitialLottery (makeTheaterMap (theaters (store machineV))) 1 machineV
  with
  | Ok m1 =>
      match runVacancyLottery (FileLines ["P1"; "P2"]%string)
              (makeTheaterMap (theaters (store machineV))) m1 with
      | Ok m => Some ((trace m1).*1, (trace m).*1,
                      theater_assigned <$> theaters (store m))
      | Abort _ => None
      end
  | Abort _ => None
  end
  = Some ([(1, 1); (0, 0)]%nat,
          [(0, 1); (1, 0); (1, 1); (0, 0)]%nat,
          [["P1"; "P2"]; ["P2"; "P1"]]%string).
Proof. by vm_compute. Qed.

(** Scenario N: the theater without a number for its capacity and the
    theater with the capacity 0 get nobody, though both are asked for. *)
Example scenarioN_run :
  match runLotteries (Settings 3 true (Some 1)) (FileLines ["P1"; "P2"]%string)
          (makeTheaterMap (theaters (store machineN))) machineN with
  | Ok m => Some ((trace m).*1,
                  (fun T => (capacity T, theater_assigned T)) <$> theaters (store m))
  | Abort _ => None
  end
  = Some ([(1, 2)]%nat, [(NaN, []); (Num 0, []); (Num 1, ["P2"]%string)]).
Proof. by vm_compute. Qed.

(** * Further properties *)

(** ** The buckets of [groupByAssignedCount] *)

Lemma push_group_get (count p : nat) (groups : list (nat * list nat)) (c : nat) :
  groups_get (push_group count p groups) c
  = if decide (c = count)
    then Some (default [] (groups_get groups c) ++ [p])
    else groups_get groups c.
Proof.
  induction groups as [|[c' b'] groups IH]; simpl.
  - destruct (decide (count = c)), (decide (c = count)); by simplify_eq.
  - destruct (decide (c' = count)) as [->|Hne]; simpl.
    + destruct (decide (count = c)), (decide (c = count)); by simplify_eq.
    + destruct (decide (c' = c)) as [->|Hne']; [by rewrite decide_False|].
      apply IH.
Qed.

Lemma push_group_keys (count p : nat) (groups : list (nat * list nat)) :
  (push_group count p groups).*1
  = if decide (count ∈ groups.*1) then groups.*1 else groups.*1 ++ [count].
Proof.
  induction groups as [|[c' b'] groups IH].
  - destruct (decide (count ∈ [].*1)) as [Hin|_]; [|done].
    by apply elem_of_nil in Hin.
  - simpl push_group. rewrite !fmap_cons. simpl fst.
    destruct (decide (c' = count)) as [->|Hne].
    + rewrite fmap_cons. simpl fst.
      destruct (decide (count ∈ count :: groups.*1)) as [_|Hn]; [done|].
      destruct Hn. by left.
    + rewrite fmap_cons, IH. simpl fst.
      destruct (decide (count ∈ groups.*1)) as [Hin|Hnot];
        destruct (decide (count ∈ c' :: groups.*1)) as [Hin'|Hnot']; try done.
      * destruct Hnot'. by right.
      * apply elem_of_cons in Hin' as [?|?]; by simplify_eq.
Qed.

Lemma groups_get_None (groups : list (nat * list nat)) (c : nat) :
  groups_get groups c = None <-> c ∉ groups.*1.
Proof.
  induction groups as [|[c' b'] groups IH]; simpl.
  - split; [by intros _ ?%elem_of_nil|done].
  - destruct (decide (c' = c)) as [->|Hne].
    + split; [done|]. intros Hn. destruct Hn. by left.
    + rewrite IH, not_elem_of_cons. split; [by intros ?|by intros [_ ?]].
Qed.

Lemma filter_snoc_count (st : Store) (seen : list nat) (p c : nat) :
  filter (fun q => win_count st q = c) (seen ++ [p])
  = filter (fun q => win_count st q = c) seen
    ++ (if decide (win_count st p = c) then [p] else []).
Proof.
  rewrite filter_app. by f_equal.
Qed.

Lemma push_group_buckets_of (st : Store) (seen : list nat) (p : nat)
    (groups : list (nat * list nat)) :
  buckets_of st seen groups ->
  buckets_of st (seen ++ [p]) (push_group (win_count st p) p groups).
Proof.
  intros [Hnd Hget]. split.
  - rewrite push_group_keys. destruct (decide _) as [|Hnot]; [done|].
    apply NoDup_app. split_and!; [done| |apply NoDup_singleton].
    by intros x Hx ->%list_elem_of_singleton.
  - intros c. rewrite push_group_get, filter_snoc_count, Hget.
    destruct (decide (c = win_count st p)) as [->|Hne].
    + rewrite decide_True by done.
      destruct (filter _ seen) as [|q b]; simpl; done.
    + rewrite decide_False by done. by rewrite app_nil_r.
Qed.

Lemma groupLoop_buckets_of (ps : list nat) (st : Store)
    (groups : list (nat * list nat)) (seen : list nat) :
  (forall p, p ∈ ps -> (p < length (persons st))%nat) ->
  buckets_of st seen groups ->
  exists groups',
    groupLoop ps st groups = Ok groups' /\ buckets_of st (seen ++ ps) groups'.
Proof.
  revert groups seen.
  induction ps as [|p ps IH]; intros groups seen Hlt Hb; simpl.
  - exists groups. by rewrite app_nil_r.
  - destruct (lookup_lt_is_Some_2 (persons st) p) as [P HP]; [apply Hlt; by left|].
    rewrite HP; simpl.
    destruct (IH (push_group (length (person_assigned P)) p groups) (seen ++ [p]))
      as (groups' & -> & Hb').
    + intros q Hq. apply Hlt. by right.
    + replace (length (person_assigned P)) with (win_count st p)
        by (unfold win_count; by rewrite HP).
      by apply push_group_buckets_of.
    + exists groups'. split; [done|]. by rewrite <- app_assoc in Hb'.
Qed.

Lemma StronglySorted_le_NoDup_lt (l : list nat) :
  StronglySorted Nat.le l -> NoDup l -> StronglySorted lt l.
Proof.
  induction 1 as [|x l Hs IH Hall]; intros Hnd; [constructor|].
  apply NoDup_cons in Hnd as [Hx Hnd]. constructor; [by apply IH|].
  rewrite Forall_forall in Hall. apply Forall_forall. intros y Hy.
  specialize (Hall y Hy). assert (x <> y) by (by intros ->). lia.
Qed.

(** X1. The buckets of [groupByAssignedCount].  For an array of persons of
    the store the function returns; the keys of the map are distinct; the
    bucket of a count is the subsequence of the array with that number of
    wins, in the order of the array, and a count that nobody has has no
    bucket; the sorted counts are strictly ascending and are exactly the
    counts that occur. *)
Theorem groupByAssignedCount_partition (ps : list nat) (st : Store) :
  (forall p, p ∈ ps -> (p < length (persons st))%nat) ->
  exists groups,
    groupByAssignedCount ps st = Ok groups
    /\ NoDup groups.*1
    /\ (forall c,
          groups_get groups c
          = match filter (fun p => win_count st p = c) ps with
            | [] => None
            | b => Some b
            end)
    /\ StronglySorted lt (sorted_counts groups)
    /\ forall c, c ∈ sorted_counts groups <->
         exists p, p ∈ ps /\ win_count st p = c.
Proof.
  intros Hlt.
  destruct (groupLoop_buckets_of ps st [] []) as (groups & Hrun & Hnd & Hget);
    [done|split; [constructor|done]|].
  simpl in Hget. exists groups. split_and!; [done..| |].
  - apply StronglySorted_le_NoDup_lt.
    + apply StronglySorted_merge_sort; apply _.
    + unfold sorted_counts. by rewrite merge_sort_Permutation.
  - intros c. unfold sorted_counts. rewrite merge_sort_Permutation.
    destruct (decide (c ∈ map fst groups)) as [Hin|Hnot].
    + split; [intros _|done].
      destruct (groups_get_is_Some _ _ Hin) as [b Hb]. rewrite Hget in Hb.
      destruct (filter _ ps) as [|q b'] eqn:Hf; [done|].
      assert (q ∈ filter (fun p => win_count st p = c) ps) as Hq
        by (rewrite Hf; by left).
      apply list_elem_of_filter in Hq as [? ?]. eauto.
    + split; [done|]. intros (p & Hp & Hc).
      apply groups_get_None in Hnot. rewrite Hget in Hnot.
      assert (p ∈ filter (fun p => win_count st p = c) ps) as Hq
        by (by apply list_elem_of_filter).
      destruct (filter _ ps); [by apply elem_of_nil in Hq|done].
Qed.

Lemma groupByAssignedCount_partition_witness :
  exists groups,
    groupByAssignedCount [0; 1]%nat storeA = Ok groups
    /\ NoDup groups.*1
    /\ (forall c,
          groups_get groups c
          = match filter (fun p => win_count storeA p = c) [0; 1]%nat with
            | [] => None
            | b => Some b
            end)
    /\ StronglySorted lt (sorted_counts groups)
    /\ forall c, c ∈ sorted_counts groups <->
         exists p, p ∈ [0; 1]%nat /\ win_count storeA p = c.
Proof.
  apply groupByAssignedCount_partition.
  intros p Hp. repeat (apply elem_of_cons in Hp as [->|Hp]); simpl; try lia.
  by apply elem_of_nil in Hp.
Defined.

(** ** What [hasConflict] decides *)

Lemma hasConflictLoop_app (l1 l2 : list string) (T : theater)
    (tm : gmap string nat) (ths : list theater) :
  hasConflictLoop (l1 ++ l2) T tm ths
  = match hasConflictLoop l1 T tm ths with
    | Ok false => hasConflictLoop l2 T tm ths
    | r => r
    end.
Proof.
  induction l1 as [|tid l1 IH]; simpl; [done|].
  destruct (deref _) as [Ta|e]; simpl; [|done].
  by destruct (_ || _).
Qed.

Lemma hasConflictLoop_true (tids : list string) (T : theater)
    (tm : gmap string nat) (ths : list theater) :
  hasConflictLoop tids T tm ths = Ok true ->
  exists tid ai Ta,
    tid ∈ tids /\ tm !! tid = Some ai /\ ths !! ai = Some Ta
    /\ (timeSlot Ta = timeSlot T \/ play Ta = play T).
Proof.
  induction tids as [|tid tids IH]; simpl; [done|].
  intros Hc. inv_ok Hc.
  destruct (tm !! tid) as [ai|] eqn:Hai; [|done]. simpl in Ha.
  destruct (bool_decide_reflect (timeSlot a = timeSlot T)) as [E1|E1].
  { exists tid, ai, a. split_and!; [by left|done..|by left]. }
  destruct (bool_decide_reflect (play a = play T)) as [E2|E2].
  { exists tid, ai, a. split_and!; [by left|done..|by right]. }
  simpl in Hc. destruct (IH Hc) as (tid' & ai' & Ta & ? & ? & ? & ?).
  exists tid', ai', Ta. split_and!; [by right|done..].
Qed.

(** X2. What [hasConflict] decides.  When every win of the person is a
    key of [theaterMap] that leads to a theater, [hasConflict] returns, and
    it returns true exactly when one of the theaters won has the time slot
    or the play of the theater in question (two missing columns count as
    equal). *)
Theorem hasConflict_decides (P : person) (T : theater)
    (tm : gmap string nat) (ths : list theater) :
  (forall tid, tid ∈ person_assigned P ->
     exists ai, tm !! tid = Some ai /\ (ai < length ths)%nat) ->
  exists b,
    hasConflict P T tm ths = Ok b
    /\ (b = true <->
        exists tid ai Ta,
          tid ∈ person_assigned P /\ tm !! tid = Some ai /\ ths !! ai = Some Ta
          /\ (timeSlot Ta = timeSlot T \/ play Ta = play T)).
Proof.
  intros Hk. unfold hasConflict.
  destruct (hasConflictLoop_total (person_assigned P) T tm ths Hk) as [b Hb].
  exists b. split; [done|]. destruct b.
  - split; [intros _|done]. by apply hasConflictLoop_true.
  - split; [done|]. intros (tid & ai & Ta & Hin & Hai & HTa & Hshare).
    pose proof (proj1 (hasConflictLoop_false _ _ _ _) Hb tid Hin)
      as (ai' & Ta' & Hai' & HTa' & H1 & H2).
    simplify_eq. by destruct Hshare.
Qed.

Lemma hasConflict_decides_witness :
  exists b,
    hasConflict (Person "P1" [] ["R1"]) (Theater "R9" (Some "morning") None NaN [])
      theaterMapA (theaters storeA) = Ok b
    /\ (b = true <->
        exists tid ai Ta,
          tid ∈ person_assigned (Person "P1" [] ["R1"])
          /\ theaterMapA !! tid = Some ai /\ theaters storeA !! ai = Some Ta
          /\ (timeSlot Ta = timeSlot (Theater "R9" (Some "morning") None NaN [])
              \/ play Ta = play (Theater "R9" (Some "morning") None NaN []))).
Proof.
  apply hasConflict_decides.
  intros tid ->%list_elem_of_singleton. exists 0%nat. split; [by vm_compute|].
  simpl. lia.
Defined.

(** ** The checks for duplicate ids *)

Lemma set_add_fold_id (l acc : list string) :
  NoDup (acc ++ l) -> fold_left (fun s y => set_add y s) l acc = acc ++ l.
Proof.
  revert acc. induction l as [|x l IH]; intros acc Hnd; simpl.
  { by rewrite app_nil_r. }
  rewrite set_add_new.
  - rewrite IH; rewrite <- app_assoc; done.
  - apply NoDup_app in Hnd as (_ & Hd & _). intros Hx. apply (Hd x Hx). by left.
Qed.

Lemma set_add_fold_is_NoDup (l acc : list string) :
  NoDup acc -> NoDup (fold_left (fun s y => set_add y s) l acc).
Proof.
  revert acc. induction l as [|x l IH]; intros acc Hnd; simpl; [done|].
  apply IH. unfold set_add. destruct (decide (x ∈ acc)); [done|].
  apply NoDup_app. split_and!; [done| |apply NoDup_singleton].
  by intros y Hy ->%list_elem_of_singleton.
Qed.

Lemma set_from_NoDup (l : list string) : NoDup (set_from l).
Proof. apply set_add_fold_is_NoDup. constructor. Qed.

(** The test [new Set(ids).size !== ids.length] finds the repetitions. *)
Lemma set_from_length_iff (l : list string) :
  length (set_from l) = length l <-> NoDup l.
Proof.
  split; [apply set_from_length_NoDup|].
  intros Hnd. unfold set_from. by rewrite set_add_fold_id.
Qed.

Lemma indexOf_spec (l : list string) (i : nat) (x : string) :
  l !! i = Some x ->
  l !! indexOf l x = Some x
  /\ (indexOf l x <= i)%nat
  /\ forall j, (j < indexOf l x)%nat -> l !! j <> Some x.
Proof.
  revert i. induction l as [|y l IH]; intros i Hi; [done|]. simpl.
  destruct (decide (y = x)) as [->|Hne].
  - split_and!; [done|lia|]. intros j Hj. lia.
  - destruct i as [|i]; simpl in Hi; [by simplify_eq|].
    destruct (IH i Hi) as (H1 & H2 & H3). split_and!; [done|lia|].
    intros [|j] Hj; simpl; [congruence|]. apply H3. lia.
Qed.

(** The ids reported are those that occur at two positions. *)
Lemma duplicates_spec (ids : list string) (x : string) :
  x ∈ duplicates ids <->
  exists i j, (i < j)%nat /\ ids !! i = Some x /\ ids !! j = Some x.
Proof.
  unfold duplicates. rewrite list_elem_of_fmap. split.
  - intros ([j y] & -> & [Hne Hin]%list_elem_of_filter); simpl in *.
    apply list_elem_of_lookup in Hin as [k Hk].
    rewrite list_lookup_imap in Hk.
    destruct (ids !! k) as [z|] eqn:Hz; simplify_eq/=.
    destruct (indexOf_spec ids j y Hz) as (H1 & H2 & _).
    exists (indexOf ids y), j. split_and!; [lia|done..].
  - intros (i & j & Hlt & Hi & Hj). exists (j, x). split; [done|].
    apply list_elem_of_filter. split; simpl.
    + destruct (indexOf_spec ids i x Hi) as (_ & H2 & _). lia.
    + apply list_elem_of_lookup. exists j. by rewrite list_lookup_imap, Hj.
Qed.

Lemma not_NoDup_duplicates (ids : list string) :
  ~ NoDup ids -> duplicates ids <> [].
Proof.
  intros Hn Hd. apply Hn. apply NoDup_alt. intros i j x Hi Hj.
  destruct (Nat.lt_trichotomy i j) as [Hlt|[->|Hlt]]; [|done|].
  - assert (x ∈ duplicates ids) as Hx by (apply duplicates_spec; eauto).
    rewrite Hd in Hx. by apply elem_of_nil in Hx.
  - assert (x ∈ duplicates ids) as Hx by (apply duplicates_spec; eauto).
    rewrite Hd in Hx. by apply elem_of_nil in Hx.
Qed.

(** X3. The checks for duplicate ids.  [loadAndValidateTheaters] returns
    its table exactly when the ids of the first column are distinct;
    otherwise the run exits with a non-empty list of ids without
    repetition, which holds exactly the ids that occur in two rows.  The
    same holds of [loadAndValidateOrders], whatever the preferences and
    the known theater ids are. *)
Theorem duplicate_ids_reported (thf orf : list row) (maxOrders : nat)
    (theaterIdSet : list string) :
  (if decide (NoDup (map col0 thf)) then loadAndValidateTheaters thf = Ok thf
   else exists ds,
     loadAndValidateTheaters thf = Abort (Exit (DuplicateTheaterIds ds))
     /\ ds <> [] /\ NoDup ds
     /\ forall x, x ∈ ds <->
          exists i j, (i < j)%nat /\ map col0 thf !! i = Some x
                      /\ map col0 thf !! j = Some x)
  /\ (if decide (NoDup (map col0 orf))
      then loadAndValidateOrders orf maxOrders theaterIdSet = Ok orf
      else exists ds,
        loadAndValidateOrders orf maxOrders theaterIdSet
        = Abort (Exit (DuplicatePersonIds ds))
        /\ ds <> [] /\ NoDup ds
        /\ forall x, x ∈ ds <->
             exists i j, (i < j)%nat /\ map col0 orf !! i = Some x
                         /\ map col0 orf !! j = Some x).
Proof.
  assert (forall ids, ~ NoDup ids ->
            set_from (duplicates ids) <> [] /\ NoDup (set_from (duplicates ids))
            /\ forall x, x ∈ set_from (duplicates ids) <->
                 exists i j, (i < j)%nat /\ ids !! i = Some x /\ ids !! j = Some x)
    as Hrep.
  { intros ids Hn. split_and!.
    - intros Hnil. apply (not_NoDup_duplicates ids Hn).
      destruct (duplicates ids) as [|d ds] eqn:Hd; [done|].
      assert (d ∈ set_from (d :: ds)) as Hin by (apply set_from_elem_of; by left).
      rewrite Hnil in Hin. by apply elem_of_nil in Hin.
    - apply set_from_NoDup.
    - intros x. by rewrite set_from_elem_of, duplicates_spec. }
  split.
  - unfold loadAndValidateTheaters.
    destruct (decide (NoDup (map col0 thf))) as [Hnd|Hn].
    + by rewrite decide_False by (by rewrite set_from_length_iff; intros ?).
    + rewrite decide_True by (by rewrite set_from_length_iff).
      eexists. split; [done|]. by apply Hrep.
  - unfold loadAndValidateOrders.
    destruct (decide (NoDup (map col0 orf))) as [Hnd|Hn].
    + rewrite decide_False by (by rewrite set_from_length_iff; intros ?).
      by rewrite checkOrders_Ok.
    + rewrite decide_True by (by rewrite set_from_length_iff).
      eexists. split; [done|]. by apply Hrep.
Qed.

(** ** Stores in good order *)

Lemma grant_theater_other (p ti tj : nat) (s s' : Store) :
  grant p ti s = Ok s' -> tj <> ti -> theaters s' !! tj = theaters s !! tj.
Proof.
  intros (P & T & HP & HT & ->)%grant_Ok Hne; simpl.
  by apply list_lookup_insert_ne.
Qed.

Lemma grant_wf (tm : gmap string nat) (p ti : nat) (s s' : Store) :
  wf tm s -> grant p ti s = Ok s' -> wf tm s'.
Proof.
  intros (Hcl & Hex & Hu & Hco) Hg.
  pose proof (grant_static _ _ _ _ Hg) as Hst. split_and!.
  - by eapply grant_closed.
  - by eapply exact_static.
  - by eapply unique_ids_static.
  - by eapply grant_consistent.
Qed.

Lemma chain_wf (tm : gmap string nat) (s0 s : Store) (tr : list event) :
  wf tm s0 -> chain s0 tr s -> wf tm s /\ Forall (wf tm) tr.*2.
Proof.
  intros Hwf Hch.
  apply (chain_invariant (fun _ => True) (wf tm) s0); try done.
  - intros p ti s1 s2 ? _ ?. by eapply grant_wf.
  - by apply Forall_true.
Qed.

Lemma fresh_wf (ps : list person) (ths : list theater) :
  fresh (MkStore ps ths) -> unique_ids (MkStore ps ths) ->
  wf (makeTheaterMap ths) (MkStore ps ths).
Proof.
  intros [Hfp Hft] Hu. split_and!; [|by apply makeTheaterMap_exact, Hu|done|].
  - by apply fresh_closed.
  - by apply fresh_consistent.
Qed.

Lemma set_add_length_ge (x : string) (s : list string) :
  (length s <= length (set_add x s))%nat.
Proof.
  unfold set_add. destruct (decide (x ∈ s)); [lia|].
  rewrite length_app; simpl; lia.
Qed.

Lemma grant_full (p tj ti : nat) (s s' : Store) :
  full s ti -> grant p tj s = Ok s' -> full s' ti.
Proof.
  intros (T & HT & Hfull) (P & Tj & HP & HTj & ->)%grant_Ok. unfold full; simpl.
  destruct (decide (ti = tj)) as [->|Hne].
  - assert (Tj = T) as -> by congruence.
    eexists. split; [apply list_lookup_insert_eq; by eapply lookup_lt_Some|].
    simpl. unfold len_ge in *. destruct (capacity T) as [|c]; [done|].
    pose proof (set_add_length_ge (person_id P) (theater_assigned T)).
    apply Z.leb_le in Hfull. apply Z.leb_le. lia.
  - exists T. by rewrite list_lookup_insert_ne.
Qed.

Lemma chain_full (s0 s : Store) (tr : list event) (ti : nat) :
  chain s0 tr s -> full s0 ti -> full s ti.
Proof.
  intros Hch Hf. induction Hch as [|tr s p tj s' _ IH Hg]; [done|].
  by eapply grant_full.
Qed.

(** A chain of registrations at theater [ti], each of a person who is not
    yet among its holders, adds one holder each. *)
Lemma chain_holders_exact (s0 s : Store) (tr : list event) (ti : nat)
    (T0 : theater) :
  chain s0 tr s -> Forall not_holding tr -> Forall (fun e => e.1.2 = ti) tr ->
  theaters s0 !! ti = Some T0 ->
  exists T, theaters s !! ti = Some T /\ tstatic T = tstatic T0
    /\ length (theater_assigned T)
       = (length (theater_assigned T0) + length tr)%nat.
Proof.
  intros Hch. induction Hch as [|tr s p tj s' _ IH Hg]; intros Hnh Hat HT0.
  { exists T0. split_and!; [done..|simpl; lia]. }
  apply Forall_cons in Hnh as [(P & T & HP & HT & _ & Hnew) Hnh].
  apply Forall_cons in Hat as [Htj Hat]. simpl in *. subst tj.
  destruct (IH Hnh Hat HT0) as (T1 & HT1 & Hst & Hlen).
  assert (T1 = T) as -> by congruence.
  apply grant_Ok in Hg as (P' & T' & HP' & HT' & ->); simpl.
  assert (P' = P) as -> by congruence. assert (T' = T) as -> by congruence.
  eexists. split; [apply list_lookup_insert_eq; by eapply lookup_lt_Some|].
  split; [done|]. simpl. rewrite set_add_new by done.
  rewrite length_app. simpl. lia.
Qed.

(** ** Rejections are final *)

(** After a registration the wins of a person are the same, or have one
    more id at the end. *)
Lemma grant_person_wins (p q tj : nat) (s s' : Store) (P : person) :
  grant q tj s = Ok s' -> persons s !! p = Some P ->
  exists P', persons s' !! p = Some P' /\ pstatic P' = pstatic P
    /\ (person_assigned P' = person_assigned P
        \/ exists x, person_assigned P' = person_assigned P ++ [x]).
Proof.
  intros (Q & T & HQ & HT & ->)%grant_Ok HP; simpl.
  destruct (decide (p = q)) as [->|Hne].
  - assert (Q = P) as -> by congruence.
    eexists. split; [apply list_lookup_insert_eq; by eapply lookup_lt_Some|].
    split; [done|]. simpl. unfold set_add.
    destruct (decide (theater_id T ∈ person_assigned P)); [by left|right; eauto].
  - exists P. rewrite list_lookup_insert_ne by done. split_and!; [done..|by left].
Qed.

Lemma hasConflict_true_mono (tm : gmap string nat) (p q ti tj : nat)
    (s s' : Store) (P P' : person) (T T' : theater) :
  grant q tj s = Ok s' ->
  persons s !! p = Some P -> theaters s !! ti = Some T ->
  persons s' !! p = Some P' -> theaters s' !! ti = Some T' ->
  hasConflict P T tm (theaters s) = Ok true ->
  hasConflict P' T' tm (theaters s') = Ok true.
Proof.
  intros Hg HP HT HP' HT' Hc.
  pose proof (grant_static _ _ _ _ Hg) as [_ Hst].
  pose proof (static_lookup _ _ ti Hst) as Hti. rewrite HT, HT' in Hti.
  destruct (grant_person_wins p q tj s s' P Hg HP) as (P2 & HP2 & _ & Hw).
  assert (P2 = P') as -> by congruence.
  unfold hasConflict in *.
  assert (hasConflictLoop (person_assigned P) T' tm (theaters s') = Ok true)
    as Hc' by (by rewrite <- (hasConflictLoop_static _ T T' tm (theaters s))).
  destruct Hw as [->|[x ->]]; [done|].
  by rewrite hasConflictLoop_app, Hc'.
Qed.

Lemma noConflict_false (tm : gmap string nat) (s : Store) (ti p : nat) :
  noConflict tm s ti p = Ok false <->
  exists P T,
    persons s !! p = Some P /\ theaters s !! ti = Some T
    /\ hasConflict P T tm (theaters s) = Ok true.
Proof.
  unfold noConflict. split.
  - intros Hk. inv_ok Hk. exists a, a0. by destruct a1.
  - intros (P & T & -> & -> & Hc); simpl. by rewrite Hc.
Qed.

Lemma wantsTheater_false (rank : nat) (tm : gmap string nat) (s : Store)
    (ti p : nat) :
  wantsTheater rank tm s ti p = Ok false <->
  exists P T,
    persons s !! p = Some P /\ theaters s !! ti = Some T
    /\ (prefs P !! rank <> Some (Some (theater_id T))
        \/ theater_id T ∈ person_assigned P
        \/ hasConflict P T tm (theaters s) = Ok true).
Proof.
  unfold wantsTheater, set_has. split.
  - intros Hk. inv_ok Hk. exists a, a0. split_and!; [done..|].
    case_bool_decide; [|by left]. case_bool_decide; [by right; left|].
    inv_ok Hk. right; right. by destruct a1.
  - intros (P & T & -> & -> & Hc); simpl.
    case_bool_decide; [|done]. case_bool_decide; [done|].
    destruct Hc as [?|[?|Hc]]; [done..|]. by rewrite Hc.
Qed.

Lemma noConflict_served (tm : gmap string nat) : keep_served tm (noConflict tm).
Proof.
  split.
  - intros s s' ti p q tj _ (P & T & HP & HT & Hc)%noConflict_false Hg.
    pose proof (grant_static _ _ _ _ Hg) as Hst.
    destruct (same_static_person s s' p P) as (P' & HP' & _); [done..|].
    destruct (same_static_theater s s' ti T) as (T' & HT' & _); [done..|].
    apply noConflict_false. exists P', T'. split_and!; [done..|].
    by eapply hasConflict_true_mono.
  - intros s s' ti p Hwf Hk Hg.
    destruct (grant_wf tm p ti s s') as (Hcl' & Hex' & _ & _); [done..|].
    pose proof (grant_registers _ _ _ _ Hg) as (P' & T' & HP' & HT' & Hw & _).
    destruct (keep_total _ _ (noConflict_ok tm) s' ti p Hcl') as [b Hb];
      [by eapply lookup_lt_Some..|].
    destruct b; [|done].
    apply noConflict_true in Hb as (P2 & T2 & HP2 & HT2 & Hc).
    assert (P2 = P') as -> by congruence. assert (T2 = T') as -> by congruence.
    by destruct (hasConflict_own tm s' ti P' T' Hex' HT' Hc).
  - intros s ti p (Hcl & Hex & Hu & Hco) Hk.
    apply noConflict_true in Hk as (P & T & HP & HT & Hc).
    pose proof (hasConflict_own tm s ti P T Hex HT Hc) as Hn.
    exists P, T. split_and!; [done..|].
    intros Hin. apply Hn, (Hco P T); [by eapply list_elem_of_lookup_2..|done].
Qed.

Lemma wantsTheater_served (rank : nat) (tm : gmap string nat) :
  keep_served tm (wantsTheater rank tm).
Proof.
  split.
  - intros s s' ti p q tj _ (P & T & HP & HT & Hc)%wantsTheater_false Hg.
    pose proof (grant_static _ _ _ _ Hg) as Hst.
    destruct (grant_person_wins p q tj s s' P Hg HP) as (P' & HP' & HsP & Hw).
    destruct (same_static_theater s s' ti T) as (T' & HT' & HsT); [done..|].
    apply wantsTheater_false. exists P', T'. split_and!; [done..|].
    assert (theater_id T' = theater_id T) as Hid by (unfold tstatic in HsT; congruence).
    assert (prefs P' = prefs P) as Hpr by (unfold pstatic in HsP; congruence).
    rewrite Hid, Hpr.
    destruct Hc as [?|[Hin|Hc]]; [by left| |].
    + right; left. destruct Hw as [->|[x ->]]; [done|]. apply elem_of_app; by left.
    + right; right. by eapply hasConflict_true_mono.
  - intros s s' ti p Hwf Hk Hg.
    pose proof (grant_static _ _ _ _ Hg) as Hst.
    pose proof (grant_registers _ _ _ _ Hg) as (P' & T' & HP' & HT' & Hw & _).
    apply wantsTheater_false. exists P', T'. split_and!; [done..|]. by right; left.
  - intros s ti p (Hcl & Hex & Hu & Hco) Hk.
    apply wantsTheater_true in Hk as (P & T & HP & HT & _ & Hn & _).
    exists P, T. split_and!; [done..|].
    intros Hin. apply Hn, (Hco P T); [by eapply list_elem_of_lookup_2..|done].
Qed.

(** ** Nobody who could be served is left out *)

Lemma filterR_Ok (f : nat -> result bool) (l l' : list nat) :
  filterR f l = Ok l' ->
  (forall x, x ∈ l' -> x ∈ l /\ f x = Ok true)
  /\ (forall x, x ∈ l -> x ∈ l' \/ f x = Ok false)
  /\ (NoDup l -> NoDup l').
Proof.
  revert l'. induction l as [|x l IH]; intros l' Hf; simpl in Hf.
  - injection Hf as <-. split_and!; [by intros ? ?%elem_of_nil..|done].
  - inv_ok Hf. destruct (IH _ Ha0) as (Hin & Hout & Hnd). subst l'.
    destruct a; split_and!.
    + intros y [->|Hy]%elem_of_cons; [split; [by left|done]|].
      destruct (Hin y Hy). split; [by right|done].
    + intros y [->|Hy]%elem_of_cons; [left; by left|].
      destruct (Hout y Hy); [left; by right|by right].
    + intros [Hx Hl]%NoDup_cons. apply NoDup_cons. split; [|by apply Hnd].
      intros Hx'. by apply Hx, Hin.
    + intros y Hy. destruct (Hin y Hy). split; [by right|done].
    + intros y [->|Hy]%elem_of_cons; [by right|]. by apply Hout.
    + intros [_ Hl]%NoDup_cons. by apply Hnd.
Qed.

Section SelectionSize.
Context {A G : Type} `{RandomSource G}.

(** With a free seat, either all candidates win or all seats are taken. *)
Lemma pickWinners_cases (l : list A) (z : Z) (g : G) :
  0 < z ->
  (pickWinners l (Num z) g).1 = l
  \/ Z.of_nat (length (pickWinners l (Num z) g).1) = z.
Proof.
  intros Hz. unfold pickWinners, len_le.
  destruct (Z.leb_spec (Z.of_nat (length l)) z); [by left|right].
  pose proof (createShuffledArray_perm l g) as Hp.
  destruct (createShuffledArray l g) as [sh g']; simpl in *.
  apply Permutation_length in Hp.
  destruct (Z.ltb_spec z 0); [lia|]. rewrite length_take. lia.
Qed.
End SelectionSize.

Section Served.
Context {G : Type} `{RandomSource G}.
Variable tm : gmap string nat.
Variable keep : Store -> nat -> nat -> result bool.
Hypothesis Hok : keep_ok tm keep.
Hypothesis Hsv : keep_served tm keep.
Implicit Types (m : machine G).

Lemma chain_keep_false (s0 s : Store) (tr : list event) (ti p : nat) :
  closed tm s0 -> chain s0 tr s -> keep s0 ti p = Ok false ->
  keep s ti p = Ok false.
Proof.
  intros Hcl Hch Hk. induction Hch as [|tr s q tj s' Hch IH Hg]; [done|].
  eapply (served_mono _ _ Hsv); [|exact IH|exact Hg]. by eapply chain_closed.
Qed.

(** Registering winners whom the callback accepts: each registration is
    of a person who does not hold the theater yet, and afterwards the
    callback rejects every one of them. *)
Lemma assignWinners_served (ti : nat) (winners : list nat) m m' :
  wf tm (store m) -> NoDup winners ->
  (forall p, p ∈ winners -> keep (store m) ti p = Ok true) ->
  assignWinners winners ti m = Ok m' ->
  exists new,
    chain (store m) new (store m')
    /\ Forall not_holding new /\ Forall (fun e => e.1.2 = ti) new
    /\ length new = length winners
    /\ forall p, p ∈ winners -> keep (store m') ti p = Ok false.
Proof.
  revert m. induction winners as [|p rest IH]; intros m Hwf Hnd Hw Hrun;
    simpl in Hrun.
  { injection Hrun as <-. exists []. split_and!; try done; [constructor|].
    by intros ? ?%elem_of_nil. }
  inv_ok Hrun. rename a into st'.
  apply NoDup_cons in Hnd as [Hp Hnd].
  pose proof (grant_static _ _ _ _ Ha) as Hst.
  pose proof (grant_wf _ _ _ _ _ Hwf Ha) as Hwf'.
  destruct (IH (Machine st' (gen m) ((p, ti, store m) :: trace m)))
    as (new & Hch & Hnh & Hat & Hlen & Hrej); simpl in *; try done.
  { intros q Hq. rewrite <- (Hw q) by (by right).
    apply (keep_frame _ _ Hok); [|apply Hst].
    eapply grant_person_other; [done|]. by intros ->. }
  exists (new ++ [(p, ti, store m)]). split_and!.
  - eapply chain_app; [|done]. by repeat econstructor.
  - apply Forall_app. split; [done|]. constructor; [|done].
    apply (served_new _ _ Hsv); [done|]. apply Hw. by left.
  - apply Forall_app. split; [done|]. by constructor.
  - rewrite length_app; simpl. lia.
  - intros q [->|Hq]%elem_of_cons; [|by apply Hrej].
    eapply chain_keep_false; [apply Hwf'|done|].
    apply (served_after _ _ Hsv (store m)); [done| |done]. apply Hw. by left.
Qed.

(** The loop over the counts for theater [ti], entered with the exact
    number of its free seats: at the end the theater is full, or the
    callback rejects everybody in the buckets. *)
Lemma countsLoop_served (groups : list (nat * list nat)) (ti : nat)
    (counts : list nat) (seats : num) m m' :
  wf tm (store m) ->
  (forall c b, c ∈ counts -> groups_get groups c = Some b -> NoDup b) ->
  seats_exact (store m) ti seats ->
  countsLoop keep groups counts ti seats m = Ok m' ->
  full (store m') ti
  \/ forall c b p, c ∈ counts -> groups_get groups c = Some b -> p ∈ b ->
       keep (store m') ti p = Ok false.
Proof.
  revert seats m.
  induction counts as [|count rest IH]; intros seats m Hwf Hnd Hse Hrun;
    simpl in Hrun.
  { right. by intros ? ? ? ?%elem_of_nil. }
  destruct Hse as (T & c & z & HT & Hc & -> & Hsz). simpl in Hrun.
  destruct (Z.leb_spec z 0) as [Hz|Hz].
  { injection Hrun as <-. left. exists T. split; [done|].
    rewrite Hc; simpl. apply Z.leb_le. lia. }
  inv_ok Hrun. rename a into bucket, a0 into candidates.
  destruct (filterR_Ok _ _ _ Ha0) as (Hin & Hout & Hndc).
  assert (forall c b, c ∈ rest -> groups_get groups c = Some b -> NoDup b)
    as Hnd' by (intros ? ? ?; apply Hnd; by right).
  destruct candidates as [|c0 cands].
  { pose proof (countsLoop_chain _ _ _ _ _ _ _ Hrun) as (new & _ & Hch).
    destruct (IH _ _ Hwf Hnd' (ex_intro _ T (ex_intro _ c (ex_intro _ z
                (conj HT (conj Hc (conj eq_refl Hsz)))))) Hrun) as [?|Hrest];
      [by left|right].
    intros c' b p [->|Hc']%elem_of_cons Hb Hp; [|by eapply Hrest].
    assert (b = bucket) as -> by congruence.
    eapply chain_keep_false; [apply Hwf|done|].
    destruct (Hout p Hp) as [?%elem_of_nil|?]; done. }
  set (candidates := c0 :: cands) in *.
  pose proof (pickWinners_NoDup candidates (Num z) (gen m)
                (Hndc (Hnd count bucket ltac:(by left) Ha))) as Hwnd.
  pose proof (pickWinners_elem_of candidates (Num z) (gen m)) as Hwin.
  pose proof (pickWinners_cases candidates z (gen m) Hz) as Hcases.
  destruct (pickWinners candidates (Num z) (gen m)) as [winners g'];
    simpl in *.
  inv_ok Hrun. rename a into m1.
  destruct (assignWinners_served ti winners (Machine (store m) g' (trace m)) m1)
    as (new & Hch & Hnh & Hat & Hlen & Hrej); simpl in *; try done.
  { intros p Hp. by apply Hwin, Hin in Hp as [_ ?]. }
  destruct (chain_wf tm _ _ _ Hwf Hch) as [Hwf1 _].
  destruct (chain_holders_exact _ _ _ ti T Hch Hnh Hat HT)
    as (T1 & HT1 & HsT & Hlen1).
  apply tstatic_eq in HsT as (_ & _ & _ & Hcap).
  pose proof (countsLoop_chain _ _ _ _ _ _ _ Hrun) as (new2 & _ & Hch2).
  assert (seats_exact (store m1) ti (Num (z - Z.of_nat (length winners))))
    as Hse1.
  { exists T1, c, (z - Z.of_nat (length winners)).
    split_and!; [done|congruence|done|lia]. }
  destruct (IH _ _ Hwf1 Hnd' Hse1 Hrun) as [?|Hrest]; [by left|].
  destruct Hcases as [->|Hall].
  - right. intros c' b p [->|Hc']%elem_of_cons Hb Hp; [|by eapply Hrest].
    assert (b = bucket) as -> by congruence.
    eapply chain_keep_false; [apply Hwf1|done|].
    destruct (Hout p Hp) as [?|?]; [by apply Hrej|].
    eapply chain_keep_false; [apply Hwf|done..].
  - left. eapply chain_full; [done|]. exists T1. split; [done|].
    rewrite Hcap, Hc; simpl. apply Z.leb_le. lia.
Qed.
End Served.

Lemma groupByAssignedCount_covers (ps : list nat) (st : Store)
    (groups : list (nat * list nat)) :
  (forall p, p ∈ ps -> (p < length (persons st))%nat) ->
  groupByAssignedCount ps st = Ok groups ->
  forall p, p ∈ ps ->
    exists c b, c ∈ sorted_counts groups /\ groups_get groups c = Some b /\ p ∈ b.
Proof.
  intros Hlt Hrun p Hp.
  destruct (groupLoop_buckets_of ps st [] []) as (groups' & Hrun' & _ & Hget);
    [done|split; [constructor|done]|].
  unfold groupByAssignedCount in Hrun. assert (groups' = groups) as -> by congruence.
  simpl in Hget. specialize (Hget (win_count st p)).
  assert (p ∈ filter (fun q => win_count st q = win_count st p) ps) as Hin
    by (by apply list_elem_of_filter).
  destruct (filter _ ps) as [|q b] eqn:Hf; [by apply elem_of_nil in Hin|].
  exists (win_count st p), (q :: b). split_and!; [|done..].
  unfold sorted_counts. rewrite merge_sort_Permutation.
  apply groups_get_elem_of in Hget.
  apply list_elem_of_fmap. by exists (win_count st p, q :: b).
Qed.

Lemma buckets_ok_NoDup (allowed : nat -> Prop) (groups : list (nat * list nat))
    (counts : list nat) (s : Store) :
  buckets_ok allowed groups counts s ->
  forall c b, c ∈ counts -> groups_get groups c = Some b -> NoDup b.
Proof. intros Hb c b Hc Hg. destruct (Hb c Hc) as (b' & ? & ? & _). congruence. Qed.

Lemma seats_exact_start (s : Store) (ti : nat) (T : theater) :
  theaters s !! ti = Some T -> capacity T <> NaN ->
  seats_exact s ti (num_minus (capacity T) (length (theater_assigned T))).
Proof.
  intros HT Hc. destruct (capacity T) as [|c] eqn:Hcap; [done|].
  exists T, c, (c - Z.of_nat (length (theater_assigned T))).
  split_and!; [done..|lia].
Qed.

Lemma seats_none_full (s : Store) (ti : nat) (T : theater) :
  theaters s !! ti = Some T ->
  num_le0 (num_minus (capacity T) (length (theater_assigned T))) = true ->
  full s ti.
Proof.
  intros HT Hle. exists T. split; [done|].
  destruct (capacity T) as [|c]; [done|]. simpl in *.
  apply Z.leb_le in Hle. apply Z.leb_le. lia.
Qed.

Section ServedLotteries.
Context {G : Type} `{RandomSource G}.
Variable tm : gmap string nat.
Implicit Types (m : machine G).

Lemma done_with_chain (keep : Store -> nat -> nat -> result bool)
    (ps : list nat) (s s' : Store) (tr : list event) (ti : nat) :
  keep_served tm keep -> closed tm s -> chain s tr s' ->
  done_with keep ps s ti -> done_with keep ps s' ti.
Proof.
  intros Hsv Hcl Hch [?|Hrej]; [left; by eapply chain_full|right].
  intros p Hp. eapply chain_keep_false; [done..|]. by apply Hrej.
Qed.

Lemma theaterLoop_served (keep : Store -> nat -> nat -> result bool)
    (allowed : nat -> Prop) (groups : list (nat * list nat)) (counts ps : list nat)
    (ti : nat) (T : theater) m m' :
  keep_ok tm keep -> keep_served tm keep ->
  wf tm (store m) -> theaters (store m) !! ti = Some T -> capacity T <> NaN ->
  buckets_ok allowed groups counts (store m) ->
  (forall p, p ∈ ps ->
     exists c b, c ∈ counts /\ groups_get groups c = Some b /\ p ∈ b) ->
  countsLoop keep groups counts ti
    (num_minus (capacity T) (length (theater_assigned T))) m = Ok m' ->
  done_with keep ps (store m') ti.
Proof.
  intros Hok Hsv Hwf HT Hcap Hb Hcov Hrun.
  destruct (countsLoop_served tm keep Hok Hsv groups ti counts
              (num_minus (capacity T) (length (theater_assigned T))) m m' Hwf)
    as [?|Hrej]; [by eapply buckets_ok_NoDup|by apply seats_exact_start|done
                 |by left|right].
  intros p (c & b & Hc & Hg & Hp)%Hcov. by eapply Hrej.
Qed.

Lemma initialTheaters_served (rank : nat) (groups : list (nat * list nat))
    (counts tis ps : list nat) m m' :
  wf tm (store m) ->
  (forall ti, ti ∈ tis -> (ti < length (theaters (store m)))%nat) ->
  buckets_ok everyone groups counts (store m) ->
  (forall p, p ∈ ps ->
     exists c b, c ∈ counts /\ groups_get groups c = Some b /\ p ∈ b) ->
  initialTheaters rank tm groups counts tis m = Ok m' ->
  forall ti T, ti ∈ tis -> theaters (store m') !! ti = Some T ->
    capacity T <> NaN ->
    done_with (wantsTheater rank tm) ps (store m') ti.
Proof.
  revert m. induction tis as [|tj tis IH]; intros m Hwf Htis Hb Hcov Hrun ti T Hti HT Hcap;
    [by apply elem_of_nil in Hti|].
  simpl in Hrun. inv_ok Hrun. rename a into Tj.
  assert (forall ti', ti' ∈ tis -> (ti' < length (theaters (store m)))%nat)
    as Htis' by (intros; apply Htis; by right).
  pose proof Hwf as (Hcl & _).
  destruct (num_le0 _) eqn:Hle.
  - apply elem_of_cons in Hti as [->|Hti]; [|by eapply (IH m)].
    destruct (initialTheaters_spec tm rank groups counts tis m)
      as (m2 & Hrun2 & new & _ & Hch & _); [done..|].
    assert (m2 = m') as -> by congruence.
    left. eapply chain_full; [done|]. by eapply seats_none_full.
  - inv_ok Hrun. rename a into m1.
    destruct (theaterLoop_step tm (wantsTheater rank tm) everyone groups counts tj Tj m)
      as (m1' & Hrun1 & Hs1); try done; [apply wantsTheater_ok|].
    assert (m1' = m1) as -> by congruence.
    pose proof (steps_static _ _ _ Hs1) as Hst.
    pose proof Hs1 as (new1 & _ & Hch1 & _).
    destruct (chain_wf tm _ _ _ Hwf Hch1) as [Hwf1 _].
    assert (forall ti', ti' ∈ tis -> (ti' < length (theaters (store m1)))%nat)
      as Htis1.
    { intros ti' Hti'. rewrite (same_static_theaters_length _ _ Hst). by apply Htis'. }
    assert (buckets_ok everyone groups counts (store m1)) as Hb1
      by (by eapply buckets_ok_static).
    apply elem_of_cons in Hti as [->|Hti]; [|by eapply (IH m1)].
    destruct (initialTheaters_spec tm rank groups counts tis m1)
      as (m2 & Hrun2 & new & _ & Hch & _); [apply Hwf1|done..|].
    assert (m2 = m') as -> by congruence.
    eapply done_with_chain; [apply wantsTheater_served|apply Hwf1|done|].
    assert (capacity Tj <> NaN) as Hcapj.
    { destruct (same_static_theater (store m) (store m') tj Tj)
        as (T' & HT' & HsT); [|done|].
      { etrans; [done|]. by eapply chain_static. }
      assert (T' = T) as -> by congruence.
      apply tstatic_eq in HsT as (_ & _ & _ & Hc). congruence. }
    by apply (theaterLoop_served (wantsTheater rank tm) everyone groups counts
                ps tj Tj m m1 (wantsTheater_ok rank tm)
                (wantsTheater_served rank tm)).
Qed.
Lemma initialRound_served (rank : nat) m m' :
  wf tm (store m) -> initialRound rank tm m = Ok m' ->
  forall ti T, theaters (store m') !! ti = Some T -> capacity T <> NaN ->
    done_with (wantsTheater rank tm) (seq 0 (length (persons (store m))))
      (store m') ti.
Proof.
  intros Hwf Hrun ti T HT Hcap. unfold initialRound in Hrun. inv_ok Hrun.
  rename a into groups.
  pose proof Hwf as (Hcl & _).
  assert (forall p, p ∈ seq 0 (length (persons (store m))) ->
            (p < length (persons (store m)))%nat) as Hlt
    by (intros p Hp%elem_of_seq; lia).
  destruct (groupByAssignedCount_spec (seq 0 (length (persons (store m)))) (store m))
    as (groups' & Hrun' & Hg); [apply NoDup_seq|done|].
  assert (groups' = groups) as -> by congruence.
  assert (same_static (store m) (store m')) as Hst.
  { destruct (initialRound_spec tm rank m Hcl) as (m2 & Hrun2 & Hs).
    unfold initialRound in Hrun2. rewrite Ha in Hrun2. simpl in Hrun2.
    assert (m2 = m') as -> by congruence. by eapply steps_static. }
  eapply (initialTheaters_served rank groups (sorted_counts groups)
            (seq 0 (length (theaters (store m))))); try done.
  - intros tj Htj%elem_of_seq. lia.
  - intros c Hc. destruct (Hg c Hc) as (b & ? & ? & Hsub).
    exists b. split_and!; [done..|]. intros p Hp%Hsub%elem_of_seq.
    split; [lia|done].
  - by apply (groupByAssignedCount_covers _ (store m)).
  - apply elem_of_seq. apply lookup_lt_Some in HT.
    pose proof (same_static_theaters_length _ _ Hst). lia.
Qed.

Lemma allFull_full (s : Store) (ti : nat) :
  allFull s = true -> (ti < length (theaters s))%nat -> full s ti.
Proof.
  intros Hall [T HT]%lookup_lt_is_Some_2. exists T. split; [done|].
  unfold allFull in Hall. rewrite forallb_forall in Hall.
  apply (Hall T), list_elem_of_In. by eapply list_elem_of_lookup_2.
Qed.

Lemma initialRanks_served (ranks : list nat) m m' :
  wf tm (store m) -> initialRanks ranks tm m = Ok m' ->
  forall rank ti T, rank ∈ ranks ->
    theaters (store m') !! ti = Some T -> capacity T <> NaN ->
    done_with (wantsTheater rank tm) (seq 0 (length (persons (store m'))))
      (store m') ti.
Proof.
  revert m. induction ranks as [|r ranks IH]; intros m Hwf Hrun rank ti T Hr HT Hcap;
    [by apply elem_of_nil in Hr|].
  simpl in Hrun. pose proof Hwf as (Hcl & _).
  destruct (allFull (store m)) eqn:Hall.
  { injection Hrun as <-. left. apply allFull_full; [done|].
    by eapply lookup_lt_Some. }
  inv_ok Hrun. rename a into m1.
  destruct (initialRound_spec tm r m Hcl) as (m1' & Hrun1 & Hs1).
  assert (m1' = m1) as -> by congruence.
  pose proof Hs1 as (new1 & _ & Hch1 & _).
  destruct (chain_wf tm _ _ _ Hwf Hch1) as [Hwf1 _].
  apply elem_of_cons in Hr as [->|Hr]; [|by eapply (IH m1)].
  destruct (initialRanks_spec tm ranks m1) as (m2 & Hrun2 & Hs2); [apply Hwf1|].
  assert (m2 = m') as -> by congruence.
  pose proof Hs2 as (new2 & _ & Hch2 & _).
  pose proof (chain_static _ _ _ Hch2) as Hst2.
  destruct (same_static_theater (store m') (store m1) ti T) as (T1 & HT1 & HsT);
    [done..|].
  apply tstatic_eq in HsT as (_ & _ & _ & Hc).
  replace (length (persons (store m'))) with (length (persons (store m))).
  2: { pose proof (same_static_persons_length _ _ Hst2).
       pose proof (same_static_persons_length _ _ (steps_static _ _ _ Hs1)).
       congruence. }
  eapply done_with_chain; [apply wantsTheater_served|apply Hwf1|done|].
  eapply initialRound_served; [done..|congruence].
Qed.

(** X4. The initial lottery leaves no seat unused that it could have
    given.  From a store in good order (wins and theater ids are keys of
    [theaterMap], which leads from each id to its theater; ids are
    distinct; both sides of the assignments agree) the initial lottery
    returns, and afterwards, for every rank below [maxOrders], every
    person and every theater with a capacity that is a number: if the
    person's preference at that rank is the theater, then the theater is
    full, or the person has won it, or the person has won a theater with
    the same time slot or the same play. *)
Theorem initial_lottery_serves (maxOrders : nat) m :
  wf tm (store m) ->
  exists m',
    runInitialLottery tm maxOrders m = Ok m'
    /\ forall rank p ti P T,
         (rank < maxOrders)%nat ->
         persons (store m') !! p = Some P -> theaters (store m') !! ti = Some T ->
         prefs P !! rank = Some (Some (theater_id T)) -> capacity T <> NaN ->
         len_ge (length (theater_assigned T)) (capacity T) = true
         \/ theater_id T ∈ person_assigned P
         \/ hasConflict P T tm (theaters (store m')) = Ok true.
Proof.
  intros Hwf. pose proof Hwf as (Hcl & _).
  destruct (runInitialLottery_spec tm maxOrders m Hcl) as (m' & Hrun & _).
  exists m'. split; [done|]. intros rank p ti P T Hrank HP HT Hpref Hcap.
  destruct (initialRanks_served (seq 0 maxOrders) m m' Hwf Hrun rank ti T)
    as [(T' & HT' & Hfull)|Hrej]; [apply elem_of_seq; lia|done..| |].
  - left. congruence.
  - right.
    destruct (proj1 (wantsTheater_false rank tm (store m') ti p))
      as (P' & T' & HP' & HT' & Hwhy).
    { apply Hrej, elem_of_seq. apply lookup_lt_Some in HP. lia. }
    assert (P' = P) as -> by congruence. assert (T' = T) as -> by congruence.
    destruct Hwhy as [?|[?|?]]; [done|by left|by right].
Qed.

Lemma vacancyTheaters_served (candidates tis : list nat) m m' :
  wf tm (store m) -> NoDup candidates ->
  (forall p, p ∈ candidates -> (p < length (persons (store m)))%nat) ->
  (forall ti, ti ∈ tis -> (ti < length (theaters (store m)))%nat) ->
  vacancyTheaters tm candidates tis m = Ok m' ->
  forall ti T, ti ∈ tis -> theaters (store m') !! ti = Some T ->
    capacity T <> NaN ->
    done_with (noConflict tm) candidates (store m') ti.
Proof.
  revert m. induction tis as [|tj tis IH];
    intros m Hwf Hnd Hcs Htis Hrun ti T Hti HT Hcap;
    [by apply elem_of_nil in Hti|].
  simpl in Hrun. inv_ok Hrun. rename a into Tj.
  assert (forall ti', ti' ∈ tis -> (ti' < length (theaters (store m)))%nat)
    as Htis' by (intros; apply Htis; by right).
  pose proof Hwf as (Hcl & _).
  destruct (num_le0 _) eqn:Hle.
  - apply elem_of_cons in Hti as [->|Hti]; [|by eapply (IH m)].
    destruct (vacancyTheaters_spec tm candidates tis m)
      as (m2 & Hrun2 & new & _ & Hch & _); [done..|].
    assert (m2 = m') as -> by congruence.
    left. eapply chain_full; [done|]. by eapply seats_none_full.
  - inv_ok Hrun. rename a into groups, a0 into m1.
    destruct (groupByAssignedCount_spec candidates (store m))
      as (groups' & Hrun' & Hg); [done..|].
    assert (groups' = groups) as -> by congruence.
    assert (buckets_ok (fun p => p ∈ candidates) groups (sorted_counts groups)
              (store m)) as Hb.
    { intros c Hc. destruct (Hg c Hc) as (b & ? & ? & Hsub).
      exists b. split_and!; [done..|]. intros p Hp%Hsub. split; [by apply Hcs|done]. }
    destruct (theaterLoop_step tm (noConflict tm) (fun p => p ∈ candidates)
                groups (sorted_counts groups) tj Tj m)
      as (m1' & Hrun1 & Hs1); try done; [apply noConflict_ok|].
    assert (m1' = m1) as -> by congruence.
    pose proof (steps_static _ _ _ Hs1) as Hst.
    pose proof Hs1 as (new1 & _ & Hch1 & _).
    destruct (chain_wf tm _ _ _ Hwf Hch1) as [Hwf1 _].
    assert (forall ti', ti' ∈ tis -> (ti' < length (theaters (store m1)))%nat)
      as Htis1.
    { intros ti' Hti'. rewrite (same_static_theaters_length _ _ Hst). by apply Htis'. }
    assert (forall p, p ∈ candidates -> (p < length (persons (store m1)))%nat)
      as Hcs1.
    { intros p Hp. rewrite (same_static_persons_length _ _ Hst). by apply Hcs. }
    apply elem_of_cons in Hti as [->|Hti]; [|by eapply (IH m1)].
    destruct (vacancyTheaters_spec tm candidates tis m1)
      as (m2 & Hrun2 & new & _ & Hch & _); [apply Hwf1|done..|].
    assert (m2 = m') as -> by congruence.
    eapply done_with_chain; [apply noConflict_served|apply Hwf1|done|].
    assert (capacity Tj <> NaN) as Hcapj.
    { destruct (same_static_theater (store m) (store m') tj Tj)
        as (T' & HT' & HsT); [|done|].
      { etrans; [done|]. by eapply chain_static. }
      assert (T' = T) as -> by congruence.
      apply tstatic_eq in HsT as (_ & _ & _ & Hc). congruence. }
    apply (theaterLoop_served (noConflict tm) (fun p => p ∈ candidates) groups
             (sorted_counts groups) candidates tj Tj m m1 (noConflict_ok tm)
             (noConflict_served tm)); try done.
    by apply (groupByAssignedCount_covers _ (store m)).
Qed.

Lemma runVacancyLottery_served (lines : list string) m m' :
  wf tm (store m) -> runVacancyLottery (FileLines lines) tm m = Ok m' ->
  forall p ti P T,
    persons (store m') !! p = Some P -> person_id P ∈ lines ->
    theaters (store m') !! ti = Some T -> capacity T <> NaN ->
    len_ge (length (theater_assigned T)) (capacity T) = true
    \/ hasConflict P T tm (theaters (store m')) = Ok true.
Proof.
  intros Hwf Hrun p ti P T HP Hid HT Hcap. pose proof Hwf as (Hcl & _).
  destruct (runVacancyLottery_spec tm (FileLines lines) m Hcl) as (m2 & Hrun2 & Hs);
    [done|].
  assert (m2 = m') as -> by congruence. clear Hrun2.
  pose proof (steps_static _ _ _ Hs) as Hst.
  unfold runVacancyLottery in Hrun. simpl in Hrun.
  destruct (decide _) as [Hlen|Hlen].
  { apply length_zero_iff_nil in Hlen.
    apply (proj2 (set_from_elem_of lines (person_id P))) in Hid.
    rewrite Hlen in Hid. by apply elem_of_nil in Hid. }
  destruct (vacancyCandidates_spec (set_from lines) (store m)) as [Hnd Hc].
  destruct (vacancyTheaters_served
              (vacancyCandidates (set_from lines) (store m))
              (seq 0 (length (theaters (store m)))) m m' Hwf Hnd) with ti T
    as [(T' & HT' & Hfull)|Hrej]; try done.
  - intros q (Q & HQ & _)%Hc. by eapply lookup_lt_Some.
  - intros tj Htj%elem_of_seq. lia.
  - apply elem_of_seq. apply lookup_lt_Some in HT.
    pose proof (same_static_theaters_length _ _ Hst). lia.
  - left. congruence.
  - right.
    destruct (proj1 (noConflict_false tm (store m') ti p))
      as (P' & T' & HP' & HT' & Hwhy).
    { apply Hrej, Hc.
      destruct (same_static_person (store m') (store m) p P) as (P0 & HP0 & HsP);
        [done..|].
      exists P0. split; [done|]. apply set_from_elem_of.
      unfold pstatic in HsP. by injection HsP as -> _. }
    assert (P' = P) as -> by congruence. by assert (T' = T) as -> by congruence.
Qed.

(** X5. The vacancy lottery leaves no seat unused that it could have
    given.  From a store in good order and on the lines of the opt-in
    file, the vacancy lottery returns, and afterwards, for every person
    whose id is a line of the file and every theater with a capacity that
    is a number: the theater is full, or the person has won a theater with
    the same time slot or the same play (which the theater itself is, if
    the person has won it). *)
Theorem vacancy_lottery_serves (lines : list string) m :
  wf tm (store m) ->
  exists m',
    runVacancyLottery (FileLines lines) tm m = Ok m'
    /\ forall p ti P T,
         persons (store m') !! p = Some P -> person_id P ∈ lines ->
         theaters (store m') !! ti = Some T -> capacity T <> NaN ->
         len_ge (length (theater_assigned T)) (capacity T) = true
         \/ hasConflict P T tm (theaters (store m')) = Ok true.
Proof.
  intros Hwf. pose proof Hwf as (Hcl & _).
  destruct (runVacancyLottery_spec tm (FileLines lines) m Hcl) as (m' & Hrun & _);
    [done|].
  exists m'. split; [done|]. by apply (runVacancyLottery_served lines m m').
Qed.
End ServedLotteries.

Lemma initial_lottery_serves_witness :
  exists m',
    runInitialLottery theaterMapA 2 machineA = Ok m'
    /\ forall rank p ti P T,
         (rank < 2)%nat ->
         persons (store m') !! p = Some P -> theaters (store m') !! ti = Some T ->
         prefs P !! rank = Some (Some (theater_id T)) -> capacity T <> NaN ->
         len_ge (length (theater_assigned T)) (capacity T) = true
         \/ theater_id T ∈ person_assigned P
         \/ hasConflict P T theaterMapA (theaters (store m')) = Ok true.
Proof.
  apply initial_lottery_serves.
  apply (fresh_wf (persons storeA) (theaters storeA)).
  - split; by repeat constructor.
  - split; by vm_compute; apply (bool_decide_unpack _).
Defined.

Lemma vacancy_lottery_serves_witness :
  exists m',
    runVacancyLottery (FileLines ["P2"; "P1"; "P2"]%string) theaterMapA machineA
    = Ok m'
    /\ forall p ti P T,
         persons (store m') !! p = Some P ->
         person_id P ∈ ["P2"; "P1"; "P2"]%string ->
         theaters (store m') !! ti = Some T -> capacity T <> NaN ->
         len_ge (length (theater_assigned T)) (capacity T) = true
         \/ hasConflict P T theaterMapA (theaters (store m')) = Ok true.
Proof.
  apply vacancy_lottery_serves.
  apply (fresh_wf (persons storeA) (theaters storeA)).
  - split; by repeat constructor.
  - split; by vm_compute; apply (bool_decide_unpack _).
Defined.

(** ** The ways [main] ends *)

Lemma sortLines_cases (passedFirst : list (string * list string) -> nat -> bool)
    (rows : list (string * list string)) :
  sortLines passedFirst rows = Ok tt
  \/ (sortLines passedFirst rows = Abort TypeError
      /\ (EmptyString, []) ∈ rows).
Proof.
  unfold sortLines. destruct (existsb _ _) eqn:Hex; [right|by left].
  split; [done|]. apply existsb_exists in Hex as (i & Hi & _).
  apply list_elem_of_In, list_elem_of_filter in Hi as [Hi _].
  by eapply list_elem_of_lookup_2.
Qed.

(** [writeResults] ends normally, or with a [TypeError] on an object with
    an empty id to which nothing is assigned. *)
Lemma writeResults_cases (passedFirst : list (string * list string) -> nat -> bool) (st : Store) :
  writeResults passedFirst st = Ok tt
  \/ (writeResults passedFirst st = Abort TypeError
      /\ ((exists P, P ∈ persons st /\ person_id P = EmptyString
                     /\ person_assigned P = [])
          \/ (exists T, T ∈ theaters st /\ theater_id T = EmptyString
                        /\ theater_assigned T = []))).
Proof.
  unfold writeResults.
  destruct (sortLines_cases passedFirst
              (map (fun P => (person_id P, person_assigned P)) (persons st)))
    as [->|[-> Hin]]; simpl.
  - destruct (sortLines_cases passedFirst
                (map (fun T => (theater_id T, theater_assigned T)) (theaters st)))
      as [->|[-> Hin]]; [by left|right].
    split; [done|right].
    apply list_elem_of_fmap in Hin as (T & [= Hid Has] & HT). by exists T.
  - right. split; [done|left].
    apply list_elem_of_fmap in Hin as (P & [= Hid Has] & HP). by exists P.
Qed.


(** ** Theaters without a free seat *)

Lemma chain_no_room (s0 s : Store) (tr : list event) (ti : nat) (T : theater) :
  chain s0 tr s -> Forall (fun e => has_room e.2 e.1.2) tr ->
  theaters s0 !! ti = Some T -> ~ has_room s0 ti ->
  theaters s !! ti = Some T.
Proof.
  intros Hch Hroom HT Hno.
  induction Hch as [|tr s p tj s' _ IH Hg]; [done|].
  apply Forall_cons in Hroom as [Hr Hroom]. specialize (IH Hroom).
  simpl in Hr. rewrite <- IH. apply (grant_theater_other p tj ti s s' Hg).
  intros ->. apply Hno. destruct Hr as (T' & c & HT' & Hc & Hlt).
  exists T, c. assert (T' = T) as -> by congruence. done.
Qed.

Section NoRoom.
Context {G : Type} `{RandomSource G}.
Implicit Types (m : machine G).

(** X7. A theater without a free seat is left alone.  From a store whose
    wins and theater ids are keys of [theaterMap], the two lotteries
    return (unless the file of the vacancy lottery is enabled and cannot
    be read), and a theater that had no free seat at the start, because
    its capacity is not a number or not above the number of its holders,
    is at the end exactly what it was. *)
Theorem no_room_untouched (cfg : settings) (vacancyFile : file)
    (tm : gmap string nat) m :
  closed tm (store m) ->
  (enableVacancy cfg = true -> vacancyFile <> FileUnreadable) ->
  exists m',
    runLotteries cfg vacancyFile tm m = Ok m'
    /\ forall ti T,
         theaters (store m) !! ti = Some T ->
         capacity T = NaN
         \/ len_ge (length (theater_assigned T)) (capacity T) = true ->
         theaters (store m') !! ti = Some T.
Proof.
  intros Hcl Hf.
  destruct (runLotteries_spec cfg vacancyFile tm m Hcl Hf)
    as (m' & Hrun & new & _ & Hch & HG).
  exists m'. split; [done|]. intros ti T HT Hno.
  eapply chain_no_room; [done| |done|].
  - eapply Forall_impl; [done|]. by intros e [? _].
  - intros (T' & c & HT' & Hc & Hlt). assert (T' = T) as -> by congruence.
    destruct Hno as [?|Hge]; [congruence|].
    rewrite Hc in Hge. simpl in Hge. apply Z.leb_le in Hge. lia.
Qed.
End NoRoom.

Lemma no_room_untouched_witness :
  exists m',
    runLotteries (Settings 3 true (Some 1)) (FileLines ["P1"; "P2"]%string)
      (makeTheaterMap (theaters (store machineN))) machineN = Ok m'
    /\ forall ti T,
         theaters (store machineN) !! ti = Some T ->
         capacity T = NaN
         \/ len_ge (length (theater_assigned T)) (capacity T) = true ->
         theaters (store m') !! ti = Some T.
Proof.
  apply no_room_untouched.
  - apply fresh_closed. by repeat constructor.
  - intros _. discriminate.
Defined.

(** ** The opt-in file of the vacancy lottery *)

Section OptIn.
Context {G : Type} `{RandomSource G}.
Implicit Types (m : machine G).

Lemma vacancyTheaters_nobody (tm : gmap string nat) (tis : list nat) m :
  (forall ti, ti ∈ tis -> (ti < length (theaters (store m)))%nat) ->
  vacancyTheaters tm [] tis m = Ok m.
Proof.
  induction tis as [|ti tis IH]; intros Htis; simpl; [done|].
  destruct (lookup_lt_is_Some_2 (theaters (store m)) ti) as [T ->];
    [apply Htis; by left|]. simpl.
  assert (vacancyTheaters tm [] tis m = Ok m) as ->
    by (apply IH; intros; apply Htis; by right).
  by destruct (num_le0 _).
Qed.

Lemma vacancyCandidates_ext (ids1 ids2 : list string) (s : Store) :
  (forall P, P ∈ persons s -> person_id P ∈ ids1 <-> person_id P ∈ ids2) ->
  vacancyCandidates ids1 s = vacancyCandidates ids2 s.
Proof.
  intros Hiff. unfold vacancyCandidates. apply list_filter_iff.
  intros p. unfold optedIn, set_has.
  destruct (persons s !! p) as [P|] eqn:HP; [|done].
  apply list_elem_of_lookup_2 in HP. rewrite !bool_decide_spec. by apply Hiff.
Qed.

Lemma vacancyCandidates_nobody (ids : list string) (s : Store) :
  (forall P, P ∈ persons s -> person_id P ∉ ids) ->
  vacancyCandidates ids s = [].
Proof.
  intros Hno. unfold vacancyCandidates.
  induction (seq 0 (length (persons s))) as [|p l IH]; [done|].
  rewrite filter_cons_False; [done|]. unfold optedIn, set_has.
  destruct (persons s !! p) as [P|] eqn:HP; [|by intros []].
  apply list_elem_of_lookup_2 in HP. rewrite bool_decide_spec. by apply Hno.
Qed.

(** The vacancy lottery on lines that name no person does nothing. *)
Lemma runVacancyLottery_nobody (tm : gmap string nat) (lines : list string) m :
  (forall P, P ∈ persons (store m) -> person_id P ∉ lines) ->
  runVacancyLottery (FileLines lines) tm m = Ok m.
Proof.
  intros Hno. unfold runVacancyLottery. simpl.
  destruct (decide _); [done|].
  rewrite vacancyCandidates_nobody.
  - apply vacancyTheaters_nobody. intros ti Hti%elem_of_seq. lia.
  - intros P HP. rewrite set_from_elem_of. by apply Hno.
Qed.

(** X8. The opt-in file counts as the set of the persons it names.  Two
    files whose lines name the same persons of the store give the same
    run of the vacancy lottery: the order of the lines, repeated lines
    and lines that are no person's id make no difference.  A file that
    names no person, an empty file and a missing file all leave the
    store, the generator and the trace as they are. *)
Theorem vacancy_file_as_set (tm : gmap string nat) (lines1 lines2 : list string) m :
  (forall P, P ∈ persons (store m) ->
     person_id P ∈ lines1 <-> person_id P ∈ lines2) ->
  runVacancyLottery (FileLines lines1) tm m
  = runVacancyLottery (FileLines lines2) tm m
  /\ ((forall P, P ∈ persons (store m) -> person_id P ∉ lines1) ->
      runVacancyLottery (FileLines lines1) tm m = Ok m)
  /\ runVacancyLottery FileMissing tm m = Ok m.
Proof.
  intros Hiff. split_and!; [|apply runVacancyLottery_nobody|done].
  destruct (decide (Exists (fun P => person_id P ∈ lines1) (persons (store m))))
    as [(P & HP & Hin)%Exists_exists|Hnone]; [|rewrite Exists_exists in Hnone].
  - unfold runVacancyLottery. simpl.
    assert (forall l, person_id P ∈ l -> length (set_from l) <> 0%nat) as Hne.
    { intros l Hl%set_from_elem_of Hlen%length_zero_iff_nil.
      rewrite Hlen in Hl. by apply elem_of_nil in Hl. }
    pose proof (proj1 (Hiff P HP) Hin) as Hin2.
    rewrite (decide_False (P := length (set_from lines1) = 0%nat)) by (by apply Hne).
    rewrite (decide_False (P := length (set_from lines2) = 0%nat)) by (by apply Hne).
    rewrite (vacancyCandidates_ext (set_from lines1) (set_from lines2)); [done|].
    intros Q HQ. rewrite !set_from_elem_of. by apply Hiff.
  - rewrite !runVacancyLottery_nobody; [done|..].
    + intros Q HQ Hin. apply Hnone. exists Q. split; [done|]. by apply Hiff.
    + intros Q HQ Hin. apply Hnone. by exists Q.
Qed.
End OptIn.

Lemma vacancy_file_as_set_witness :
  runVacancyLottery (FileLines ["P2"; "P1"]%string) theaterMapA machineA
  = runVacancyLottery (FileLines ["P1"; "P9"; "P2"; "P1"]%string) theaterMapA machineA
  /\ ((forall P, P ∈ persons (store machineA) ->
         person_id P ∉ ["P2"; "P1"]%string) ->
      runVacancyLottery (FileLines ["P2"; "P1"]%string) theaterMapA machineA
      = Ok machineA)
  /\ runVacancyLottery FileMissing theaterMapA machineA = Ok machineA.
Proof.
  apply vacancy_file_as_set.
  intros P HP. simpl in HP.
  apply elem_of_cons in HP as [->|HP]; [|apply elem_of_cons in HP as [->|HP]].
  - simpl. split; intros _; by repeat constructor.
  - simpl. split; intros _; by repeat constructor.
  - by apply elem_of_nil in HP.
Defined.

(** ** The generator *)

Lemma toInt32_range (a : Z) : -2147483648 <= toInt32 a < 2147483648.
Proof.
  unfold toInt32.
  pose proof (Z.mod_pos_bound (a + 2147483648) two32 eq_refl). unfold two32 in *.
  lia.
Qed.

Lemma toInt32_id (a : Z) : -2147483648 <= a < 2147483648 -> toInt32 a = a.
Proof.
  intros Ha. unfold toInt32, two32.
  rewrite Z.mod_small by lia. lia.
Qed.

Lemma toInt32_idemp (a : Z) : toInt32 (toInt32 a) = toInt32 a.
Proof. apply toInt32_id, toInt32_range. Qed.

(** From bit 31 on, the bits of a 32-bit integer are its sign. *)
Lemma int32_high_bits (a n : Z) :
  -2147483648 <= a < 2147483648 -> 31 <= n -> Z.testbit a n = (a <? 0).
Proof.
  intros Ha Hn. destruct (Z.ltb_spec a 0) as [Hneg|Hpos].
  - apply Z.bits_above_log2_neg; [done|].
    destruct (decide (Z.pred (- a) = 0)) as [->|Hne]; [simpl; lia|].
    apply Z.log2_lt_pow2; [lia|].
    apply Z.lt_le_trans with (2 ^ 31); [lia|].
    apply Z.pow_le_mono_r; lia.
  - destruct (decide (a = 0)) as [->|Hne]; [apply Z.bits_0|].
    apply Z.bits_above_log2; [done|].
    apply Z.log2_lt_pow2; [lia|].
    apply Z.lt_le_trans with (2 ^ 31); [lia|].
    apply Z.pow_le_mono_r; lia.
Qed.

Lemma high_bits_bound (a : Z) :
  0 <= a -> (forall n, 31 <= n -> Z.testbit a n = false) -> a < 2147483648.
Proof.
  intros Ha Hbits. destruct (Z.lt_ge_cases a 2147483648) as [|Hge]; [done|].
  assert (0 < a) as Hpos by lia.
  assert (31 <= Z.log2 a) as Hlog by (apply Z.log2_le_pow2; [done|lia]).
  pose proof (Z.bit_log2 a Hpos) as Hbit. rewrite Hbits in Hbit; done.
Qed.

(** [w ^ (w >> 19)] has the sign bit clear, whatever [w] is. *)
Lemma xor_sar_range (w : Z) :
  0 <= js_xor w (js_sar w 19) < 2147483648.
Proof.
  unfold js_xor, js_sar.
  pose proof (toInt32_range w) as Hw. set (W := toInt32 w) in *.
  assert (-2147483648 <= Z.shiftr W 19 < 2147483648) as Hs.
  { rewrite Z.shiftr_div_pow2 by lia.
    pose proof (Z.div_le_mono (-2147483648) W (2 ^ 19) ltac:(lia) ltac:(lia)).
    pose proof (Z.div_le_mono W 2147483647 (2 ^ 19) ltac:(lia) ltac:(lia)).
    change (-2147483648 / 2 ^ 19) with (-4096) in *.
    change (2147483647 / 2 ^ 19) with 4095 in *. lia. }
  rewrite (toInt32_id (Z.shiftr W 19)) by done.
  assert (0 <= Z.lxor W (Z.shiftr W 19)) as Hnn.
  { apply Z.lxor_nonneg. by rewrite Z.shiftr_nonneg. }
  split; [done|]. apply high_bits_bound; [done|].
  intros n Hn. rewrite Z.lxor_spec, Z.shiftr_spec by lia.
  rewrite !int32_high_bits by (done || lia). apply xorb_nilpotent.
Qed.

Lemma lxor_int31 (a b : Z) :
  0 <= a < 2147483648 -> 0 <= b < 2147483648 ->
  0 <= Z.lxor a b < 2147483648.
Proof.
  intros Ha Hb. assert (0 <= Z.lxor a b) by (apply Z.lxor_nonneg; lia).
  split; [done|]. apply high_bits_bound; [done|].
  intros n Hn. rewrite Z.lxor_spec.
  rewrite !int32_high_bits by (done || lia).
  destruct (Z.ltb_spec a 0), (Z.ltb_spec b 0); (done || lia).
Qed.

(** X9. The first number of every generator is below one half.  Whatever
    the seed, the sign bit of [w ^ (w >> 19)] is clear, and so is that of
    the constant [t ^ (t >> 8)] of the first call: the first numerator is
    below 2^31.  So when the first shuffle of a run is between two
    candidates for one seat, the second candidate wins, for every seed. *)
Theorem first_draw_below_half {A : Type} (seed : Z) (a b : A) :
  0 <= (random (createSeededRandom seed)).1 < 2147483648
  /\ (pickWinners [a; b] (Num 1) (createSeededRandom seed)).1 = [b].
Proof.
  assert (0 <= (random (createSeededRandom seed)).1 < 2147483648) as Hu.
  { simpl. unfold toUint32.
    set (t := js_xor 123456789 (js_shl 123456789 11)).
    assert (js_xor t (js_sar t 8) = 652891760) as -> by reflexivity.
    pose proof (xor_sar_range seed) as Hw.
    set (v := js_xor seed (js_sar seed 19)) in *.
    assert (js_xor v 652891760 = Z.lxor v 652891760) as ->.
    { unfold js_xor. by rewrite !toInt32_id by lia. }
    pose proof (lxor_int31 v 652891760 Hw ltac:(lia)).
    rewrite Z.mod_small; unfold two32; lia. }
  split; [done|].
  unfold pickWinners, createShuffledArray. simpl len_le. cbn [length Nat.sub shuffleLoop].
  destruct (random (createSeededRandom seed)) as [u g']. simpl in Hu.
  assert (floor_times u (1 + 1) = 0%nat) as ->; [|done].
  rewrite floor_times_exact by (change (Z.of_nat (1 + 1)) with 2; lia).
  unfold two32. rewrite Z.div_small; [done|].
  change (Z.of_nat (1 + 1)) with 2. lia.
Qed.

Lemma xorshift_next_int32 (g g' : xorshift) :
  same_int32 g g' ->
  (xorshift_next g).1 = (xorshift_next g').1
  /\ same_int32 (xorshift_next g).2 (xorshift_next g').2.
Proof.
  intros (Hx & Hy & Hz & Hw). unfold xorshift_next, same_int32; simpl.
  assert (forall a b a' b', toInt32 a = toInt32 a' -> toInt32 b = toInt32 b' ->
            js_xor a b = js_xor a' b') as Hxor
    by (intros ???? Ha Hb; unfold js_xor; by rewrite Ha, Hb).
  assert (forall a a' k, toInt32 a = toInt32 a' -> js_shl a k = js_shl a' k) as Hshl
    by (intros ??? Ha; unfold js_shl; by rewrite Ha).
  assert (forall a a' k, toInt32 a = toInt32 a' -> js_sar a k = js_sar a' k) as Hsar
    by (intros ??? Ha; unfold js_sar; by rewrite Ha).
  assert (js_xor (xs_x g) (js_shl (xs_x g) 11)
          = js_xor (xs_x g') (js_shl (xs_x g') 11)) as Ht
    by (apply Hxor; [done|]; f_equal; by apply Hshl).
  rewrite Ht.
  assert (js_xor (xs_w g) (js_sar (xs_w g) 19)
          = js_xor (xs_w g') (js_sar (xs_w g') 19)) as Hv
    by (apply Hxor; [done|]; f_equal; by apply Hsar).
  rewrite Hv. done.
Qed.

Lemma draws_int32 (n : nat) (g g' : xorshift) :
  same_int32 g g' -> draws n g = draws n g'.
Proof.
  revert g g'. induction n as [|n IH]; intros g g' Hg; [done|].
  destruct (xorshift_next_int32 g g' Hg) as [Hu Hnext].
  cbn [draws random xorshift_source].
  destruct (xorshift_next g) as [u g1], (xorshift_next g') as [u' g1'].
  simpl in *. subst u'. f_equal. by apply IH.
Qed.

(** X10. The seed counts modulo 2^32.  Two seeds with the same 32-bit
    integer (such as a seed and the seed plus 2^32) give generators that
    return the same numbers, call after call. *)
Theorem seed_modulo_2_32 (seed1 seed2 : Z) (n : nat) :
  toInt32 seed1 = toInt32 seed2 ->
  draws n (createSeededRandom seed1) = draws n (createSeededRandom seed2).
Proof. intros Hs. apply draws_int32. by split_and!. Qed.

Lemma seed_modulo_2_32_witness :
  draws 5 (createSeededRandom 1700000000000)
  = draws 5 (createSeededRandom (1700000000000 - 395 * 4294967296)).
Proof. apply seed_modulo_2_32. reflexivity. Defined.

Section SelectionDraws.
Context {A G1 G2 : Type} `{RandomSource G1} `{RandomSource G2}.

Lemma shuffleLoop_draws (i : nat) (l : list A) (g1 : G1) (g2 : G2) :
  draws i g1 = draws i g2 ->
  (shuffleLoop i l g1).1 = (shuffleLoop i l g2).1
  /\ (shuffleLoop i l g1).2 = after_draws i g1.
Proof.
  revert l g1 g2. induction i as [|i IH]; intros l g1 g2 Hd; [done|].
  cbn [draws shuffleLoop after_draws] in *.
  destruct (random g1) as [u1 g1'], (random g2) as [u2 g2'].
  injection Hd as -> Hd. by apply IH.
Qed.

(** X11. What a selection takes from the generator.  When the candidates
    fit into the seats, [pickWinners] leaves the generator as it is;
    otherwise it draws one number less than there are candidates.  The
    winners depend on the generator through these numbers only: two
    generators, of whatever kind, that return the same numbers give the
    same winners. *)
Theorem pickWinners_draws (candidates : list A) (seats : num) (g1 : G1) (g2 : G2) :
  draws (length candidates - 1) g1 = draws (length candidates - 1) g2 ->
  (pickWinners candidates seats g1).1 = (pickWinners candidates seats g2).1
  /\ (pickWinners candidates seats g1).2
     = if len_le (length candidates) seats then g1
       else after_draws (length candidates - 1) g1.
Proof.
  intros Hd. unfold pickWinners, createShuffledArray.
  destruct (len_le _ _); [done|].
  destruct (shuffleLoop_draws (length candidates - 1) candidates g1 g2 Hd)
    as [Hl Hg].
  destruct (shuffleLoop _ candidates g1) as [sh1 g1'].
  destruct (shuffleLoop _ candidates g2) as [sh2 g2']. simpl in *.
  by subst.
Qed.
End SelectionDraws.

Lemma pickWinners_draws_witness :
  (pickWinners [1; 2; 3]%nat (Num 1) (createSeededRandom 1)).1
  = (pickWinners [1; 2; 3]%nat (Num 1) (createSeededRandom (1 + 4294967296))).1
  /\ (pickWinners [1; 2; 3]%nat (Num 1) (createSeededRandom 1)).2
     = if len_le (length [1; 2; 3]%nat) (Num 1) then createSeededRandom 1
       else after_draws (length [1; 2; 3]%nat - 1) (createSeededRandom 1).
Proof. apply pickWinners_draws. reflexivity. Defined.

(** ** Fewer wins first *)

Lemma groupLoop_Ok_bound (ps : list nat) (st : Store)
    (groups groups' : list (nat * list nat)) :
  groupLoop ps st groups = Ok groups' ->
  forall p, p ∈ ps -> (p < length (persons st))%nat.
Proof.
  revert groups. induction ps as [|q ps IH]; intros groups Hrun p Hp;
    [by apply elem_of_nil in Hp|].
  simpl in Hrun. inv_ok Hrun.
  apply elem_of_cons in Hp as [->|Hp]; [by eapply lookup_lt_Some|by eapply IH].
Qed.

Lemma app_eq_tail {A : Type} (l t : list A) : t = l ++ t -> l = [].
Proof.
  intros Heq. apply (f_equal length) in Heq. rewrite length_app in Heq.
  apply length_zero_iff_nil. lia.
Qed.

Section Priority.
Context {G : Type} `{RandomSource G}.
Variable tm : gmap string nat.
Variable keep : Store -> nat -> nat -> result bool.
Hypothesis Hok : keep_ok tm keep.
Implicit Types (m : machine G).

Lemma assignWinners_trace (winners : list nat) (ti : nat) m m' :
  assignWinners winners ti m = Ok m' ->
  exists new,
    trace m' = new ++ trace m /\ chain (store m) new (store m')
    /\ new.*1.*1 = reverse winners.
Proof.
  revert m. induction winners as [|p rest IH]; intros m Hrun; simpl in Hrun.
  - injection Hrun as <-. exists []. split_and!; [done|constructor|done].
  - inv_ok Hrun. destruct (IH _ Hrun) as (new & Hnew & Hch & Hps); simpl in *.
    exists (new ++ [(p, ti, store m)]). split_and!.
    + by rewrite Hnew, <- app_assoc.
    + eapply chain_app; [|done]. by repeat econstructor.
    + by rewrite !fmap_app, Hps, reverse_cons.
Qed.

Lemma countsLoop_no_seats (groups : list (nat * list nat)) (counts : list nat)
    (ti : nat) (seats : num) m m' :
  num_le0 seats = true ->
  countsLoop keep groups counts ti seats m = Ok m' -> m' = m.
Proof.
  intros Hle Hrun. destruct counts; simpl in Hrun; [|rewrite Hle in Hrun];
    by injection Hrun.
Qed.

Lemma countsLoop_NaN (groups : list (nat * list nat)) (counts : list nat)
    (ti : nat) m m' :
  countsLoop keep groups counts ti NaN m = Ok m' ->
  store m' = store m /\ trace m' = trace m.
Proof.
  revert m. induction counts as [|c rest IH]; intros m Hrun; simpl in Hrun.
  { by injection Hrun as <-. }
  inv_ok Hrun. destruct a0 as [|c0 cands]; [by apply IH|].
  pose proof (pickWinners_length (c0 :: cands) NaN (gen m)) as Hw. simpl in Hw.
  destruct (pickWinners _ _ _) as [winners g']. simpl in Hw. subst winners.
  simpl in Hrun. by apply IH in Hrun.
Qed.

(** The loop over ascending counts, with buckets that hold persons of
    their count only ([wc] gives the count of a person): the winners come
    from the buckets, and an accepted person of a lower count wins
    whenever a person of a higher count does. *)
Lemma countsLoop_priority (wc : nat -> nat) (groups : list (nat * list nat))
    (ti : nat) (counts : list nat) (seats : num) m m' (new : list event) :
  StronglySorted lt counts ->
  (forall c b p, groups_get groups c = Some b -> p ∈ b -> wc p = c) ->
  countsLoop keep groups counts ti seats m = Ok m' ->
  trace m' = new ++ trace m ->
  (forall q, q ∈ new.*1.*1 -> wc q ∈ counts)
  /\ forall p b q,
       wc p ∈ counts -> groups_get groups (wc p) = Some b -> p ∈ b ->
       keep (store m) ti p = Ok true ->
       q ∈ new.*1.*1 -> (wc p < wc q)%nat -> p ∈ new.*1.*1.
Proof.
  intros Hsort Hwc. revert seats m new.
  induction counts as [|c0 rest IH]; intros seats m new Hrun Htr; simpl in Hrun.
  { injection Hrun as <-. apply app_eq_tail in Htr as ->.
    split; [by intros ? ?%elem_of_nil|]. by intros ? ? ? ? ? ? ? ?%elem_of_nil. }
  apply StronglySorted_inv in Hsort as [Hsort Hlt].
  rewrite Forall_forall in Hlt. specialize (IH Hsort).
  destruct (num_le0 seats) eqn:Hle.
  { injection Hrun as <-. apply app_eq_tail in Htr as ->.
    split; [by intros ? ?%elem_of_nil|]. by intros ? ? ? ? ? ? ? ?%elem_of_nil. }
  inv_ok Hrun. rename a into bucket, a0 into candidates.
  destruct (filterR_Ok _ _ _ Ha0) as (Hin & Hout & _).
  destruct candidates as [|cand cands].
  { destruct (IH _ _ _ Hrun Htr) as [Hfrom Hpri]. split.
    - intros q Hq. apply elem_of_cons. right. by apply Hfrom.
    - intros p b q [Hc|Hc]%elem_of_cons Hb Hp Hk Hq Hlt'; [|by eapply Hpri].
      rewrite <- Hc in Ha. assert (b = bucket) as -> by congruence.
      destruct (Hout p Hp) as [?%elem_of_nil|?]; [done|congruence]. }
  set (candidates := cand :: cands) in *.
  pose proof (pickWinners_elem_of candidates seats (gen m)) as Hwin.
  pose proof (pickWinners_length candidates seats (gen m)) as Hwlen.
  assert (match seats with
          | NaN => True
          | Num z => (pickWinners candidates seats (gen m)).1 = candidates
                     \/ Z.of_nat (length (pickWinners candidates seats (gen m)).1) = z
          end) as Hcases.
  { destruct seats as [|z]; [done|]. apply pickWinners_cases.
    simpl in Hle. by apply Z.leb_gt in Hle. }
  destruct (pickWinners candidates seats (gen m)) as [winners g']; simpl in *.
  inv_ok Hrun. rename a into m1.
  destruct (assignWinners_trace _ _ _ _ Ha1) as (new1 & Htr1 & Hch1 & Hps1).
  simpl in *.
  destruct (countsLoop_chain _ _ _ _ _ _ _ Hrun) as (new2 & Htr2 & _).
  assert (new = new2 ++ new1) as ->.
  { rewrite Htr2, Htr1, app_assoc in Htr. by apply app_inv_tail in Htr. }
  destruct (IH _ _ _ Hrun Htr2) as [Hfrom Hpri].
  assert (forall q, q ∈ new1.*1.*1 -> wc q = c0) as Hfrom1.
  { intros q Hq. rewrite Hps1, elem_of_reverse in Hq.
    apply Hwin, Hin in Hq as [Hq _]. by eapply Hwc. }
  split.
  - intros q. rewrite !fmap_app, elem_of_app, elem_of_cons.
    intros [Hq|Hq]; [right; by apply Hfrom|left; by apply Hfrom1].
  - intros p b q Hc Hb Hp Hk. rewrite !fmap_app, !elem_of_app.
    intros Hq Hlt'. apply elem_of_cons in Hc as [Hc|Hc].
    + right. rewrite <- Hc in Ha. assert (b = bucket) as -> by congruence.
      assert (p ∈ candidates) as Hpc.
      { destruct (Hout p Hp) as [?|?]; [done|congruence]. }
      rewrite Hps1, elem_of_reverse.
      destruct seats as [|z].
      * apply countsLoop_NaN in Hrun as [_ Htr'].
        rewrite Htr' in Htr2. apply app_eq_tail in Htr2 as ->.
        destruct Hq as [?%elem_of_nil|Hq]; [done|].
        apply Hfrom1 in Hq. lia.
      * destruct Hcases as [->|Hall]; [done|].
        apply countsLoop_no_seats in Hrun; [|simpl; apply Z.leb_le; lia].
        subst m'. apply app_eq_tail in Htr2 as ->.
        destruct Hq as [?%elem_of_nil|Hq]; [done|].
        apply Hfrom1 in Hq. lia.
    + left. pose proof (Hlt _ Hc) as Hc0.
      destruct Hq as [Hq|Hq]; [|apply Hfrom1 in Hq; lia].
      eapply Hpri; try done.
      rewrite <- Hk. apply (keep_frame _ _ Hok).
      * eapply chain_person_other; [done|]. intros Hp1%Hfrom1. lia.
      * by apply (chain_static _ _ _ Hch1).
Qed.

(** X12. Fewer wins first.  In the loop over the counts for a theater,
    run on the buckets that [groupByAssignedCount] made of the persons
    [ps] in a store [s0]: whenever a person is registered, so is every
    person of [ps] with fewer wins in [s0] whom the callback of the
    filter accepts at the start of the loop.  (The wins are counted when
    the buckets are made: for the vacancy lottery right before the loop,
    for the initial lottery at the start of the round.) *)
Theorem fewer_wins_first (ps : list nat) (s0 : Store)
    (groups : list (nat * list nat)) (ti : nat) (seats : num) m m'
    (new : list event) :
  groupByAssignedCount ps s0 = Ok groups ->
  countsLoop keep groups (sorted_counts groups) ti seats m = Ok m' ->
  trace m' = new ++ trace m ->
  forall p q,
    p ∈ ps -> keep (store m) ti p = Ok true ->
    q ∈ new.*1.*1 -> (win_count s0 p < win_count s0 q)%nat ->
    p ∈ new.*1.*1.
Proof.
  intros Hgr Hrun Htr p q Hp Hk Hq Hlt.
  pose proof (groupLoop_Ok_bound _ _ _ _ Hgr) as Hbound.
  destruct (groupLoop_buckets_of ps s0 [] []) as (groups' & Hrun' & Hnd & Hget);
    [done|split; [constructor|done]|].
  unfold groupByAssignedCount in Hgr. assert (groups' = groups) as -> by congruence.
  simpl in Hget.
  assert (forall c b x, groups_get groups c = Some b -> x ∈ b -> win_count s0 x = c)
    as Hwc.
  { intros c b x Hb Hx. rewrite Hget in Hb.
    destruct (filter _ ps) as [|y l] eqn:Hf; [done|]. injection Hb as <-.
    rewrite <- Hf in Hx. by apply list_elem_of_filter in Hx as [? _]. }
  destruct (groupByAssignedCount_covers ps s0 groups Hbound Hgr p Hp)
    as (c & b & Hc & Hb & Hpb).
  pose proof (Hwc c b p Hb Hpb) as <-.
  destruct (countsLoop_priority (win_count s0) groups ti (sorted_counts groups)
              seats m m' new) as [_ Hpri]; try done.
  - apply StronglySorted_le_NoDup_lt.
    + apply StronglySorted_merge_sort; apply _.
    + unfold sorted_counts. by rewrite merge_sort_Permutation.
  - by eapply Hpri.
Qed.
End Priority.

Lemma fewer_wins_first_witness :
  countsLoop (noConflict (makeTheaterMap (theaters storeP)))
    [(1, [0]); (0, [1])]%nat (sorted_counts [(1, [0]); (0, [1])]%nat) 0 (Num 2)
    machineP = Ok machineP_after
  /\ forall p q,
       p ∈ [0; 1]%nat ->
       noConflict (makeTheaterMap (theaters storeP)) (store machineP) 0 p = Ok true ->
       q ∈ (trace machineP_after).*1.*1 ->
       (win_count storeP p < win_count storeP q)%nat ->
       p ∈ (trace machineP_after).*1.*1.
Proof.
  split; [reflexivity|].
  apply (fewer_wins_first (makeTheaterMap (theaters storeP))
           (noConflict (makeTheaterMap (theaters storeP)))
           (noConflict_ok (makeTheaterMap (theaters storeP)))
           [0; 1]%nat storeP [(1, [0]); (0, [1])]%nat 0 (Num 2)
           machineP machineP_after (trace machineP_after)); reflexivity.
Defined.

(** ** First preferences *)

Lemma chain_full_or_won (s s' : Store) (tr : list event) (p ti : nat)
    (P P' : person) (T T' : theater) :
  chain s tr s' ->
  persons s !! p = Some P -> theaters s !! ti = Some T ->
  persons s' !! p = Some P' -> theaters s' !! ti = Some T' ->
  full s ti \/ theater_id T ∈ person_assigned P ->
  len_ge (length (theater_assigned T')) (capacity T') = true
  \/ theater_id T' ∈ person_assigned P'.
Proof.
  intros Hch HP HT HP' HT' [Hfull|Hwon].
  - left. destruct (chain_full _ _ _ ti Hch Hfull) as (T2 & HT2 & ?). congruence.
  - right. destruct (chain_grows _ _ _ Hch) as [[Hgp _] _].
    destruct (Hgp p P HP) as (P2 & HP2 & Hsub).
    assert (P2 = P') as -> by congruence.
    destruct (same_static_theater s s' ti T (chain_static _ _ _ Hch) HT)
      as (T2 & HT2 & HsT).
    assert (T2 = T') as -> by congruence.
    apply tstatic_eq in HsT as (-> & _). by apply Hsub.
Qed.

Section FirstChoice.
Context {G : Type} `{RandomSource G}.
Variable tm : gmap string nat.
Implicit Types (m : machine G).

(** After the round of rank 0, run from a store in which nobody has won
    anything yet, a theater is full or held by everybody whose first
    preference it is. *)
Lemma first_round_honours m m1 :
  wf tm (store m) ->
  Forall (fun P => person_assigned P = []) (persons (store m)) ->
  initialRound 0 tm m = Ok m1 ->
  forall p ti P T,
    persons (store m1) !! p = Some P -> theaters (store m1) !! ti = Some T ->
    prefs P !! 0%nat = Some (Some (theater_id T)) -> capacity T <> NaN ->
    full (store m1) ti \/ theater_id T ∈ person_assigned P.
Proof.
  intros Hwf Hfresh Hrun p ti P T HP HT Hpref Hcap.
  pose proof Hwf as (Hcl & _).
  destruct (initialRound_once tm 0 m Hcl) as (m1' & new & Hrun' & _ & Hch & _ & Hwins).
  assert (m1' = m1) as -> by congruence.
  pose proof (chain_static _ _ _ Hch) as Hst.
  destruct (initialRound_served tm 0 m m1 Hwf Hrun ti T HT Hcap) as [?|Hrej];
    [by left|right].
  destruct (proj1 (wantsTheater_false 0 tm (store m1) ti p))
    as (P' & T' & HP' & HT' & Hwhy).
  { apply Hrej, elem_of_seq. apply lookup_lt_Some in HP.
    pose proof (same_static_persons_length _ _ Hst). lia. }
  assert (P' = P) as -> by congruence. assert (T' = T) as -> by congruence.
  destruct Hwhy as [?|[?|Hc]]; [done..|].
  destruct (same_static_person (store m1) (store m) p P) as (P0 & HP0 & HsP);
    [done..|].
  destruct (Hwins p P0 HP0) as (P2 & HP2 & Hw).
  assert (P2 = P) as -> by congruence.
  rewrite Forall_forall in Hfresh.
  rewrite (Hfresh P0) in Hw by (by eapply list_elem_of_lookup_2).
  destruct Hw as [Hw|(tid & Htid & Hw)].
  - unfold hasConflict in Hc. by rewrite Hw in Hc.
  - assert (prefs P0 = prefs P) as Hpr by (unfold pstatic in HsP; congruence).
    rewrite Hpr, Hpref in Htid. injection Htid as <-.
    rewrite Hw. by left.
Qed.

(** X13. First preferences are honoured while seats last.  From a store
    in good order in which nobody has won anything yet, and with at least
    one round, the two lotteries return (unless the vacancy lottery is
    enabled and its file cannot be read), and at the end every theater
    with a numeric capacity is full or is held by every person whose
    first preference it is. *)
Theorem first_choice_honoured (cfg : settings) (vacancyFile : file) m :
  wf tm (store m) ->
  Forall (fun P => person_assigned P = []) (persons (store m)) ->
  (0 < maxOrders cfg)%nat ->
  (enableVacancy cfg = true -> vacancyFile <> FileUnreadable) ->
  exists m',
    runLotteries cfg vacancyFile tm m = Ok m'
    /\ forall p ti P T,
         persons (store m') !! p = Some P -> theaters (store m') !! ti = Some T ->
         prefs P !! 0%nat = Some (Some (theater_id T)) -> capacity T <> NaN ->
         len_ge (length (theater_assigned T)) (capacity T) = true
         \/ theater_id T ∈ person_assigned P.
Proof.
  intros Hwf Hfresh Hpos Hf. pose proof Hwf as (Hcl & _).
  destruct (runLotteries_spec cfg vacancyFile tm m Hcl Hf) as (m' & Hrun & Hs).
  exists m'. split; [done|]. intros p ti P T HP HT Hpref Hcap.
  pose proof Hs as (tr & _ & Hch & _).
  pose proof (chain_static _ _ _ Hch) as Hst.
  destruct (same_static_person (store m') (store m) p P) as (P0 & HP0 & _);
    [done..|].
  destruct (same_static_theater (store m') (store m) ti T) as (T0 & HT0 & HsT0);
    [done..|].
  unfold runLotteries, runInitialLottery in Hrun.
  destruct (maxOrders cfg) as [|n]; [lia|]. cbn [seq initialRanks] in Hrun.
  destruct (allFull (store m)) eqn:Hall.
  { left. destruct (chain_full _ _ _ ti Hch) as (T2 & HT2 & ?); [|congruence].
    apply allFull_full; [done|]. by eapply lookup_lt_Some. }
  inv_ok Hrun. rename a into m2. inv_ok Ha. rename a into m1.
  destruct (initialRound_spec tm 0 m Hcl) as (m1' & Hrun1 & Hs1).
  assert (m1' = m1) as -> by congruence.
  pose proof Hs1 as (new1 & _ & Hch1 & _).
  destruct (chain_wf tm _ _ _ Hwf Hch1) as [Hwf1 _].
  assert (exists tr', chain (store m1) tr' (store m')) as [tr' Hch'].
  { destruct (initialRanks_spec tm (seq 1 n) m1) as (m2' & Hrun2 & new2 & _ & Hch2 & _);
      [apply Hwf1|].
    assert (m2' = m2) as -> by congruence.
    destruct (enableVacancy cfg) eqn:Hev; [|injection Hrun as <-; by eexists].
    destruct (runVacancyLottery_spec tm vacancyFile m2)
      as (m3 & Hrun3 & new3 & _ & Hch3 & _);
      [by eapply chain_closed; [apply Hwf1|]|by apply Hf|].
    assert (m3 = m') as -> by congruence.
    exists (new3 ++ new2). by eapply chain_app. }
  pose proof (chain_static _ _ _ Hch') as Hst'.
  destruct (same_static_person (store m') (store m1) p P) as (P1 & HP1 & HsP1);
    [done..|].
  destruct (same_static_theater (store m') (store m1) ti T) as (T1 & HT1 & HsT1);
    [done..|].
  eapply (chain_full_or_won (store m1) (store m')); try done.
  apply (first_round_honours m m1 Hwf Hfresh Ha0 p ti P1 T1 HP1 HT1).
  - assert (prefs P1 = prefs P) as -> by (unfold pstatic in HsP1; congruence).
    apply tstatic_eq in HsT1 as (-> & _). done.
  - apply tstatic_eq in HsT1 as (_ & _ & _ & ->). done.
Qed.
End FirstChoice.

Lemma first_choice_honoured_witness :
  exists m',
    runLotteries (Settings 2 true (Some 1)) (FileLines ["P1"]%string)
      theaterMapA machineA = Ok m'
    /\ forall p ti P T,
         persons (store m') !! p = Some P -> theaters (store m') !! ti = Some T ->
         prefs P !! 0%nat = Some (Some (theater_id T)) -> capacity T <> NaN ->
         len_ge (length (theater_assigned T)) (capacity T) = true
         \/ theater_id T ∈ person_assigned P.
Proof.
  apply first_choice_honoured.
  - apply (fresh_wf (persons storeA) (theaters storeA)).
    + split; by repeat constructor.
    + split; by vm_compute; apply (bool_decide_unpack _).
  - by repeat constructor.
  - simpl. lia.
  - discriminate.
Defined.

(** ** The text of the input files *)

Lemma add_char_join (sep : list Z) (c : Z) (pieces : list (list Z)) :
  pieces <> [] -> join sep (add_char c pieces) = c :: join sep pieces.
Proof. destruct pieces as [|p [|q rest]]; done. Qed.

Lemma split_not_nil (sep : Z) (s : list Z) : split sep s <> [].
Proof.
  induction s as [|c s IH]; simpl; [done|].
  destruct (decide (c = sep)); [done|]. by destruct (split sep s).
Qed.

Lemma join_split (sep : Z) (s : list Z) : join [sep] (split sep s) = s.
Proof.
  induction s as [|c s IH]; simpl; [done|].
  destruct (decide (c = sep)) as [->|Hne].
  - pose proof (split_not_nil sep s).
    destruct (split sep s) as [|p rest] eqn:Hs; [done|].
    simpl. by rewrite <- IH.
  - rewrite add_char_join by apply split_not_nil. by rewrite IH.
Qed.

Lemma split_no_sep (sep : Z) (s : list Z) :
  Forall (fun cell => sep ∉ cell) (split sep s).
Proof.
  induction s as [|c s IH]; simpl.
  - constructor; [by intros ?%elem_of_nil|done].
  - destruct (decide (c = sep)) as [->|Hne].
    + constructor; [by intros ?%elem_of_nil|done].
    + destruct (split sep s) as [|p rest]; simpl.
      * constructor; [|done]. intros ?%list_elem_of_singleton; congruence.
      * apply Forall_cons in IH as [Hp Hrest]. constructor; [|done].
        intros [?|?]%elem_of_cons; [congruence|done].
Qed.

Lemma split_lines_no_LF (s : list Z) :
  Forall (fun line => LF ∉ line) (split_lines s).
Proof.
  assert (forall c pieces, c <> LF ->
            Forall (fun line => LF ∉ line) pieces ->
            Forall (fun line : list Z => LF ∉ line) (add_char c pieces)) as Hadd.
  { intros c [|p rest] Hc Hall; simpl.
    - constructor; [|done]. intros ?%list_elem_of_singleton; congruence.
    - apply Forall_cons in Hall as [Hp Hrest]. constructor; [|done].
      intros [?|?]%elem_of_cons; [congruence|done]. }
  induction s as [s IH] using (induction_ltof1 _ length). unfold ltof in IH.
  destruct s as [|c rest]; simpl.
  { constructor; [by intros ?%elem_of_nil|done]. }
  destruct (decide (c = LF)) as [->|Hne].
  { constructor; [by intros ?%elem_of_nil|]. apply IH. simpl. lia. }
  destruct rest as [|c' rest'].
  { simpl. constructor; [|done]. intros ?%list_elem_of_singleton; congruence. }
  destruct (decide (c = CR /\ c' = LF)) as [[-> ->]|_].
  - constructor; [by intros ?%elem_of_nil|]. apply IH. simpl. lia.
  - apply Hadd; [done|]. apply IH. simpl. lia.
Qed.

Lemma elem_of_join (sep : list Z) (pieces : list (list Z)) (c : Z) :
  c ∈ join sep pieces -> c ∈ sep \/ exists piece, piece ∈ pieces /\ c ∈ piece.
Proof.
  induction pieces as [|p rest IH]; simpl; [by intros ?%elem_of_nil|].
  destruct rest as [|q rest].
  - intros Hc. right. exists p. split; [by left|done].
  - rewrite !elem_of_app. intros [Hc|[Hc|Hc]].
    + right. exists p. split; [by left|done].
    + by left.
    + destruct (IH Hc) as [?|(piece & ? & ?)]; [by left|right].
      exists piece. split; [by right|done].
Qed.

Lemma elem_of_join_piece (sep : list Z) (pieces : list (list Z))
    (piece : list Z) (c : Z) :
  piece ∈ pieces -> c ∈ piece -> c ∈ join sep pieces.
Proof.
  induction pieces as [|p rest IH]; [by intros ?%elem_of_nil|].
  intros Hp Hc. simpl. destruct rest as [|q rest].
  - apply list_elem_of_singleton in Hp as ->. done.
  - rewrite !elem_of_app. apply elem_of_cons in Hp as [->|Hp]; [by left|].
    right; right. by apply IH.
Qed.

(** X14. The shape of what [readTSV] returns.  Whatever the content of
    the file: no line that [readLines] keeps is empty or holds a line
    feed; every row of [readTSV] has at least one cell, no cell holds a
    tab or a line feed, and the cells of a row joined with tabs are the
    line they came from. *)
Theorem readTSV_shape (content : list Z) :
  Forall (fun line => line <> [] /\ (LF ∉ line)) (contentLines content)
  /\ Forall (fun row => row <> []
               /\ Forall (fun cell => (TAB ∉ cell) /\ (LF ∉ cell)) row)
       (readTSV content)
  /\ map (join [TAB]) (readTSV content) = contentLines content.
Proof.
  assert (Forall (fun line => line <> [] /\ (LF ∉ line)) (contentLines content))
    as Hlines.
  { apply Forall_forall. intros line [Hne Hin]%list_elem_of_filter.
    split; [done|].
    pose proof (split_lines_no_LF (trim content)) as Hall.
    rewrite Forall_forall in Hall. by apply Hall. }
  split_and!; [done| |].
  - unfold readTSV. apply Forall_fmap. eapply Forall_impl; [exact Hlines|].
    intros line [_ HLF]. simpl. split; [apply split_not_nil|].
    pose proof (split_no_sep TAB line) as Hsep.
    rewrite Forall_forall in Hsep. apply Forall_forall. intros cell Hcell.
    split; [by apply Hsep|]. intros Hc. apply HLF.
    rewrite <- (join_split TAB line). by eapply elem_of_join_piece.
  - unfold readTSV. rewrite <- list_fmap_compose.
    rewrite <- (list_fmap_id (contentLines content)) at 2.
    apply list_fmap_ext. intros _ line _. simpl. apply join_split.
Qed.

Lemma trimStart_white (w s : list Z) :
  Forall (fun c => is_white_space c = true) w -> trimStart (w ++ s) = trimStart s.
Proof. induction 1 as [|c w Hc _ IH]; simpl; [done|]. by rewrite Hc. Qed.

Lemma trimStart_app (s w : list Z) :
  Forall (fun c => is_white_space c = true) w ->
  trimStart (s ++ w) = match trimStart s with [] => [] | t => t ++ w end.
Proof.
  intros Hw. induction s as [|c s IH]; simpl.
  - pose proof (trimStart_white w [] Hw) as Hnil. by rewrite app_nil_r in Hnil.
  - by destruct (is_white_space c).
Qed.

Lemma trimEnd_white (s w : list Z) :
  Forall (fun c => is_white_space c = true) w -> trimEnd (s ++ w) = trimEnd s.
Proof.
  intros Hw. unfold trimEnd. rewrite reverse_app, trimStart_white; [done|].
  by apply Forall_reverse.
Qed.

(** White space around a text does not count. *)
Lemma trim_pad (w1 s w2 : list Z) :
  Forall (fun c => is_white_space c = true) w1 ->
  Forall (fun c => is_white_space c = true) w2 ->
  trim (w1 ++ s ++ w2) = trim s.
Proof.
  intros H1 H2. unfold trim. rewrite trimStart_white, trimStart_app by done.
  destruct (trimStart s) as [|c t]; [done|]. by rewrite trimEnd_white.
Qed.

Lemma split_cut (sep : Z) (l s : list Z) :
  sep ∉ l ->
  split sep (l ++ sep :: s) = l :: split sep s /\ split sep l = [l].
Proof.
  induction l as [|c l IH]; intros Hl; simpl.
  - by rewrite decide_True.
  - apply not_elem_of_cons in Hl as [Hc Hl]. destruct (IH Hl) as [-> ->].
    by rewrite !decide_False by done.
Qed.

Lemma split_join (sep : Z) (row : list (list Z)) :
  row <> [] -> Forall (fun cell => sep ∉ cell) row ->
  split sep (join [sep] row) = row.
Proof.
  intros Hne Hall. induction Hall as [|cell rest Hcell Hrest IH]; [done|].
  simpl. destruct rest as [|cell' rest]; [by apply split_cut|].
  destruct (split_cut sep cell (join [sep] (cell' :: rest)) Hcell) as [Hcut _].
  simpl in *. rewrite Hcut. f_equal. by apply IH.
Qed.

Lemma split_lines_cut (l s : list Z) :
  LF ∉ l -> CR ∉ l ->
  split_lines (l ++ LF :: s) = l :: split_lines s
  /\ split_lines (l ++ CR :: LF :: s) = l :: split_lines s
  /\ split_lines l = [l].
Proof.
  induction l as [|c l IH]; intros HLF HCR.
  - done.
  - apply not_elem_of_cons in HLF as [Hc1 HLF].
    apply not_elem_of_cons in HCR as [Hc2 HCR].
    destruct (IH HLF HCR) as (H1 & H2 & H3).
    assert (forall t, split_lines (c :: t) = add_char c (split_lines t)) as Hstep.
    { intros t. simpl. rewrite decide_False by done.
      destruct t as [|c' t']; [done|].
      rewrite decide_False; [done|]. by intros [? _]. }
    change ((c :: l) ++ LF :: s) with (c :: (l ++ LF :: s)).
    change ((c :: l) ++ CR :: LF :: s) with (c :: (l ++ CR :: LF :: s)).
    by rewrite !Hstep, H1, H2, H3.
Qed.

Lemma split_lines_join (eol : list Z) (lines : list (list Z)) :
  eol = [LF] \/ eol = [CR; LF] ->
  lines <> [] -> Forall (fun line => (LF ∉ line) /\ (CR ∉ line)) lines ->
  split_lines (join eol lines) = lines.
Proof.
  intros Heol Hne Hall. induction Hall as [|line rest [HLF HCR] Hrest IH]; [done|].
  destruct (split_lines_cut line (join eol rest) HLF HCR) as (H1 & H2 & H3).
  simpl. destruct rest as [|line' rest]; [done|].
  destruct Heol as [->| ->]; simpl in *.
  - rewrite H1. f_equal. by apply IH.
  - rewrite H2. f_equal. by apply IH.
Qed.

Lemma join_eq_nil (sep : list Z) (pieces : list (list Z)) :
  sep <> [] -> join sep pieces = [] -> pieces = [] \/ pieces = [[]].
Proof.
  intros Hsep. destruct pieces as [|p [|q rest]]; simpl; [by left| |].
  - intros ->. by right.
  - intros [_ [? _]%app_eq_nil]%app_eq_nil. done.
Qed.

(** X15. Reading back what was written.  Rows of cells without tabs,
    line feeds and carriage returns, each row with at least one cell and
    none consisting of a single empty cell, are written as lines of cells
    joined with tabs, the lines joined with line feeds (as [writeResults]
    does) or with carriage return and line feed.  If that text neither
    begins nor ends with white space, [readTSV] gives the rows back,
    whatever white space surrounds the text in the file: a byte order
    mark, blank lines, a final line break. *)
Theorem readTSV_join (rows : list (list (list Z))) (eol w1 w2 : list Z) :
  eol = [LF] \/ eol = [CR; LF] ->
  Forall (fun row => row <> [] /\ row <> [[]]
            /\ Forall (fun cell => (TAB ∉ cell) /\ (LF ∉ cell) /\ (CR ∉ cell)) row)
    rows ->
  trim (join eol (map (join [TAB]) rows)) = join eol (map (join [TAB]) rows) ->
  Forall (fun c => is_white_space c = true) w1 ->
  Forall (fun c => is_white_space c = true) w2 ->
  readTSV (w1 ++ join eol (map (join [TAB]) rows) ++ w2) = rows.
Proof.
  intros Heol Hrows Htight Hw1 Hw2.
  unfold readTSV, contentLines. rewrite trim_pad, Htight by done.
  set (lines := map (join [TAB]) rows).
  assert (Forall (fun line => line <> [] /\ (LF ∉ line) /\ (CR ∉ line)) lines)
    as Hlines.
  { apply Forall_fmap. eapply Forall_impl; [exact Hrows|].
    intros row (Hne & Hne' & Hcells). simpl. rewrite Forall_forall in Hcells.
    split_and!.
    - intros [?|?]%join_eq_nil; done.
    - intros [[?|?%elem_of_nil]%elem_of_cons|(cell & Hcell & Hc)]%elem_of_join;
        [done..|].
      by destruct (Hcells cell Hcell) as (_ & ? & _).
    - intros [[?|?%elem_of_nil]%elem_of_cons|(cell & Hcell & Hc)]%elem_of_join;
        [done..|].
      by destruct (Hcells cell Hcell) as (_ & _ & ?). }
  assert (filter (fun line : list Z => line <> []) (split_lines (join eol lines))
          = lines) as ->.
  { destruct (decide (lines = [])) as [->|Hne]; [done|].
    rewrite split_lines_join; [|done..|].
    - clear Hne. induction Hlines as [|line rest [Hl _] _ IH]; [done|].
      by rewrite filter_cons_True, IH.
    - eapply Forall_impl; [exact Hlines|]. by intros line (_ & ? & ?). }
  unfold lines. rewrite <- list_fmap_compose.
  rewrite <- (list_fmap_id rows) at 2.
  apply Forall_fmap_ext. eapply Forall_impl; [exact Hrows|].
  intros row (Hne & _ & Hcells). simpl. apply split_join; [done|].
  eapply Forall_impl; [exact Hcells|]. by intros cell (? & _).
Qed.

Lemma readTSV_join_witness :
  readTSV ([65279]
           ++ join [CR; LF]
                (map (join [TAB]) [[[80; 49]; [82; 49]]; [[80; 50]; [82; 50; 32]; []; [82; 49]]])
           ++ [CR; LF; 32; LF])
  = [[[80; 49]; [82; 49]]; [[80; 50]; [82; 50; 32]; []; [82; 49]]].
Proof.
  apply readTSV_join.
  - by right.
  - apply (bool_decide_unpack _). by vm_compute.
  - reflexivity.
  - by repeat constructor.
  - by repeat constructor.
Defined.

(** ** Runs with two generators *)

Section Simulation.
Context {G1 G2 : Type} `{RandomSource G1} `{RandomSource G2}.
Variable R : G1 -> G2 -> Prop.
Hypothesis HR : simulation R.

Lemma same_run_bind (r1 : result (machine G1)) (r2 : result (machine G2))
    (k1 : machine G1 -> result (machine G1))
    (k2 : machine G2 -> result (machine G2)) :
  same_run R r1 r2 ->
  (forall m1 m2, same_machine R m1 m2 -> same_run R (k1 m1) (k2 m2)) ->
  same_run R (result_bind r1 k1) (result_bind r2 k2).
Proof. destruct r1, r2; simpl; try done. intros Hm Hk. by apply Hk. Qed.

Lemma shuffleLoop_sim {A : Type} (i : nat) (l : list A) (g1 : G1) (g2 : G2) :
  R g1 g2 ->
  (shuffleLoop i l g1).1 = (shuffleLoop i l g2).1
  /\ R (shuffleLoop i l g1).2 (shuffleLoop i l g2).2.
Proof.
  revert l g1 g2. induction i as [|i IH]; intros l g1 g2 Hg; [done|].
  cbn [shuffleLoop]. destruct (HR g1 g2 Hg) as [Hu Hnext].
  destruct (random g1) as [u1 g1'], (random g2) as [u2 g2']. simpl in *.
  subst u2. by apply IH.
Qed.

Lemma pickWinners_sim {A : Type} (l : list A) (seats : num) (g1 : G1) (g2 : G2) :
  R g1 g2 ->
  (pickWinners l seats g1).1 = (pickWinners l seats g2).1
  /\ R (pickWinners l seats g1).2 (pickWinners l seats g2).2.
Proof.
  intros Hg. unfold pickWinners, createShuffledArray.
  destruct (len_le _ _); [done|].
  destruct (shuffleLoop_sim (length l - 1) l g1 g2 Hg) as [Hl Hnext].
  destruct (shuffleLoop _ l g1) as [sh1 g1'], (shuffleLoop _ l g2) as [sh2 g2'].
  simpl in *. by subst.
Qed.

Lemma assignWinners_sim (winners : list nat) (ti : nat)
    (m1 : machine G1) (m2 : machine G2) :
  same_machine R m1 m2 ->
  same_run R (assignWinners winners ti m1) (assignWinners winners ti m2).
Proof.
  revert m1 m2. induction winners as [|p rest IH]; intros m1 m2 Hm; [done|].
  destruct Hm as (Hs & Ht & Hg). simpl. rewrite Hs.
  destruct (grant p ti (store m2)) as [st'|e]; simpl; [|done].
  apply IH. split_and!; simpl; [done| |done]. by rewrite Ht.
Qed.

Lemma countsLoop_sim (keep : Store -> nat -> nat -> result bool)
    (groups : list (nat * list nat)) (counts : list nat) (ti : nat)
    (seats : num) (m1 : machine G1) (m2 : machine G2) :
  same_machine R m1 m2 ->
  same_run R (countsLoop keep groups counts ti seats m1)
    (countsLoop keep groups counts ti seats m2).
Proof.
  revert seats m1 m2. induction counts as [|c rest IH]; intros seats m1 m2 Hm;
    [done|].
  simpl. destruct (num_le0 seats); [done|].
  destruct (deref (groups_get groups c)) as [bucket|e]; simpl; [|done].
  pose proof Hm as (Hs & Ht & Hg). rewrite Hs.
  destruct (filterR (keep (store m2) ti) bucket) as [candidates|e]; simpl; [|done].
  destruct candidates as [|c0 cands]; [by apply IH|].
  destruct (pickWinners_sim (c0 :: cands) seats (gen m1) (gen m2) Hg) as [Hw Hg'].
  destruct (pickWinners (c0 :: cands) seats (gen m1)) as [w1 g1'].
  destruct (pickWinners (c0 :: cands) seats (gen m2)) as [w2 g2'].
  simpl in *. subst w2. apply same_run_bind.
  - apply assignWinners_sim. by split_and!.
  - intros m1' m2' Hm'. by apply IH.
Qed.

Lemma initialTheaters_sim (rank : nat) (tm : gmap string nat)
    (groups : list (nat * list nat)) (counts tis : list nat)
    (m1 : machine G1) (m2 : machine G2) :
  same_machine R m1 m2 ->
  same_run R (initialTheaters rank tm groups counts tis m1)
    (initialTheaters rank tm groups counts tis m2).
Proof.
  revert m1 m2. induction tis as [|ti tis IH]; intros m1 m2 Hm; [done|].
  simpl. pose proof Hm as (Hs & _). rewrite Hs.
  destruct (deref (theaters (store m2) !! ti)) as [T|e]; simpl; [|done].
  destruct (num_le0 _); [by apply IH|].
  apply same_run_bind; [by apply countsLoop_sim|]. intros. by apply IH.
Qed.

Lemma initialRanks_sim (ranks : list nat) (tm : gmap string nat)
    (m1 : machine G1) (m2 : machine G2) :
  same_machine R m1 m2 ->
  same_run R (initialRanks ranks tm m1) (initialRanks ranks tm m2).
Proof.
  revert m1 m2. induction ranks as [|rank ranks IH]; intros m1 m2 Hm; [done|].
  simpl. pose proof Hm as (Hs & _). rewrite Hs.
  destruct (allFull (store m2)); [done|].
  apply same_run_bind; [|intros; by apply IH].
  unfold initialRound. rewrite Hs.
  destruct (groupByAssignedCount _ _) as [groups|e]; simpl; [|done].
  by apply initialTheaters_sim.
Qed.

Lemma vacancyTheaters_sim (tm : gmap string nat) (candidates tis : list nat)
    (m1 : machine G1) (m2 : machine G2) :
  same_machine R m1 m2 ->
  same_run R (vacancyTheaters tm candidates tis m1)
    (vacancyTheaters tm candidates tis m2).
Proof.
  revert m1 m2. induction tis as [|ti tis IH]; intros m1 m2 Hm; [done|].
  simpl. pose proof Hm as (Hs & _). rewrite Hs.
  destruct (deref (theaters (store m2) !! ti)) as [T|e]; simpl; [|done].
  destruct (num_le0 _); [by apply IH|].
  destruct (groupByAssignedCount _ _) as [groups|e]; simpl; [|done].
  apply same_run_bind; [by apply countsLoop_sim|]. intros. by apply IH.
Qed.

(** The two lotteries with two generators that return the same numbers:
    the same store and the same registrations, or the same failure. *)
Lemma runLotteries_sim (cfg : settings) (vacancyFile : file)
    (tm : gmap string nat) (m1 : machine G1) (m2 : machine G2) :
  same_machine R m1 m2 ->
  same_run R (runLotteries cfg vacancyFile tm m1)
    (runLotteries cfg vacancyFile tm m2).
Proof.
  intros Hm. unfold runLotteries.
  pose proof (initialRanks_sim (seq 0 (maxOrders cfg)) tm m1 m2 Hm) as Hinit.
  unfold runInitialLottery.
  destruct (initialRanks _ tm m1) as [m1'|e1], (initialRanks _ tm m2) as [m2'|e2];
    simpl in *; try done.
  destruct (enableVacancy cfg); [|done].
  unfold runVacancyLottery.
  destruct (readLines vacancyFile true) as [lines|e]; simpl; [|done].
  destruct (decide _); [done|].
  pose proof Hinit as (Hs & _). rewrite Hs. by apply vacancyTheaters_sim.
Qed.
End Simulation.

Lemma same_int32_simulation : simulation same_int32.
Proof. intros g1 g2 Hg. by apply xorshift_next_int32. Qed.

(** X16. The allocation depends on the seed modulo 2^32 only.  Two runs
    of [main] on the same files, with seeds other than 0 that have the
    same 32-bit integer, print no seed, and end with the same persons and
    theaters after the same registrations, or stop for the same
    reason. *)
Theorem allocation_seed_modulo (parseInt10 : option string -> num)
    (passedFirst : list (string * list string) -> nat -> bool)
    (mo : nat) (ev : bool) (seed1 seed2 now1 now2 : Z) (thf orf : list row)
    (vf : file) :
  seed1 <> 0 -> seed2 <> 0 -> toInt32 seed1 = toInt32 seed2 ->
  let run1 :=
    main parseInt10 passedFirst (Settings mo ev (Some seed1)) now1 thf orf vf in
  let run2 :=
    main parseInt10 passedFirst (Settings mo ev (Some seed2)) now2 thf orf vf in
  reportedSeed run1 = None /\ reportedSeed run2 = None
  /\ match outcome run1, outcome run2 with
     | Ok m1, Ok m2 => store m1 = store m2 /\ trace m1 = trace m2
     | Abort e1, Abort e2 => e1 = e2
     | _, _ => False
     end.
Proof.
  intros Hs1 Hs2 Hseed. unfold main. cbn [seed maxOrders].
  rewrite !resolveSeed_given by done. cbn [reportedSeed outcome].
  split_and!; [done..|].
  destruct (loadAndValidateTheaters thf) as [theatersData|e]; simpl; [|done].
  destruct (loadAndValidateOrders orf mo _) as [orders|e]; simpl; [|done].
  assert (same_int32 (createSeededRandom seed1) (createSeededRandom seed2))
    as Hgen by (by split_and!).
  match goal with
  | |- context [runLotteries ?cfg vf ?tm
                  (Machine ?st (createSeededRandom seed1) [])] =>
      pose proof (runLotteries_sim same_int32 same_int32_simulation cfg vf tm
                    (Machine st (createSeededRandom seed1) [])
                    (Machine st (createSeededRandom seed2) [])
                    (conj eq_refl (conj eq_refl Hgen))) as Hsim
  end.
  destruct (runLotteries _ vf _ _) as [m1|e1], (runLotteries _ vf _ _) as [m2|e2];
    simpl in *; try done.
  destruct Hsim as (Hst & Htr & _). rewrite Hst.
  by destruct (writeResults passedFirst (store m2)).
Qed.

Lemma allocation_seed_modulo_witness :
  let run1 :=
    main parseDigits (fun _ _ => true) (Settings 2 true (Some 1)) 0 theatersA
      ordersA FileMissing in
  let run2 :=
    main parseDigits (fun _ _ => true) (Settings 2 true (Some 4294967297)) 5
      theatersA ordersA FileMissing in
  reportedSeed run1 = None /\ reportedSeed run2 = None
  /\ match outcome run1, outcome run2 with
     | Ok m1, Ok m2 => store m1 = store m2 /\ trace m1 = trace m2
     | Abort e1, Abort e2 => e1 = e2
     | _, _ => False
     end.
Proof. apply allocation_seed_modulo; [lia|lia|reflexivity]. Defined.

(** ** Counting the registrations *)

Lemma sum_list_insert {A : Type} (f : A -> nat) (l : list A) (i : nat) (x y : A) :
  l !! i = Some x ->
  (sum_list (f <$> <[i := y]> l) + f x = sum_list (f <$> l) + f y)%nat.
Proof.
  revert i. induction l as [|a l IH]; intros [|i] Hi; try done.
  - injection Hi as ->. simpl. lia.
  - specialize (IH i Hi). simpl in *. unfold fmap in IH. lia.
Qed.

(** A registration of a person who does not hold the theater adds one win
    and one holder. *)
Lemma grant_counts (p ti : nat) (s s' : Store) :
  not_holding (p, ti, s) -> grant p ti s = Ok s' ->
  total_wins s' = S (total_wins s) /\ total_holders s' = S (total_holders s).
Proof.
  intros (P & T & HP & HT & Hw & Hh) (P' & T' & HP' & HT' & ->)%grant_Ok.
  simpl in *. assert (P' = P) as -> by congruence.
  assert (T' = T) as -> by congruence.
  unfold total_wins, total_holders; simpl.
  pose proof (sum_list_insert (fun P => length (person_assigned P)) (persons s) p P
                (Person (person_id P) (prefs P)
                   (set_add (theater_id T) (person_assigned P))) HP) as Hsp.
  pose proof (sum_list_insert (fun T => length (theater_assigned T)) (theaters s) ti T
                (Theater (theater_id T) (timeSlot T) (play T) (capacity T)
                   (set_add (person_id P) (theater_assigned T))) HT) as Hst.
  simpl in *. rewrite !set_add_new by done.
  rewrite set_add_new, length_app in Hsp, Hst by done.
  simpl in *. lia.
Qed.

Lemma chain_counts (s0 s : Store) (tr : list event) :
  chain s0 tr s -> Forall not_holding tr ->
  total_wins s = (total_wins s0 + length tr)%nat
  /\ total_holders s = (total_holders s0 + length tr)%nat.
Proof.
  induction 1 as [|tr s p ti s' _ IH Hg]; intros Hnh; [simpl; lia|].
  apply Forall_cons in Hnh as [Hnew Hnh].
  destruct (IH Hnh) as [Hw Hh].
  destruct (grant_counts p ti s s' Hnew Hg) as [-> ->]. simpl. lia.
Qed.

Section Counting.
Context {G : Type} `{RandomSource G}.
Implicit Types (m : machine G).

(** X17. Every registration counts once.  From a store in good order,
    the two lotteries return (unless the vacancy lottery is enabled and
    its file cannot be read); each of their registrations is of a person
    who does not hold the theater yet, on either side; so the wins of all
    persons and the holders of all theaters both grow by exactly the
    number of registrations made. *)
Theorem registrations_counted (cfg : settings) (vacancyFile : file)
    (tm : gmap string nat) m :
  wf tm (store m) ->
  (enableVacancy cfg = true -> vacancyFile <> FileUnreadable) ->
  exists m' new,
    runLotteries cfg vacancyFile tm m = Ok m'
    /\ trace m' = new ++ trace m
    /\ Forall not_holding new
    /\ total_wins (store m') = (total_wins (store m) + length new)%nat
    /\ total_holders (store m') = (total_holders (store m) + length new)%nat.
Proof.
  intros Hwf Hf. pose proof Hwf as (Hcl & _).
  destruct (runLotteries_spec cfg vacancyFile tm m Hcl Hf)
    as (m' & Hrun & new & Hnew & Hch & HG).
  assert (Forall not_holding new) as Hnh.
  { destruct (chain_wf tm _ _ _ Hwf Hch) as [_ Hwfs].
    rewrite Forall_fmap in Hwfs. apply Forall_forall. intros e He.
    rewrite Forall_forall in Hwfs. rewrite Forall_forall in HG.
    destruct (Hwfs e He) as (_ & Hex & _ & Hco).
    apply (guarded_not_holding tm); [done..|by apply HG]. }
  destruct (chain_counts _ _ _ Hch Hnh) as [Hw Hh].
  exists m', new. by split_and!.
Qed.
End Counting.

Lemma registrations_counted_witness :
  exists m' new,
    runLotteries (Settings 2 true (Some 1)) (FileLines ["P1"; "P2"]%string)
      theaterMapA machineA = Ok m'
    /\ trace m' = new ++ trace machineA
    /\ Forall not_holding new
    /\ total_wins (store m') = (total_wins (store machineA) + length new)%nat
    /\ total_holders (store m')
       = (total_holders (store machineA) + length new)%nat.
Proof.
  apply registrations_counted.
  - apply (fresh_wf (persons storeA) (theaters storeA)).
    + split; by repeat constructor.
    + split; by vm_compute; apply (bool_decide_unpack _).
  - discriminate.
Defined.

(** ** The end of a run *)

Lemma grant_wins_are_ids (p ti : nat) (s s' : Store) :
  wins_are_ids s -> grant p ti s = Ok s' -> wins_are_ids s'.
Proof.
  intros Hw Hg. pose proof (grant_static _ _ _ _ Hg) as Hst.
  assert (forall T, T ∈ theaters s -> exists T', T' ∈ theaters s'
                                         /\ theater_id T' = theater_id T) as Hth.
  { intros T [i Hi]%list_elem_of_lookup.
    destruct (same_static_theater s s' i T Hst Hi) as (T' & HT' & HsT).
    exists T'. split; [by eapply list_elem_of_lookup_2|].
    by apply tstatic_eq in HsT as (-> & _). }
  apply grant_Ok in Hg as (P & T & HP & HT & ->). simpl in *.
  apply list_elem_of_lookup_2 in HP, HT.
  intros P' tid [->|HP']%elem_of_insert_inv Htid; simpl in *.
  - apply set_add_elem_of in Htid as [->|Htid].
    + by apply Hth.
    + destruct (Hw P tid HP Htid) as (T0 & HT0 & <-). by apply Hth.
  - destruct (Hw P' tid HP' Htid) as (T0 & HT0 & <-). by apply Hth.
Qed.

Lemma chain_wins_are_ids (s0 s : Store) (tr : list event) :
  wins_are_ids s0 -> chain s0 tr s -> wins_are_ids s.
Proof. intros Hw. induction 1; [done|]. by eapply grant_wins_are_ids. Qed.

(** With an exact [theaterMap] and wins that are theater ids, a conflict
    that [hasConflict] reports is with a theater that the person holds. *)
Lemma hasConflict_clashes (tm : gmap string nat) (s : Store) (P : person)
    (T : theater) :
  exact tm s -> wins_are_ids s -> P ∈ persons s ->
  hasConflict P T tm (theaters s) = Ok true -> clashes s P T.
Proof.
  intros Hex Hw HP (tid & ai & Ta & Htid & Hai & HTa & Hsame)%hasConflictLoop_true.
  destruct (Hw P tid HP Htid) as (T0 & [j Hj]%list_elem_of_lookup & Hid).
  pose proof (Hex j T0 Hj) as Hj'. rewrite Hid, Hai in Hj'. injection Hj' as ->.
  assert (T0 = Ta) as -> by congruence.
  exists Ta. split_and!; [by eapply list_elem_of_lookup_2|by rewrite Hid|done].
Qed.

Section EndOfRun.
Variable parseInt10 : option string -> num.
Variable passedFirst : list (string * list string) -> nat -> bool.

(** X18. A run of [main] wastes no seat.  When the ids of the theaters
    and of the persons are distinct and none of them is empty (and the
    opt-in file, if the vacancy lottery is enabled, is not unreadable),
    [main] reaches the end, and then, for every theater with a numeric
    capacity that is not full and for every person: if the theater is
    among the person's preferences, the person holds it or holds a
    theater with the same time slot or the same play; and if the vacancy
    lottery ran and the person's id is a line of the opt-in file, the
    person holds a theater with the same time slot or the same play
    (possibly the theater itself). *)
Theorem main_wastes_no_seat (cfg : settings) (now : Z) (thf orf : list row)
    (vf : file) :
  NoDup (map col0 thf) -> NoDup (map col0 orf) ->
  (EmptyString ∉ map col0 thf) -> (EmptyString ∉ map col0 orf) ->
  (enableVacancy cfg = true -> vf <> FileUnreadable) ->
  exists m',
    outcome (main parseInt10 passedFirst cfg now thf orf vf) = Ok m'
    /\ forall p ti P T,
         persons (store m') !! p = Some P -> theaters (store m') !! ti = Some T ->
         capacity T <> NaN ->
         len_ge (length (theater_assigned T)) (capacity T) = true
         \/ ((forall rank, prefs P !! rank = Some (Some (theater_id T)) ->
                theater_id T ∈ person_assigned P \/ clashes (store m') P T)
             /\ (forall lines,
                   enableVacancy cfg = true -> vf = FileLines lines ->
                   person_id P ∈ lines -> clashes (store m') P T)).
Proof.
  intros Hth%set_from_length_iff Hor%set_from_length_iff Hne_th Hne_or Hf.
  destruct (main_allocation parseInt10 passedFirst cfg now thf orf vf Hth Hor)
    as (Hmain & Hfresh & Hu).
  rewrite Hmain. clear Hmain.
  set (ps := map (makePerson (maxOrders cfg)) orf) in *.
  set (ths := map (makeTheater parseInt10) thf) in *.
  set (tm := makeTheaterMap (theaters (MkStore ps ths))) in *.
  set (m0 := Machine (MkStore ps ths) _ []).
  assert (wf tm (store m0)) as Hwf by (by apply fresh_wf).
  pose proof Hwf as (Hcl & _).
  destruct (runLotteries_spec cfg vf tm m0 Hcl Hf) as (m' & Hrun & tr & _ & Hch & _).
  exists m'. split.
  { rewrite Hrun. simpl.
    pose proof (chain_static _ _ _ Hch) as Hst0.
    destruct (same_static_ids _ _ Hst0) as [Hpid Htid]. simpl in Hpid, Htid.
    unfold ps in Hpid. unfold ths in Htid.
    rewrite makePerson_ids in Hpid. rewrite makeTheater_ids in Htid.
    destruct (writeResults_cases passedFirst (store m')) as [->|[_ Hempty]];
      [done|].
    destruct Hempty as [(P & HP & Hid & _)|(T & HT & Hid & _)].
    - destruct Hne_or. rewrite Hpid, <- Hid. by apply list_elem_of_fmap_2.
    - destruct Hne_th. rewrite Htid, <- Hid. by apply list_elem_of_fmap_2. }
  intros p ti P T HP HT Hcap.
  destruct (chain_wf tm _ _ _ Hwf Hch) as [(Hcl' & Hex' & _ & _) _].
  assert (wins_are_ids (store m')) as Hids.
  { eapply chain_wins_are_ids; [|done].
    intros Q tid HQ Htid. destruct Hfresh as [Hfp _].
    rewrite Forall_forall in Hfp. rewrite (Hfp Q HQ) in Htid.
    by apply elem_of_nil in Htid. }
  assert (P ∈ persons (store m')) as HPin by (by eapply list_elem_of_lookup_2).
  unfold runLotteries in Hrun. inv_ok Hrun. rename a into m1.
  destruct (runInitialLottery_spec tm (maxOrders cfg) m0 Hcl)
    as (m1' & Hrun1 & new1 & _ & Hch1 & _).
  assert (m1' = m1) as -> by congruence. clear Hrun1.
  destruct (chain_wf tm _ _ _ Hwf Hch1) as [Hwf1 _].
  assert (exists tr', chain (store m1) tr' (store m')) as [tr' Hch'].
  { destruct (enableVacancy cfg) eqn:Hev;
      [|injection Hrun as <-; exists []; constructor].
    destruct (runVacancyLottery_spec tm vf m1)
      as (m2 & Hrun2 & new2 & _ & Hch2 & _); [apply Hwf1|by apply Hf|].
    assert (m2 = m') as -> by congruence. by eexists. }
  pose proof (chain_static _ _ _ Hch') as Hst'.
  destruct (len_ge (length (theater_assigned T)) (capacity T)) eqn:Hfull;
    [by left|right].
  assert (~ full (store m') ti) as Hnot.
  { intros (T' & HT' & Hge). assert (T' = T) as -> by congruence. congruence. }
  split.
  - intros rank Hpref.
    assert (rank < maxOrders cfg)%nat as Hrank.
    { pose proof (chain_static _ _ _ Hch) as Hst0.
      destruct (same_static_person (store m') (store m0) p P) as (P0 & HP0 & HsP);
        [done..|].
      assert (prefs P0 = prefs P) as Hpr by (unfold pstatic in HsP; congruence).
      apply lookup_lt_Some in Hpref. rewrite <- Hpr in Hpref.
      simpl in HP0. unfold ps in HP0. rewrite list_lookup_fmap in HP0.
      destruct (orf !! p) as [r|]; [|done]. injection HP0 as <-.
      simpl in Hpref. by rewrite length_map, length_seq in Hpref. }
    destruct (same_static_theater (store m') (store m1) ti T) as (T1 & HT1 & HsT1);
      [done..|].
    assert (capacity T1 <> NaN) as Hcap1.
    { apply tstatic_eq in HsT1 as (_ & _ & _ & ->). done. }
    destruct (done_with_chain tm (wantsTheater rank tm)
                (seq 0 (length (persons (store m1)))) (store m1) (store m') tr' ti
                (wantsTheater_served rank tm)) as [?|Hrej]; [apply Hwf1|done| |done|].
    { apply (initialRanks_served tm (seq 0 (maxOrders cfg)) m0 m1 Hwf Ha rank ti T1);
        [apply elem_of_seq; lia|done..]. }
    destruct (proj1 (wantsTheater_false rank tm (store m') ti p))
      as (P' & T' & HP' & HT' & Hwhy).
    { apply Hrej, elem_of_seq. apply lookup_lt_Some in HP.
      pose proof (same_static_persons_length _ _ Hst'). lia. }
    assert (P' = P) as -> by congruence. assert (T' = T) as -> by congruence.
    destruct Hwhy as [?|[?|Hc]]; [done|by left|right].
    by apply (hasConflict_clashes tm).
  - intros lines Hev -> Hid. rewrite Hev in Hrun.
    destruct (runVacancyLottery_served tm lines m1 m' Hwf1 Hrun p ti P T)
      as [?|Hc]; [done..|congruence|].
    by apply (hasConflict_clashes tm).
Qed.
End EndOfRun.

Lemma main_wastes_no_seat_witness :
  exists m',
    outcome (main parseDigits (fun _ _ => true) (Settings 3 true (Some 1)) 0
               theatersD ordersD (FileLines ["P1"; "P2"]%string)) = Ok m'
    /\ forall p ti P T,
         persons (store m') !! p = Some P -> theaters (store m') !! ti = Some T ->
         capacity T <> NaN ->
         len_ge (length (theater_assigned T)) (capacity T) = true
         \/ ((forall rank, prefs P !! rank = Some (Some (theater_id T)) ->
                theater_id T ∈ person_assigned P \/ clashes (store m') P T)
             /\ (forall lines,
                   enableVacancy (Settings 3 true (Some 1)) = true ->
                   FileLines ["P1"; "P2"]%string = FileLines lines ->
                   person_id P ∈ lines -> clashes (store m') P T)).
Proof.
  apply main_wastes_no_seat.
  - apply (bool_decide_unpack _). by vm_compute.
  - apply (bool_decide_unpack _). by vm_compute.
  - apply (bool_decide_unpack _). by vm_compute.
  - apply (bool_decide_unpack _). by vm_compute.
  - discriminate.
Defined.
